(** * The WORHP plugin of pagmo_plugins_nonfree: reverse-communication driver

    A shallow embedding of [include/pagmo_plugins_nonfree/worhp.hpp]
    (class [pagmo::worhp]) and the properties of its driver:
    the precondition checks, the run-time acquisition of the solver
    library, the set-up of the four solver records, the
    reverse-communication loop, the reinsertion of the result, the
    verbosity accessors, the description of the object and its
    serialization.

    Conventions of the embedding.
    - A C++ [double] is a primitive binary64 float; a [vector_double] and a
      solver array ([double*]) are lists of them.
    - [int] (the solver's counters, the loop indices) is a [Z] with the 32-bit
      two's-complement wrap-around written out in [to_int]; [size_type] values
      are non-negative [Z].
    - The code runs in a monad [M] that threads the four solver records and
      returns, next to the outcome, the trace of the calls that crossed the
      boundary of the driver (loader, solver, host problem).  An outcome is a
      normal return, a C++ exception, undefined behaviour (an access outside
      an array or a vector), or the exhaustion of the fuel that bounds the
      [while] loop.
    - The solver library, the file system, and pagmo's problem, population and
      [not_population_based] base class are parameters: records of functions
      ([Library], [FileSystem], [Host], [problem]).  The constants of the
      solver's header [worhp.h], which is not part of the sources at hand, are
      the fields of [WorhpHeader].
    - Concurrent calls of [evolve] are threads that interleave the traces of
      their calls under the semantics of the one mutex they share. *)

From Stdlib Require Import ZArith List String Bool Lia PrimFloat.
From Stdlib Require DecimalString DecimalN DecimalPos.
Import ListNotations.

Local Open Scope Z_scope.

(** ** Numbers and vectors *)

Definition double : Set := PrimFloat.float.
Definition vector_double : Set := list double.

Definition INT_MAX : Z := 2 ^ 31 - 1.

(** Conversion of an integer value to [int]. *)
Definition to_int (z : Z) : Z := (z + 2 ^ 31) mod 2 ^ 32 - 2 ^ 31.

(** [v[i]]: [None] when [i] is outside the vector or the array. *)
Definition at_index {A : Type} (v : list A) (i : Z) : option A :=
  if i <? 0 then None else nth_error v (Z.to_nat i).

(** [a[i] = x] on a list. *)
Fixpoint set_nth {A : Type} (v : list A) (i : nat) (x : A) : list A :=
  match v, i with
  | [], _ => []
  | _ :: t, O => x :: t
  | h :: t, S j => h :: set_nth t j x
  end.

(** [a[i] = x]: [None] when [i] is outside the array. *)
Definition store {A : Type} (v : list A) (i : Z) (x : A) : option (list A) :=
  if (0 <=? i) && (i <? Z.of_nat (List.length v))
  then Some (set_nth v (Z.to_nat i) x)
  else None.

(** ** Exceptions *)

Inductive ExnKind : Set :=
| invalid_argument
| other_exception.

Record Exn : Set := { kind : ExnKind; what : string }.

(** ** The solver's records (declared in worhp.h)

    Only the fields the driver names are spelled out; everything else a record
    holds is its [Opaque] part, which the driver never reads or writes. *)

(** The actions of the reverse-communication protocol, as listed in the
    comment above the loop. *)
Inductive UserAction : Set :=
| callWorhp | iterOutput | evalF | evalG | evalDF | evalDG | evalHM | fidif.

Definition UserAction_eqb (a b : UserAction) : bool :=
  match a, b with
  | callWorhp, callWorhp | iterOutput, iterOutput | evalF, evalF
  | evalG, evalG | evalDF, evalDF | evalDG, evalDG | evalHM, evalHM
  | fidif, fidif => true
  | _, _ => false
  end.

Record WorhpHeader : Set := {
  TerminateSuccess : Z;
  TerminateError : Z;
  WorhpMatrix_Init_Dense : Z
}.

Section Records.

Variable Opaque : Type.

Record OptVar : Type := {
  n : Z;
  m : Z;
  X : list double;
  F : double;
  G : list double;
  XL : list double;
  XU : list double;
  GL : list double;
  GU : list double;
  opt_rest : Opaque
}.

Record Workspace : Type := {
  DF_nnz : Z;
  DG_nnz : Z;
  HM_nnz : Z;
  ScaleObj : double;
  wsp_rest : Opaque
}.

Record Params : Type := {
  UserDF : bool;
  UserDG : bool;
  UserHM : bool;
  UserHMstructure : bool;
  InitialLMest : bool;
  Infty : double;
  par_rest : Opaque
}.

Record Control : Type := {
  status : Z;
  cnt_rest : Opaque
}.

(** The four locals [opt], [wsp], [par], [cnt] of [evolve]. *)
Record Records : Type := {
  opt : OptVar;
  wsp : Workspace;
  par : Params;
  cnt : Control
}.

(** The ten entry points of the solver, with the signatures [evolve]
    declares for them.  A routine that receives the four pointers is a
    function on [Records]. *)
Definition solver_routine : Type := Records -> Records.
Definition ReadParams_t : Type := string -> Params -> Z * Params.
Definition GetUserAction_t : Type := Control -> UserAction -> bool.
Definition DoneUserAction_t : Type := Control -> UserAction -> bool * Control.

(** A loaded shared library: what [boost::dll::import<T>(lib, name)] finds
    for each of the three function types [evolve] imports, or the exception
    it throws. *)
Record Library : Type := {
  import_routine : string -> Exn + solver_routine;
  import_ReadParams : string -> Exn + ReadParams_t;
  import_GetUserAction : string -> Exn + GetUserAction_t;
  import_DoneUserAction : string -> Exn + DoneUserAction_t
}.

(** [boost::filesystem::is_regular_file] and the constructor of
    [boost::dll::shared_library]. *)
Record FileSystem : Type := {
  is_regular_file : string -> bool;
  shared_library : string -> Exn + Library
}.

End Records.

Arguments n {Opaque} _.
Arguments m {Opaque} _.
Arguments X {Opaque} _.
Arguments F {Opaque} _.
Arguments G {Opaque} _.
Arguments XL {Opaque} _.
Arguments XU {Opaque} _.
Arguments GL {Opaque} _.
Arguments GU {Opaque} _.
Arguments opt_rest {Opaque} _.
Arguments DF_nnz {Opaque} _.
Arguments DG_nnz {Opaque} _.
Arguments HM_nnz {Opaque} _.
Arguments ScaleObj {Opaque} _.
Arguments wsp_rest {Opaque} _.
Arguments UserDF {Opaque} _.
Arguments UserDG {Opaque} _.
Arguments UserHM {Opaque} _.
Arguments UserHMstructure {Opaque} _.
Arguments InitialLMest {Opaque} _.
Arguments Infty {Opaque} _.
Arguments par_rest {Opaque} _.
Arguments status {Opaque} _.
Arguments cnt_rest {Opaque} _.
Arguments opt {Opaque} _.
Arguments wsp {Opaque} _.
Arguments par {Opaque} _.
Arguments cnt {Opaque} _.
Arguments import_routine {Opaque} _ _.
Arguments import_ReadParams {Opaque} _ _.
Arguments import_GetUserAction {Opaque} _ _.
Arguments import_DoneUserAction {Opaque} _ _.
Arguments is_regular_file {Opaque} _ _.
Arguments shared_library {Opaque} _ _.

(** ** The host: pagmo's problem, population and base class *)

Record problem : Type := {
  get_nx : Z;
  get_nobj : Z;
  get_nc : Z;
  get_nec : Z;
  get_nf : Z;
  is_stochastic : bool;
  get_bounds : vector_double * vector_double;
  get_c_tol : vector_double;
  problem_name : string;
  fitness : vector_double -> Exn + vector_double
}.

(** The places where the file raises through [pagmo_throw]. *)
Inductive ThrowSite : Set :=
| at_multiobjective
| at_stochastic
| at_empty_population
| at_not_a_file
| at_load_failed
| at_verbosity.

Record Host : Type := {
  population : Type;
  not_population_based : Type;
  get_problem : population -> problem;
  size : population -> Z;
  select_individual :
    not_population_based -> population -> Exn + (vector_double * vector_double);
  replace_individual :
    not_population_based -> population -> vector_double -> vector_double ->
    Exn + population;
  compare_fc :
    vector_double -> vector_double -> Z -> vector_double -> Exn + bool;
  (** the text [what()] returns for an exception raised by [pagmo_throw]
      at a given place with a given description *)
  pagmo_throw_what : ThrowSite -> string -> string
}.

(** ** Calls that cross the driver's boundary *)

Inductive Event : Set :=
| EvLock
| EvUnlock
| EvIsRegularFile (path : string)
| EvSharedLibrary (path : string)
| EvImport (symbol : string)
| EvWorhpPreInit
| EvReadParams (file : string)
| EvWorhpInit
| EvStatus (st : Z)
| EvGetUserAction (a : UserAction) (requested : bool)
| EvDoneUserAction (a : UserAction)
| EvWorhp
| EvIterationOutput
| EvUserF
| EvUserG
| EvWorhpFidif
| EvStatusMsg
| EvWorhpFree
| EvSelect
| EvFitness (x : vector_double)
| EvCompare (f1 f2 : vector_double)
| EvReplace (x f : vector_double).

Definition Trace : Set := list Event.

(** ** The monad of the driver *)

Inductive Outcome (A : Type) : Type :=
| Ret (a : A)
| Throw (e : Exn)
| Undefined
| OutOfFuel.

Arguments Ret {A} a.
Arguments Throw {A} e.
Arguments Undefined {A}.
Arguments OutOfFuel {A}.

Definition M (St A : Type) : Type := St -> Outcome A * St * Trace.

Definition ret {St A : Type} (a : A) : M St A := fun s => (Ret a, s, []).

Definition bind {St A B : Type} (c : M St A) (k : A -> M St B) : M St B :=
  fun s =>
    match c s with
    | (Ret a, s1, t1) =>
        match k a s1 with
        | (o, s2, t2) => (o, s2, t1 ++ t2)
        end
    | (Throw e, s1, t1) => (Throw e, s1, t1)
    | (Undefined, s1, t1) => (Undefined, s1, t1)
    | (OutOfFuel, s1, t1) => (OutOfFuel, s1, t1)
    end.

Declare Scope drv_scope.
Delimit Scope drv_scope with drv.
Notation "x <- c ;; k" := (bind c (fun x => k))
  (at level 61, c at next level, right associativity) : drv_scope.
Notation "c ;; k" := (bind c (fun _ => k))
  (at level 61, right associativity) : drv_scope.
Local Open Scope drv_scope.

Definition throw {St A : Type} (e : Exn) : M St A := fun s => (Throw e, s, []).
Definition undefined {St A : Type} : M St A := fun s => (Undefined, s, []).
Definition out_of_fuel {St A : Type} : M St A := fun s => (OutOfFuel, s, []).
Definition emit {St : Type} (e : Event) : M St unit := fun s => (Ret tt, s, [e]).
Definition get {St : Type} : M St St := fun s => (Ret s, s, []).
Definition put {St : Type} (s' : St) : M St unit := fun _ => (Ret tt, s', []).

(** A value that is there, or undefined behaviour. *)
Definition defined {St A : Type} (o : option A) : M St A :=
  match o with Some a => ret a | None => undefined end.

(** The result of a host call: a value or the exception it threw. *)
Definition host {St A : Type} (r : Exn + A) : M St A :=
  match r with inr a => ret a | inl e => throw e end.

(** [try { c } catch (const std::exception &e) { h e }] *)
Definition try_catch {St A : Type} (c : M St A) (h : Exn -> M St A) : M St A :=
  fun s =>
    match c s with
    | (Throw e, s1, t1) =>
        match h e s1 with
        | (o, s2, t2) => (o, s2, t1 ++ t2)
        end
    | r => r
    end.

(** A [std::lock_guard] on [library_load_mutex] whose scope is [c]: the
    mutex is released when [c] is left, by a return or by an exception. *)
Definition lock_guard {St A : Type} (c : M St A) : M St A :=
  fun s =>
    match c s with
    | (o, s1, t1) => (o, s1, EvLock :: t1 ++ [EvUnlock])
    end.

(** [for (i = lo; i < hi; ++i) body(i)], the bounds being fixed. *)
Fixpoint for_count {St : Type} (count : nat) (i : Z) (body : Z -> M St unit)
  : M St unit :=
  match count with
  | O => ret tt
  | S c => body i ;; for_count c (i + 1) body
  end.

Definition for_range {St : Type} (lo hi : Z) (body : Z -> M St unit) : M St unit :=
  for_count (Z.to_nat (hi - lo)) lo body.

(** A loop that carries a local value: [acc] is what the body updates. *)
Fixpoint for_fold {St B : Type} (count : nat) (i : Z)
    (body : Z -> B -> M St B) (acc : B) : M St B :=
  match count with
  | O => ret acc
  | S c => acc' <- body i acc ;; for_fold c (i + 1) body acc'
  end.

Definition for_fold_range {St B : Type} (lo hi : Z) (body : Z -> B -> M St B)
    (acc : B) : M St B :=
  for_fold (Z.to_nat (hi - lo)) lo body acc.


(** ** The algorithm object *)

(** [pagmo::worhp]: the state inherited from [not_population_based] (the
    selection and replacement policies and the random engine) and the three
    data members. *)
Record worhp (H : Host) : Type := {
  base : not_population_based H;
  m_worhp_library : string;
  m_screen_output : bool;
  m_verbosity : N
}.

Arguments base {H} _.
Arguments m_worhp_library {H} _.
Arguments m_screen_output {H} _.
Arguments m_verbosity {H} _.

(** The constructor initialises two of the three members; [m_verbosity] keeps
    whatever value [v0] its storage held. *)
Definition worhp_ctor {H : Host} (b : not_population_based H) (v0 : N)
    (screen_output : bool) (worhp_library : string) : worhp H :=
  {| base := b;
     m_worhp_library := worhp_library;
     m_screen_output := screen_output;
     m_verbosity := v0 |}.

Definition default_worhp_library : string := "/usr/local/lib/libworhp.so".

Definition get_name : string := "WORHP".

Definition pagmo_throw (H : Host) {St A : Type} (site : ThrowSite)
    (k : ExnKind) (descr : string) : M St A :=
  throw {| kind := k; what := pagmo_throw_what H site descr |}.

Definition set_verbosity {H : Host} (v : N) : M (worhp H) unit :=
  w <- get ;;
  if m_screen_output w && negb (v =? 0)%N then
    pagmo_throw H at_verbosity invalid_argument
      "Cannot set verbosity to a >0 value if WORHP screen output is choosen upon construction."
  else
    put {| base := base w;
           m_worhp_library := m_worhp_library w;
           m_screen_output := m_screen_output w;
           m_verbosity := v |}.

Definition get_verbosity {H : Host} (w : worhp H) : N := m_verbosity w.

(** ** Assignments to the fields of the records *)

Section Setters.

Context {Opaque : Type}.

Definition set_opt (s : Records Opaque) (o : OptVar Opaque) : Records Opaque :=
  {| opt := o; wsp := wsp s; par := par s; cnt := cnt s |}.
Definition set_wsp (s : Records Opaque) (w : Workspace Opaque) : Records Opaque :=
  {| opt := opt s; wsp := w; par := par s; cnt := cnt s |}.
Definition set_par (s : Records Opaque) (p : Params Opaque) : Records Opaque :=
  {| opt := opt s; wsp := wsp s; par := p; cnt := cnt s |}.
Definition set_cnt (s : Records Opaque) (c : Control Opaque) : Records Opaque :=
  {| opt := opt s; wsp := wsp s; par := par s; cnt := c |}.

Definition set_n (o : OptVar Opaque) (v : Z) : OptVar Opaque :=
  {| n := v; m := m o; X := X o; F := F o; G := G o; XL := XL o; XU := XU o;
     GL := GL o; GU := GU o; opt_rest := opt_rest o |}.
Definition set_m (o : OptVar Opaque) (v : Z) : OptVar Opaque :=
  {| n := n o; m := v; X := X o; F := F o; G := G o; XL := XL o; XU := XU o;
     GL := GL o; GU := GU o; opt_rest := opt_rest o |}.
Definition set_X (o : OptVar Opaque) (v : list double) : OptVar Opaque :=
  {| n := n o; m := m o; X := v; F := F o; G := G o; XL := XL o; XU := XU o;
     GL := GL o; GU := GU o; opt_rest := opt_rest o |}.
Definition set_F (o : OptVar Opaque) (v : double) : OptVar Opaque :=
  {| n := n o; m := m o; X := X o; F := v; G := G o; XL := XL o; XU := XU o;
     GL := GL o; GU := GU o; opt_rest := opt_rest o |}.
Definition set_G (o : OptVar Opaque) (v : list double) : OptVar Opaque :=
  {| n := n o; m := m o; X := X o; F := F o; G := v; XL := XL o; XU := XU o;
     GL := GL o; GU := GU o; opt_rest := opt_rest o |}.
Definition set_XL (o : OptVar Opaque) (v : list double) : OptVar Opaque :=
  {| n := n o; m := m o; X := X o; F := F o; G := G o; XL := v; XU := XU o;
     GL := GL o; GU := GU o; opt_rest := opt_rest o |}.
Definition set_XU (o : OptVar Opaque) (v : list double) : OptVar Opaque :=
  {| n := n o; m := m o; X := X o; F := F o; G := G o; XL := XL o; XU := v;
     GL := GL o; GU := GU o; opt_rest := opt_rest o |}.
Definition set_GL (o : OptVar Opaque) (v : list double) : OptVar Opaque :=
  {| n := n o; m := m o; X := X o; F := F o; G := G o; XL := XL o; XU := XU o;
     GL := v; GU := GU o; opt_rest := opt_rest o |}.
Definition set_GU (o : OptVar Opaque) (v : list double) : OptVar Opaque :=
  {| n := n o; m := m o; X := X o; F := F o; G := G o; XL := XL o; XU := XU o;
     GL := GL o; GU := v; opt_rest := opt_rest o |}.

(** [wsp.DF.nnz = wsp.DG.nnz = wsp.HM.nnz = v], one after the other. *)
Definition set_nnz (w : Workspace Opaque) (v : Z) : Workspace Opaque :=
  {| DF_nnz := v; DG_nnz := v; HM_nnz := v; ScaleObj := ScaleObj w;
     wsp_rest := wsp_rest w |}.

(** The five assignments [par.UserDF = false; ...; par.InitialLMest = true]. *)
Definition set_derivative_free (p : Params Opaque) : Params Opaque :=
  {| UserDF := false; UserDG := false; UserHM := false;
     UserHMstructure := false; InitialLMest := true;
     Infty := Infty p; par_rest := par_rest p |}.

(** An assignment to a field of [opt], [wsp] or [par]. *)
Definition assign_opt (f : OptVar Opaque -> OptVar Opaque) : M (Records Opaque) unit :=
  fun s => (Ret tt, set_opt s (f (opt s)), []).
Definition assign_wsp (f : Workspace Opaque -> Workspace Opaque)
  : M (Records Opaque) unit :=
  fun s => (Ret tt, set_wsp s (f (wsp s)), []).
Definition assign_par (f : Params Opaque -> Params Opaque) : M (Records Opaque) unit :=
  fun s => (Ret tt, set_par s (f (par s)), []).

(** [a[i] = x] for one of the arrays of [opt]: undefined outside the array. *)
Definition store_opt (arr : OptVar Opaque -> list double)
    (upd : OptVar Opaque -> list double -> OptVar Opaque) (i : Z) (x : double)
  : M (Records Opaque) unit :=
  s <- get ;;
  a <- defined (store (arr (opt s)) i x) ;;
  assign_opt (fun o => upd o a).

(** The vector [vector_double x(X, X + dim)]: the first [dim] cells of the
    array, undefined when the array is shorter. *)
Definition read_array (a : list double) (count : Z) : option vector_double :=
  if (0 <=? count) && (count <=? Z.of_nat (List.length a))
  then Some (firstn (Z.to_nat count) a)
  else None.

End Setters.

(** ** The driver *)

(** The ten functions [evolve] binds to the solver's entry points, in the
    order of their declarations. *)
Record Capability (Opaque : Type) : Type := {
  ReadParams : ReadParams_t Opaque;
  WorhpPreInit : solver_routine Opaque;
  WorhpInit : solver_routine Opaque;
  GetUserAction : GetUserAction_t Opaque;
  DoneUserAction : DoneUserAction_t Opaque;
  IterationOutput : solver_routine Opaque;
  Worhp : solver_routine Opaque;
  StatusMsg : solver_routine Opaque;
  WorhpFree : solver_routine Opaque;
  WorhpFidif : solver_routine Opaque
}.

Arguments ReadParams {Opaque} _.
Arguments WorhpPreInit {Opaque} _.
Arguments WorhpInit {Opaque} _.
Arguments GetUserAction {Opaque} _.
Arguments DoneUserAction {Opaque} _.
Arguments IterationOutput {Opaque} _.
Arguments Worhp {Opaque} _.
Arguments StatusMsg {Opaque} _.
Arguments WorhpFree {Opaque} _.
Arguments WorhpFidif {Opaque} _.

Definition load_failed_head : string := "
An error occurred while loading the worhp library at run-time. This is typically caused by one of the following
reasons:

- The file declared to be the worhp library, i.e. ".

Definition load_failed_tail : string := ", is not found or is found but it is not a shared library containing the necessary symbols 
(is the file path really pointing to a valid shared library?)
 - The library is found and it does contain the symbols, but it needs linking to some additional libraries that are not found
at run-time.

We report the exact text of the original exception thrown:

 ".

Section Driver.

Context {Opaque : Type}.
Variable hdr : WorhpHeader.
Variable fs : FileSystem Opaque.
Variable H : Host.

Local Abbreviation St := (Records Opaque).

(** *** Preamble: the problem must suit the algorithm *)

Definition check_problem (pop : population H) : M St unit :=
  let prob := get_problem H pop in
  (if negb (get_nobj prob =? 1) then
     pagmo_throw H at_multiobjective invalid_argument
       ("Multiple objectives detected in " ++ problem_name prob
        ++ " instance. " ++ get_name ++ " cannot deal with them")
   else ret tt) ;;
  (if is_stochastic prob then
     pagmo_throw H at_stochastic invalid_argument
       ("The problem appears to be stochastic " ++ get_name
        ++ " cannot deal with it")
   else ret tt) ;;
  (if size H pop =? 0 then
     pagmo_throw H at_empty_population invalid_argument
       (get_name ++ " does not work on an empty population")
   else ret tt).

(** *** Loading the library and binding its symbols *)

Definition import {T : Type} (find : string -> Exn + T) (symbol : string)
  : M St T :=
  emit (EvImport symbol) ;; host (find symbol).

(** The body of the [try] block. *)
Definition load_symbols (w : worhp H) : M St (Capability Opaque) :=
  lock_guard (
    let path_to_lib := m_worhp_library w in
    emit (EvIsRegularFile path_to_lib) ;;
    (if negb (is_regular_file fs path_to_lib) then
       pagmo_throw H at_not_a_file invalid_argument
         ("The worhp library path was constructed to be: " ++ path_to_lib
          ++ " and it does not appear to be a file")
     else ret tt) ;;
    emit (EvSharedLibrary path_to_lib) ;;
    libworhp <- host (shared_library fs path_to_lib) ;;
    f_WorhpPreInit <- import (import_routine libworhp) "WorhpPreInit" ;;
    f_WorhpInit <- import (import_routine libworhp) "WorhpInit" ;;
    f_ReadParams <- import (import_ReadParams libworhp) "ReadParams" ;;
    f_GetUserAction <- import (import_GetUserAction libworhp) "GetUserAction" ;;
    f_DoneUserAction <- import (import_DoneUserAction libworhp) "DoneUserAction" ;;
    f_IterationOutput <- import (import_routine libworhp) "IterationOutput" ;;
    f_Worhp <- import (import_routine libworhp) "Worhp" ;;
    f_StatusMsg <- import (import_routine libworhp) "StatusMsg" ;;
    f_WorhpFree <- import (import_routine libworhp) "WorhpFree" ;;
    f_WorhpFidif <- import (import_routine libworhp) "WorhpFidif" ;;
    ret {| ReadParams := f_ReadParams;
           WorhpPreInit := f_WorhpPreInit;
           WorhpInit := f_WorhpInit;
           GetUserAction := f_GetUserAction;
           DoneUserAction := f_DoneUserAction;
           IterationOutput := f_IterationOutput;
           Worhp := f_Worhp;
           StatusMsg := f_StatusMsg;
           WorhpFree := f_WorhpFree;
           WorhpFidif := f_WorhpFidif |}).

(** The description of the exception the [catch] clause raises. *)
Definition load_failed_message (w : worhp H) (e : Exn) : string :=
  load_failed_head ++ m_worhp_library w ++ load_failed_tail ++ what e.

Definition load_library (w : worhp H) : M St (Capability Opaque) :=
  try_catch (load_symbols w)
    (fun e => pagmo_throw H at_load_failed invalid_argument
                (load_failed_message w e)).

(** *** The calls into the solver *)

(** A routine that receives the four record pointers. *)
Definition call (ev : Event) (f : solver_routine Opaque) : M St unit :=
  emit ev ;; s <- get ;; put (f s).

(** [ReadParams(&n_xml_param, "param.xml", &par)]: the count it stores is
    the value of the call. *)
Definition call_ReadParams (cap : Capability Opaque) (file : string) : M St Z :=
  emit (EvReadParams file) ;;
  s <- get ;;
  let r := ReadParams cap file (par s) in
  put (set_par s (snd r)) ;;
  ret (fst r).

Definition call_GetUserAction (cap : Capability Opaque) (a : UserAction)
  : M St bool :=
  s <- get ;;
  let b := GetUserAction cap (cnt s) a in
  emit (EvGetUserAction a b) ;;
  ret b.

(** [DoneUserAction(&cnt, a)]; the driver drops the flag it returns. *)
Definition call_DoneUserAction (cap : Capability Opaque) (a : UserAction)
  : M St unit :=
  emit (EvDoneUserAction a) ;;
  s <- get ;;
  put (set_cnt s (snd (DoneUserAction cap (cnt s) a))).

(** *** The evaluation routines *)

Definition UserF (pop : population H) : M St unit :=
  emit EvUserF ;;
  s <- get ;;
  let prob := get_problem H pop in
  let dim := get_nx prob in
  x <- defined (read_array (X (opt s)) dim) ;;
  emit (EvFitness x) ;;
  f <- host (fitness prob x) ;;
  f_0 <- defined (at_index f 0) ;;
  s <- get ;;
  assign_opt (fun o => set_F o (PrimFloat.mul (ScaleObj (wsp s)) f_0)).

Definition UserG (pop : population H) : M St unit :=
  emit EvUserG ;;
  s <- get ;;
  let prob := get_problem H pop in
  let dim := get_nx prob in
  x <- defined (read_array (X (opt s)) dim) ;;
  emit (EvFitness x) ;;
  f <- host (fitness prob x) ;;
  for_range 0 (get_nc prob) (fun i =>
    f_i <- defined (at_index f (i + 1)) ;;
    store_opt G set_G i f_i).

(** *** Set-up of the records (USI-0 to USI-6) *)

(** USI-0 to USI-5, up to the choice of the derivative-free mode. *)
Definition init_records (cap : Capability Opaque) (prob : problem) : M St unit :=
  let dim := get_nx prob in
  call EvWorhpPreInit (WorhpPreInit cap) ;;
  n_xml_param <- call_ReadParams cap "param.xml" ;;
  assign_opt (fun o => set_n o (to_int dim)) ;;
  assign_opt (fun o => set_m o (to_int (get_nc prob))) ;;
  assign_wsp (fun w => set_nnz w (WorhpMatrix_Init_Dense hdr)) ;;
  call EvWorhpInit (WorhpInit cap) ;;
  assign_par set_derivative_free.

(** USI-5: the starting point is the selected individual. *)
Definition set_initial_values (x0 f0 : vector_double) : M St unit :=
  s <- get ;;
  for_range 0 (n (opt s)) (fun i =>
    x0_i <- defined (at_index x0 i) ;;
    store_opt X set_X i x0_i) ;;
  f0_0 <- defined (at_index f0 0) ;;
  s <- get ;;
  assign_opt (fun o => set_F o (PrimFloat.mul (ScaleObj (wsp s)) f0_0)) ;;
  for_range 0 (m (opt s)) (fun i =>
    f0_i <- defined (at_index f0 (i + 1)) ;;
    store_opt G set_G i f0_i).

(** USI-6: box bounds, then the bounds of the equality constraints, then
    those of the inequality constraints.  The index of the third loop is an
    [int] initialised with the [size_type] value [n_eq]. *)
Definition set_bounds (lb ub : vector_double) (n_eq : Z) : M St unit :=
  s <- get ;;
  for_range 0 (n (opt s)) (fun i =>
    lb_i <- defined (at_index lb i) ;;
    store_opt XL set_XL i lb_i ;;
    ub_i <- defined (at_index ub i) ;;
    store_opt XU set_XU i ub_i) ;;
  for_range 0 n_eq (fun i =>
    store_opt GL set_GL i 0%float ;;
    store_opt GU set_GU i 0%float) ;;
  for_range (to_int n_eq) (m (opt s)) (fun i =>
    s <- get ;;
    store_opt GL set_GL i (PrimFloat.opp (Infty (par s))) ;;
    store_opt GU set_GU i 0%float).

(** *** USI-7: the reverse-communication loop *)

(** The loop condition [cnt.status < TerminateSuccess && cnt.status > TerminateError]. *)
Definition in_progress (st : Z) : bool :=
  (st <? TerminateSuccess hdr) && (st >? TerminateError hdr).

(** The body of the [while] loop. *)
Definition rc_turn (cap : Capability Opaque) (pop : population H) : M St unit :=
  b <- call_GetUserAction cap callWorhp ;;
  (if b then call EvWorhp (Worhp cap) else ret tt) ;;
  b <- call_GetUserAction cap iterOutput ;;
  (if b then
     call EvIterationOutput (IterationOutput cap) ;;
     call_DoneUserAction cap iterOutput
   else ret tt) ;;
  b <- call_GetUserAction cap evalF ;;
  (if b then UserF pop ;; call_DoneUserAction cap evalF else ret tt) ;;
  b <- call_GetUserAction cap evalG ;;
  (if b then UserG pop ;; call_DoneUserAction cap evalG else ret tt) ;;
  b <- call_GetUserAction cap fidif ;;
  (if b then call EvWorhpFidif (WorhpFidif cap) else ret tt).

(** The [while] loop; [fuel] bounds the number of turns. *)
Fixpoint rc_loop (cap : Capability Opaque) (pop : population H) (fuel : nat)
  : M St unit :=
  s <- get ;;
  emit (EvStatus (status (cnt s))) ;;
  if in_progress (status (cnt s)) then
    match fuel with
    | O => out_of_fuel
    | S fuel' => rc_turn cap pop ;; rc_loop cap pop fuel'
    end
  else ret tt.

(** *** Reinsertion of the solution, and the end of [evolve] *)

(** [x_final] is built with [dim] zeros and filled from [opt.X] over
    [0 <= i < opt.n]; the fitness of the problem is computed at [x_final];
    the individual is replaced when [compare_fc] says so. *)
Definition reinsert (w : worhp H) (pop : population H) (f0 : vector_double)
  : M St (population H) :=
  let prob := get_problem H pop in
  let dim := get_nx prob in
  s <- get ;;
  x_final <- for_fold_range 0 (n (opt s)) (fun i x_final =>
               X_i <- defined (at_index (X (opt s)) i) ;;
               defined (store x_final i X_i))
             (repeat 0%float (Z.to_nat dim)) ;;
  emit (EvFitness x_final) ;;
  f_final <- host (fitness prob x_final) ;;
  emit (EvCompare f_final f0) ;;
  better <- host (compare_fc H f_final f0 (get_nec prob) (get_c_tol prob)) ;;
  if better then
    emit (EvReplace x_final f_final) ;;
    host (replace_individual H (base w) pop x_final f_final)
  else ret pop.

Definition teardown (cap : Capability Opaque) : M St unit :=
  call EvStatusMsg (StatusMsg cap) ;;
  call EvWorhpFree (WorhpFree cap).

(** USI-0 to USI-6: the records are initialised, the selected individual
    [(x0, f0)] is the starting point, the bounds are set; [f0] is kept for the
    comparison at the end. *)
Definition setup (w : worhp H) (cap : Capability Opaque) (pop : population H)
  : M St vector_double :=
  let prob := get_problem H pop in
  let bounds := get_bounds prob in
  let lb := fst bounds in
  let ub := snd bounds in
  init_records cap prob ;;
  emit EvSelect ;;
  sel_xf <- host (select_individual H (base w) pop) ;;
  let x0 := fst sel_xf in
  let f0 := snd sel_xf in
  set_initial_values x0 f0 ;;
  set_bounds lb ub (get_nec prob) ;;
  ret f0.

(** Everything [evolve] does once the library is loaded. *)
Definition run_solver (w : worhp H) (cap : Capability Opaque)
    (pop : population H) (fuel : nat) : M St (population H) :=
  f0 <- setup w cap pop ;;
  rc_loop cap pop fuel ;;
  pop' <- reinsert w pop f0 ;;
  teardown cap ;;
  ret pop'.

(** [worhp::evolve].  The state it starts from is the storage of the locals
    [opt], [wsp], [par] and [cnt], which nothing has initialised yet. *)
Definition evolve (w : worhp H) (pop : population H) (fuel : nat)
  : M St (population H) :=
  check_problem pop ;;
  cap <- load_library w ;;
  run_solver w cap pop fuel.

End Driver.


(** ** The description of the object *)

(** [std::to_string] of an unsigned value: its decimal digits. *)
Definition to_string (v : N) : string :=
  DecimalString.NilZero.string_of_uint (N.to_uint v).

(** A [boost::any], as far as [get_extra_info] tells its contents apart: a
    [population::size_type], a [std::string], or a value of another type (or
    none). *)
Inductive any : Set :=
| any_size_type (i : N)
| any_string (s : string)
| any_other.

(** The exception of a failed [boost::any_cast] to a value. *)
Definition bad_any_cast : Exn :=
  {| kind := other_exception;
     what := "boost::bad_any_cast: failed conversion using boost::any_cast" |}.

Definition tab : string := String (Ascii.ascii_of_nat 9) EmptyString.
Definition newline : string := String (Ascii.ascii_of_nat 10) EmptyString.

Section Description.

Variable H : Host.

(** The two members of [not_population_based] that hold the selection and the
    replacement policy. *)
Variable m_select : not_population_based H -> any.
Variable m_replace : not_population_based H -> any.

(** [stream(ss, ...)] appends its arguments to what [ss] holds. *)
Definition stream (ss : string) (args : list string) : string :=
  (ss ++ String.concat EmptyString args)%string.

(** The branch on what the policy holds: the index, or the name of the
    policy; the cast to [std::string] throws on anything else. *)
Definition stream_policy (ss : string) (policy : any) : Exn + string :=
  match policy with
  | any_size_type i => inr (stream ss ["idx: "; to_string i]%string)
  | any_string name => inr (stream ss ["policy: "; name]%string)
  | any_other => inl bad_any_cast
  end.

Definition get_extra_info (w : worhp H) : Exn + string :=
  let ss := EmptyString in
  let ss := stream ss [(tab ++ "Worhp library filename: ")%string; m_worhp_library w] in
  let ss :=
    if negb (m_screen_output w) then
      stream ss [(newline ++ tab ++ "Screen output: (pagmo/pygmo) - verbosity ")%string;
                 to_string (m_verbosity w)]
    else
      stream ss [(newline ++ tab ++ "Screen output: (worhp)")%string] in
  let ss := stream ss [(newline ++ tab ++ "Individual selection ")%string] in
  match stream_policy ss (m_select (base w)) with
  | inl e => inl e
  | inr ss =>
      let ss := stream ss [(newline ++ tab ++ "Individual replacement ")%string] in
      match stream_policy ss (m_replace (base w)) with
      | inl e => inl e
      | inr ss => inr (stream ss [newline])
      end
  end.

End Description.

(** ** Serialization *)

(** The values [serialize] hands to a cereal archive: the base-class
    subobject and a string. *)
Inductive Item (H : Host) : Type :=
| item_base (b : not_population_based H)
| item_string (s : string).

Arguments item_base {H} b.
Arguments item_string {H} s.

(** A cereal archive, as [serialize] uses it: [ar(x)] processes the value
    [x] in place and may throw.  An output archive records [x] and leaves it
    as it is; an input archive puts the next value it holds in its place. *)
Record Archive (H : Host) : Type := {
  archive_state : Type;
  process_base :
    archive_state -> not_population_based H ->
    Exn + (archive_state * not_population_based H);
  process_string :
    archive_state -> string -> Exn + (archive_state * string)
}.

Arguments archive_state {H} _.
Arguments process_base {H} _ _ _.
Arguments process_string {H} _ _ _.

(** [ar(cereal::base_class<not_population_based>(this), m_worhp_library)] *)
Definition serialize {H : Host} (Ar : Archive H) (ar : archive_state Ar)
    (w : worhp H) : Exn + (archive_state Ar * worhp H) :=
  match process_base Ar ar (base w) with
  | inl e => inl e
  | inr (ar1, b) =>
      match process_string Ar ar1 (m_worhp_library w) with
      | inl e => inl e
      | inr (ar2, l) =>
          inr (ar2, {| base := b;
                       m_worhp_library := l;
                       m_screen_output := m_screen_output w;
                       m_verbosity := m_verbosity w |})
      end
  end.

Definition end_of_archive : Exn :=
  {| kind := other_exception; what := "cereal: failed to read from the archive" |}.

(** An output archive that keeps the values in the order it received them. *)
Definition output_archive (H : Host) : Archive H :=
  {| archive_state := list (Item H);
     process_base := fun ar b => inr (ar ++ [item_base b], b);
     process_string := fun ar s => inr (ar ++ [item_string s], s) |}.

(** An input archive over the same values: it yields them from the front. *)
Definition input_archive (H : Host) : Archive H :=
  {| archive_state := list (Item H);
     process_base := fun ar _ =>
       match ar with
       | item_base b :: rest => inr (rest, b)
       | _ => inl end_of_archive
       end;
     process_string := fun ar _ =>
       match ar with
       | item_string s :: rest => inr (rest, s)
       | _ => inl end_of_archive
       end |}.

(** ** Predicates on traces *)

(** Every event of a computation satisfies [P], whatever its outcome. *)
Definition emits_only {St A : Type} (P : Event -> Prop) (c : M St A) : Prop :=
  forall s o s' t, c s = (o, s', t) -> Forall P t.

(** No event at all: the assignments and the copy loops are silent. *)
Definition silent : Event -> Prop := fun _ => False.

(** The calls of the library-loading step. *)
Definition is_loader_event (e : Event) : bool :=
  match e with
  | EvLock | EvUnlock | EvIsRegularFile _ | EvSharedLibrary _ | EvImport _ => true
  | _ => false
  end.

(** The calls into the solver library. *)
Definition is_solver_call (e : Event) : bool :=
  match e with
  | EvWorhpPreInit | EvReadParams _ | EvWorhpInit | EvGetUserAction _ _
  | EvDoneUserAction _ | EvWorhp | EvIterationOutput | EvWorhpFidif
  | EvStatusMsg | EvWorhpFree => true
  | _ => false
  end.

Definition is_StatusMsg (e : Event) : bool :=
  match e with EvStatusMsg => true | _ => false end.

Definition is_WorhpFree (e : Event) : bool :=
  match e with EvWorhpFree => true | _ => false end.

(** [DoneUserAction(&cnt, a)] *)
Definition acknowledges (a : UserAction) (e : Event) : bool :=
  match e with EvDoneUserAction b => UserAction_eqb a b | _ => false end.

(** The number of events of a trace that satisfy [p]. *)
Definition count (p : Event -> bool) (t : Trace) : nat :=
  List.length (filter p t).

(** The three requests the driver acknowledges. *)
Definition acknowledged (a : UserAction) : bool :=
  match a with
  | iterOutput | evalF | evalG => true
  | _ => false
  end.

(** The exception of a failed import. *)
Definition failure {T : Type} (r : Exn + T) : option Exn :=
  match r with inl e => Some e | inr _ => None end.

Fixpoint first_some {A : Type} (l : list (option A)) : option A :=
  match l with
  | [] => None
  | Some a :: _ => Some a
  | None :: rest => first_some rest
  end.

(** The exception of the first of the ten imports that fails, in the order
    in which [evolve] binds the symbols; [None] when the library exports all
    of them. *)
Definition first_missing {Opaque : Type} (l : Library Opaque) : option Exn :=
  first_some
    [failure (import_routine l "WorhpPreInit");
     failure (import_routine l "WorhpInit");
     failure (import_ReadParams l "ReadParams");
     failure (import_GetUserAction l "GetUserAction");
     failure (import_DoneUserAction l "DoneUserAction");
     failure (import_routine l "IterationOutput");
     failure (import_routine l "Worhp");
     failure (import_routine l "StatusMsg");
     failure (import_routine l "WorhpFree");
     failure (import_routine l "WorhpFidif")].

(** The three ways in which the solver library cannot be obtained, each with
    the low-level exception it raises inside the [try] block: the path is not
    a regular file, the file is not a loadable library, a symbol is missing. *)
Inductive load_failure {Opaque : Type} (fs : FileSystem Opaque) (H : Host)
    (path : string) : Exn -> Prop :=
| not_a_file :
    is_regular_file fs path = false ->
    load_failure fs H path
      {| kind := invalid_argument;
         what := pagmo_throw_what H at_not_a_file
                   ("The worhp library path was constructed to be: " ++ path
                    ++ " and it does not appear to be a file") |}
| not_loadable (e : Exn) :
    is_regular_file fs path = true ->
    shared_library fs path = inl e ->
    load_failure fs H path e
| missing_symbol (l : Library Opaque) (e : Exn) :
    is_regular_file fs path = true ->
    shared_library fs path = inr l ->
    first_missing l = Some e ->
    load_failure fs H path e.

(** The problem and the population pass the three checks of the preamble. *)
Definition suitable (H : Host) (pop : population H) : Prop :=
  get_nobj (get_problem H pop) = 1
  /\ is_stochastic (get_problem H pop) = false
  /\ size H pop <> 0.

(** The records [s'] are the records [s] but for the objective [opt.F]. *)
Definition same_but_F {Opaque : Type} (s s' : Records Opaque) : Prop :=
  wsp s' = wsp s /\ par s' = par s /\ cnt s' = cnt s
  /\ n (opt s') = n (opt s) /\ m (opt s') = m (opt s)
  /\ X (opt s') = X (opt s) /\ G (opt s') = G (opt s)
  /\ XL (opt s') = XL (opt s) /\ XU (opt s') = XU (opt s)
  /\ GL (opt s') = GL (opt s) /\ GU (opt s') = GU (opt s)
  /\ opt_rest (opt s') = opt_rest (opt s).

(** The records [s'] are the records [s] but for the four arrays of bounds. *)
Definition same_but_bounds {Opaque : Type} (s s' : Records Opaque) : Prop :=
  wsp s' = wsp s /\ par s' = par s /\ cnt s' = cnt s
  /\ n (opt s') = n (opt s) /\ m (opt s') = m (opt s)
  /\ X (opt s') = X (opt s) /\ F (opt s') = F (opt s)
  /\ G (opt s') = G (opt s)
  /\ opt_rest (opt s') = opt_rest (opt s).

(** *** The protocol of the loop, as the specification words it *)

(** What a turn of the loop adds to the trace for a request it found set;
    [x] is the point at which the fitness is computed. *)
Definition served (a : UserAction) (x : vector_double) : Trace :=
  match a with
  | callWorhp => [EvWorhp]
  | iterOutput => [EvIterationOutput; EvDoneUserAction iterOutput]
  | evalF => [EvUserF; EvFitness x; EvDoneUserAction evalF]
  | evalG => [EvUserG; EvFitness x; EvDoneUserAction evalG]
  | fidif => [EvWorhpFidif]
  | _ => []
  end.

(** The check of one flag, and what follows it. *)
Definition polled (a : UserAction) (requested : bool) (x : vector_double) : Trace :=
  EvGetUserAction a requested :: (if requested then served a x else []).

(** The trace of a whole turn: the five checks in their order. *)
Definition turn_trace (b1 b2 b3 b4 b5 : bool) (xF xG : vector_double) : Trace :=
  polled callWorhp b1 [] ++ polled iterOutput b2 [] ++ polled evalF b3 xF
  ++ polled evalG b4 xG ++ polled fidif b5 [].

(** The traces of a loop that has ended: every turn comes after a reading
    of a status inside the open interval, and the last event is the reading of
    a status outside of it. *)
Inductive loop_trace (hdr : WorhpHeader) : Trace -> Prop :=
| loop_exit (st : Z) :
    in_progress hdr st = false -> loop_trace hdr [EvStatus st]
| loop_turn (st : Z) (b1 b2 b3 b4 b5 : bool) (xF xG : vector_double) (t : Trace) :
    in_progress hdr st = true ->
    loop_trace hdr t ->
    loop_trace hdr (EvStatus st :: turn_trace b1 b2 b3 b4 b5 xF xG ++ t).

(** A check that found the flag of [a] set. *)
Definition requests (a : UserAction) (e : Event) : bool :=
  match e with
  | EvGetUserAction b true => UserAction_eqb a b
  | _ => false
  end.

(** The events the loop can add to a trace. *)
Definition is_loop_event (e : Event) : bool :=
  match e with
  | EvStatus _ | EvGetUserAction _ _ | EvWorhp | EvIterationOutput | EvUserF
  | EvUserG | EvWorhpFidif | EvFitness _ => true
  | EvDoneUserAction a => acknowledged a
  | _ => false
  end.

Section Protocol.

Context {Opaque : Type}.
Variable H : Host.
Variable cap : Capability Opaque.
Variable pop : population H.

(** The action paired with a request. *)
Definition action (a : UserAction) : M (Records Opaque) unit :=
  match a with
  | callWorhp => call EvWorhp (Worhp cap)
  | iterOutput => call EvIterationOutput (IterationOutput cap)
  | evalF => UserF H pop
  | evalG => UserG H pop
  | fidif => call EvWorhpFidif (WorhpFidif cap)
  | _ => ret tt
  end.

(** One check: when the flag is set, the action, then the acknowledgement
    if the request is one of the three that are acknowledged. *)
Definition dispatch (a : UserAction) : M (Records Opaque) unit :=
  b <- call_GetUserAction cap a ;;
  if b then
    action a ;;
    if acknowledged a then call_DoneUserAction cap a else ret tt
  else ret tt.

(** The fixed order of the checks. *)
Definition priority_order : list UserAction :=
  [callWorhp; iterOutput; evalF; evalG; fidif].

(** A turn as the specification describes it: every flag of
    [priority_order] is checked, in that order. *)
Definition spec_turn : M (Records Opaque) unit :=
  fold_right (fun a rest => dispatch a ;; rest) (ret tt) priority_order.

End Protocol.

(** *** The phases of [evolve] *)

(** The events of the set-up of the records. *)
Definition is_setup_event (e : Event) : bool :=
  match e with
  | EvWorhpPreInit | EvReadParams _ | EvWorhpInit | EvSelect => true
  | _ => false
  end.

(** The events of the reinsertion. *)
Definition is_reinsert_event (e : Event) : bool :=
  match e with
  | EvFitness _ | EvCompare _ _ | EvReplace _ _ => true
  | _ => false
  end.

(** The two calls of the tear-down. *)
Definition is_teardown_event (e : Event) : bool :=
  is_StatusMsg e || is_WorhpFree e.

(** The records as [WorhpInit] receives them: [WorhpPreInit] and
    [ReadParams] have run, and the driver has stored the two dimensions and
    the three dense-matrix declarations. *)
Definition before_WorhpInit {Opaque : Type} (hdr : WorhpHeader)
    (cap : Capability Opaque) (prob : problem) (s : Records Opaque)
  : Records Opaque :=
  let s1 := WorhpPreInit cap s in
  let s2 := set_par s1 (snd (ReadParams cap "param.xml"%string (par s1))) in
  let s3 := set_opt s2 (set_n (opt s2) (to_int (get_nx prob))) in
  let s4 := set_opt s3 (set_m (opt s3) (to_int (get_nc prob))) in
  set_wsp s4 (set_nnz (wsp s4) (WorhpMatrix_Init_Dense hdr)).

(** A computation leaves a part [proj] of the state as it was, whatever its
    outcome. *)
Definition keeps {St A B : Type} (proj : St -> A) (c : M St B) : Prop :=
  forall s o s' t, c s = (o, s', t) -> proj s' = proj s.

(** A call of [replace_individual]. *)
Definition is_Replace (e : Event) : bool :=
  match e with EvReplace _ _ => true | _ => false end.

(** The effect of one iteration of the second and of the third loop of
    [set_bounds]: [v] goes to [GL[i]] and zero to [GU[i]]. *)
Definition bound_step {Opaque : Type} (v : double) (i : Z) (s : Records Opaque)
  : Records Opaque :=
  set_opt s (set_GU (set_GL (opt s) (set_nth (GL (opt s)) (Z.to_nat i) v))
               (set_nth (GU (opt s)) (Z.to_nat i) 0%float)).

(** ** Concurrent calls of [evolve] and the mutex

    Each thread runs one call of [evolve]; what it does is the trace of that
    call.  The threads take their steps in any order, but for
    [library_load_mutex], the one mutex of the process: [EvLock] is a step
    only while no thread holds the mutex, and [EvUnlock] is a step of the
    thread that holds it. *)

(** The steps of the load-and-bind: the check of the path, the loading of
    the library, the binding of a symbol. *)
Definition is_load_step (e : Event) : bool :=
  match e with
  | EvIsRegularFile _ | EvSharedLibrary _ | EvImport _ => true
  | _ => false
  end.

Definition is_mutex_event (e : Event) : bool :=
  match e with EvLock | EvUnlock => true | _ => false end.

(** A trace that goes through the loader does so in one region that starts
    with the lock and ends with the unlock. *)
Inductive guarded : Trace -> Prop :=
| guarded_none (rest : Trace) :
    Forall (fun e => is_loader_event e = false) rest -> guarded rest
| guarded_region (body rest : Trace) :
    Forall (fun e => is_load_step e = true) body ->
    Forall (fun e => is_loader_event e = false) rest ->
    guarded (EvLock :: body ++ EvUnlock :: rest).

(** What is left of a trace whose next mutex event is the unlock: the
    thread is inside its locked region. *)
Fixpoint in_locked_region (script : Trace) : bool :=
  match script with
  | [] => false
  | EvUnlock :: _ => true
  | EvLock :: _ => false
  | _ :: rest => in_locked_region rest
  end.

(** The threads of the process: who holds the mutex, and what each thread
    has left to do. *)
Record Pool : Type := {
  holder : option nat;
  scripts : nat -> Trace
}.

(** Thread [i] has taken a step; [rest] is what it has left to do. *)
Definition take_step (p : Pool) (i : nat) (rest : Trace) (h : option nat)
  : Pool :=
  {| holder := h;
     scripts := fun j => if Nat.eqb j i then rest else scripts p j |}.

Inductive sched_step (p : Pool) : Pool -> Prop :=
| step_lock (i : nat) (rest : Trace) :
    scripts p i = EvLock :: rest ->
    holder p = None ->
    sched_step p (take_step p i rest (Some i))
| step_unlock (i : nat) (rest : Trace) :
    scripts p i = EvUnlock :: rest ->
    holder p = Some i ->
    sched_step p (take_step p i rest None)
| step_other (i : nat) (e : Event) (rest : Trace) :
    scripts p i = e :: rest ->
    is_mutex_event e = false ->
    sched_step p (take_step p i rest (holder p)).

Inductive reachable (p0 : Pool) : Pool -> Prop :=
| reachable_start : reachable p0 p0
| reachable_step (p p' : Pool) :
    reachable p0 p -> sched_step p p' -> reachable p0 p'.

(** The pool before any thread has taken a step. *)
Definition start (threads : nat -> Trace) : Pool :=
  {| holder := None; scripts := threads |}.

(** What a thread can have left to do: a whole guarded trace, or the rest
    of a locked region and what follows it. *)
Inductive remaining : Trace -> Prop :=
| remaining_guarded (script : Trace) : guarded script -> remaining script
| remaining_region (body rest : Trace) :
    Forall (fun e => is_load_step e = true) body ->
    Forall (fun e => is_loader_event e = false) rest ->
    remaining (body ++ EvUnlock :: rest).

(** The invariant of the pool: every thread has a well-formed rest to run,
    and the one inside its region is the holder of the mutex. *)
Definition pool_invariant (p : Pool) : Prop :=
  (forall i, remaining (scripts p i))
  /\ (forall i, in_locked_region (scripts p i) = true -> holder p = Some i).

(** One call of [evolve]: its arguments, the storage of its locals and the
    file system as the call finds it.  What a call does is taken not to depend
    on the steps of the other threads: each has records of its own, and the
    mutex is the only thing the calls share in this model. *)
Record Call (Opaque : Type) (H : Host) : Type := {
  call_fs : FileSystem Opaque;
  call_this : worhp H;
  call_pop : population H;
  call_fuel : nat;
  call_locals : Records Opaque
}.

Arguments call_fs {Opaque H} _.
Arguments call_this {Opaque H} _.
Arguments call_pop {Opaque H} _.
Arguments call_fuel {Opaque H} _.
Arguments call_locals {Opaque H} _.

Definition trace_of {Opaque : Type} (hdr : WorhpHeader) (H : Host)
    (c : Call Opaque H) : Trace :=
  snd (evolve hdr (call_fs c) H (call_this c) (call_pop c) (call_fuel c)
         (call_locals c)).

(** The records [s'] are the records [s] but for the constraint values
    [opt.G]. *)
Definition same_but_G {Opaque : Type} (s s' : Records Opaque) : Prop :=
  wsp s' = wsp s /\ par s' = par s /\ cnt s' = cnt s
  /\ n (opt s') = n (opt s) /\ m (opt s') = m (opt s)
  /\ X (opt s') = X (opt s) /\ F (opt s') = F (opt s)
  /\ XL (opt s') = XL (opt s) /\ XU (opt s') = XU (opt s)
  /\ GL (opt s') = GL (opt s) /\ GU (opt s') = GU (opt s)
  /\ opt_rest (opt s') = opt_rest (opt s).

(** The records [s'] are the records [s] but for the starting point: the
    variables [opt.X], the objective [opt.F] and the constraint values
    [opt.G]. *)
Definition same_but_point {Opaque : Type} (s s' : Records Opaque) : Prop :=
  wsp s' = wsp s /\ par s' = par s /\ cnt s' = cnt s
  /\ n (opt s') = n (opt s) /\ m (opt s') = m (opt s)
  /\ XL (opt s') = XL (opt s) /\ XU (opt s') = XU (opt s)
  /\ GL (opt s') = GL (opt s) /\ GU (opt s') = GU (opt s)
  /\ opt_rest (opt s') = opt_rest (opt s).


(** ** Exceptions and where they come from *)

(** Every exception a computation throws satisfies [P]. *)
Definition throws_only {St A : Type} (P : Exn -> Prop) (c : M St A) : Prop :=
  forall s e s' t, c s = (Throw e, s', t) -> P e.

(** The exception [e] was thrown by one of the calls [evolve] makes to the
    host, with the arguments [evolve] gives it: the selection of the
    individual; a fitness evaluation, at a vector that has the dimension of
    the problem; the comparison of a fitness vector the problem has returned
    with the fitness of the selected individual; the replacement by a point of
    that dimension and its fitness. *)
Inductive raised_by_host (H : Host) (w : worhp H) (pop : population H)
    (e : Exn) : Prop :=
| raised_by_select :
    select_individual H (base w) pop = inl e -> raised_by_host H w pop e
| raised_by_fitness (x : vector_double) :
    List.length x = Z.to_nat (get_nx (get_problem H pop)) ->
    fitness (get_problem H pop) x = inl e -> raised_by_host H w pop e
| raised_by_compare (x f x0 f0 : vector_double) :
    fitness (get_problem H pop) x = inr f ->
    select_individual H (base w) pop = inr (x0, f0) ->
    compare_fc H f f0 (get_nec (get_problem H pop)) (get_c_tol (get_problem H pop))
    = inl e ->
    raised_by_host H w pop e
| raised_by_replace (x f : vector_double) :
    List.length x = Z.to_nat (get_nx (get_problem H pop)) ->
    fitness (get_problem H pop) x = inr f ->
    replace_individual H (base w) pop x f = inl e -> raised_by_host H w pop e.

Definition is_WorhpInit (e : Event) : bool :=
  match e with EvWorhpInit => true | _ => false end.

Definition is_Fitness (e : Event) : bool :=
  match e with EvFitness _ => true | _ => false end.

(** A turn in which no flag is set: the five checks and nothing else. *)
Definition idle_turn : Trace := turn_trace false false false false false [] [].

(** ** Requests and the calls that serve them *)

(** The call with which the driver serves a request. *)
Definition performs (a : UserAction) (e : Event) : bool :=
  match a, e with
  | callWorhp, EvWorhp
  | iterOutput, EvIterationOutput
  | evalF, EvUserF
  | evalG, EvUserG
  | fidif, EvWorhpFidif => true
  | _, _ => false
  end.

(** The trace of a computation holds as many events of the kind [p] as of
    the kind [q], whatever its outcome. *)
Definition balanced {St A : Type} (p q : Event -> bool) (c : M St A) : Prop :=
  forall s o s' t, c s = (o, s', t) -> count p t = count q t.

(** ** The steps of the loader *)

(** The ten symbols, in the order in which [evolve] binds them. *)
Definition worhp_symbols : list string :=
  ["WorhpPreInit"; "WorhpInit"; "ReadParams"; "GetUserAction"; "DoneUserAction";
   "IterationOutput"; "Worhp"; "StatusMsg"; "WorhpFree"; "WorhpFidif"]%string.

(** The steps of a load that finds everything: the check of the path, the
    loading of the library, the binding of the ten symbols. *)
Definition loader_script (path : string) : Trace :=
  EvIsRegularFile path :: EvSharedLibrary path :: map EvImport worhp_symbols.

(** ** Accesses to arrays and vectors *)

(** From a state that satisfies [P], the computation [c] has no undefined
    behaviour, and when it returns [a] the state satisfies [Q a]. *)
Definition safe {St A : Type} (P : St -> Prop) (c : M St A)
    (Q : A -> St -> Prop) : Prop :=
  forall s o s' t,
    P s -> c s = (o, s', t) ->
    match o with
    | Ret a => Q a s'
    | Undefined => False
    | _ => True
    end.

(** The records are allocated for the problem: [opt.n] and [opt.m] are its
    dimensions, and each array of [opt] has at least as many cells as the
    driver indexes. *)
Definition allocated_for {Opaque : Type} (prob : problem) (s : Records Opaque)
  : Prop :=
  n (opt s) = get_nx prob /\ m (opt s) = get_nc prob
  /\ get_nx prob <= Z.of_nat (List.length (X (opt s)))
  /\ get_nx prob <= Z.of_nat (List.length (XL (opt s)))
  /\ get_nx prob <= Z.of_nat (List.length (XU (opt s)))
  /\ get_nc prob <= Z.of_nat (List.length (G (opt s)))
  /\ get_nc prob <= Z.of_nat (List.length (GL (opt s)))
  /\ get_nc prob <= Z.of_nat (List.length (GU (opt s))).

(** What the driver relies on from the solver: [WorhpInit] allocates the
    arrays for the dimensions it finds in [opt], and the three routines that
    run inside the loop leave the dimensions and the allocation alone. *)
Record solver_contract {Opaque : Type} (cap : Capability Opaque)
    (prob : problem) : Prop := {
  WorhpInit_allocates :
    forall s, n (opt s) = get_nx prob -> m (opt s) = get_nc prob ->
              allocated_for prob (WorhpInit cap s);
  Worhp_keeps_arrays :
    forall s, allocated_for prob s -> allocated_for prob (Worhp cap s);
  IterationOutput_keeps_arrays :
    forall s, allocated_for prob s -> allocated_for prob (IterationOutput cap s);
  WorhpFidif_keeps_arrays :
    forall s, allocated_for prob s -> allocated_for prob (WorhpFidif cap s)
}.

(** What the driver relies on from the host: dimensions that fit an [int],
    bounds, a selected individual and fitness vectors of the sizes the problem
    declares. *)
Definition well_sized (H : Host) (w : worhp H) (pop : population H) : Prop :=
  let prob := get_problem H pop in
  0 <= get_nx prob <= INT_MAX
  /\ 0 <= get_nec prob <= get_nc prob
  /\ get_nc prob <= INT_MAX
  /\ get_nx prob <= Z.of_nat (List.length (fst (get_bounds prob)))
  /\ get_nx prob <= Z.of_nat (List.length (snd (get_bounds prob)))
  /\ (forall x0 f0,
         select_individual H (base w) pop = inr (x0, f0) ->
         get_nx prob <= Z.of_nat (List.length x0)
         /\ get_nc prob + 1 <= Z.of_nat (List.length f0))
  /\ (forall x f,
         fitness prob x = inr f -> get_nc prob + 1 <= Z.of_nat (List.length f)).

(** ** The object with another verbosity *)

Definition with_verbosity {H : Host} (w : worhp H) (v : N) : worhp H :=
  {| base := base w; m_worhp_library := m_worhp_library w;
     m_screen_output := m_screen_output w; m_verbosity := v |}.
(** ** Test doubles

    A scripted stand-in for the solver library, a file system that holds it at
    the default path, and a small host.  They are the concrete inputs at
    which the theorems below are instantiated. *)

Module Mock.

(** What the solver keeps in the part of each record the driver cannot see:
    the pending requests in [cnt], the stage of the script in [wsp], the
    feasibility tolerance in [par]. *)
Inductive Blob : Set :=
| NoData
| Stage (k : nat)
| TolFeas (t : double)
| Pending (l : list UserAction).

Definition header : WorhpHeader :=
  {| TerminateSuccess := 1000; TerminateError := -1000;
     WorhpMatrix_Init_Dense := -1 |}.

Definition pending (c : Control Blob) : list UserAction :=
  match cnt_rest c with Pending l => l | _ => [] end.

Definition stage (w : Workspace Blob) : nat :=
  match wsp_rest w with Stage k => k | _ => O end.

Definition with_pending (c : Control Blob) (l : list UserAction) : Control Blob :=
  {| status := status c; cnt_rest := Pending l |}.

Definition with_stage (w : Workspace Blob) (k : nat) : Workspace Blob :=
  {| DF_nnz := DF_nnz w; DG_nnz := DG_nnz w; HM_nnz := HM_nnz w;
     ScaleObj := ScaleObj w; wsp_rest := Stage k |}.

Definition pre_init : solver_routine Blob := fun _ =>
  {| opt := {| n := 0; m := 0; X := []; F := 0%float; G := [];
               XL := []; XU := []; GL := []; GU := []; opt_rest := NoData |};
     wsp := {| DF_nnz := 0; DG_nnz := 0; HM_nnz := 0; ScaleObj := 2%float;
               wsp_rest := Stage 0 |};
     par := {| UserDF := true; UserDG := true; UserHM := true;
               UserHMstructure := true; InitialLMest := false;
               Infty := 1e20%float; par_rest := TolFeas 0.0009765625%float |};
     cnt := {| status := 0; cnt_rest := Pending [] |} |}.

Definition read_params : ReadParams_t Blob := fun _ p => (0, p).

Definition zeros (k : Z) : list double := repeat 0%float (Z.to_nat k).

(** Allocation of the arrays; the first request is a step of the solver. *)
Definition init : solver_routine Blob := fun s =>
  let o := opt s in
  {| opt := {| n := n o; m := m o; X := zeros (n o); F := 0%float;
               G := zeros (m o); XL := zeros (n o); XU := zeros (n o);
               GL := zeros (m o); GU := zeros (m o); opt_rest := NoData |};
     wsp := wsp s;
     par := par s;
     cnt := {| status := 1; cnt_rest := Pending [callWorhp] |} |}.

Definition get_user_action : GetUserAction_t Blob := fun c a =>
  existsb (UserAction_eqb a) (pending c).

(** An acknowledged request is dropped; when none is left the solver asks
    for its next step. *)
Definition done_user_action : DoneUserAction_t Blob := fun c a =>
  let l := filter (fun b => negb (UserAction_eqb a b)) (pending c) in
  (true, with_pending c (match l with [] => [callWorhp] | _ => l end)).

(** The script: first both evaluations; then an iteration output, an
    objective evaluation and a finite-difference step; then the move to the
    point (1, ..., 1) together with the terminal status [final]. *)
Definition step (final : Z) : solver_routine Blob := fun s =>
  match stage (wsp s) with
  | O =>
      {| opt := opt s; wsp := with_stage (wsp s) 1; par := par s;
         cnt := with_pending (cnt s) [evalF; evalG] |}
  | S O =>
      {| opt := opt s; wsp := with_stage (wsp s) 2; par := par s;
         cnt := with_pending (cnt s) [iterOutput; evalF; fidif] |}
  | _ =>
      {| opt := set_X (opt s) (map (fun _ => 1%float) (X (opt s)));
         wsp := wsp s; par := par s;
         cnt := {| status := final; cnt_rest := Pending [] |} |}
  end.

(** The finite-difference routine resets its own flag. *)
Definition fidif_step : solver_routine Blob := fun s =>
  set_cnt s (snd (done_user_action (cnt s) fidif)).

Definition free : solver_routine Blob := fun s =>
  set_opt s {| n := n (opt s); m := m (opt s); X := []; F := F (opt s);
               G := []; XL := []; XU := []; GL := []; GU := [];
               opt_rest := NoData |}.

Definition symbol_not_found (symbol : string) : Exn :=
  {| kind := other_exception;
     what := "boost::dll::shared_library::get() failed: " ++ symbol |}.

(** A library that exports the ten symbols, but for [missing]. *)
Definition library (final : Z) (missing : string) : Library Blob :=
  let find {T : Type} (table : list (string * T)) (symbol : string) : Exn + T :=
    if String.eqb symbol missing then inl (symbol_not_found symbol)
    else match find (fun p => String.eqb (fst p) symbol) table with
         | Some p => inr (snd p)
         | None => inl (symbol_not_found symbol)
         end in
  {| import_routine :=
       find [("WorhpPreInit"%string, pre_init); ("WorhpInit"%string, init);
             ("IterationOutput"%string, fun s => s); ("Worhp"%string, step final);
             ("StatusMsg"%string, fun s => s); ("WorhpFree"%string, free);
             ("WorhpFidif"%string, fidif_step)];
     import_ReadParams := find [("ReadParams"%string, read_params)];
     import_GetUserAction := find [("GetUserAction"%string, get_user_action)];
     import_DoneUserAction := find [("DoneUserAction"%string, done_user_action)] |}.

Definition not_a_library : Exn :=
  {| kind := other_exception;
     what := "boost::dll::shared_library::load() failed: invalid ELF header" |}.

(** Three files: the solver library at the default path, a copy of it that
    lacks [WorhpFidif], and a text file. *)
Definition file_system (final : Z) : FileSystem Blob :=
  {| is_regular_file := fun p =>
       String.eqb p default_worhp_library
       || String.eqb p "/opt/worhp/libworhp_old.so"
       || String.eqb p "/etc/hostname";
     shared_library := fun p =>
       if String.eqb p default_worhp_library then inr (library final "")
       else if String.eqb p "/opt/worhp/libworhp_old.so"
            then inr (library final "WorhpFidif")
            else inl not_a_library |}.

Definition host_failure : Exn :=
  {| kind := other_exception; what := "fitness evaluation failed" |}.

(** Objective x0 + x1, one equality x0 - x1 = 0, one inequality x1 <= 0. *)
Definition fitness_2d (x : vector_double) : Exn + vector_double :=
  match x with
  | [a; b] => inr [PrimFloat.add a b; PrimFloat.sub a b; b]
  | _ => inl host_failure
  end.

Definition prob_2d : problem :=
  {| get_nx := 2; get_nobj := 1; get_nc := 2; get_nec := 1; get_nf := 3;
     is_stochastic := false;
     get_bounds := ([(-5)%float; (-5)%float], [5%float; 5%float]);
     get_c_tol := [0.5%float; 0.5%float];
     problem_name := "two-dimensional test problem";
     fitness := fitness_2d |}.

Definition with_fitness (p : problem) (f : vector_double -> Exn + vector_double)
  : problem :=
  {| get_nx := get_nx p; get_nobj := get_nobj p; get_nc := get_nc p;
     get_nec := get_nec p; get_nf := get_nf p;
     is_stochastic := is_stochastic p; get_bounds := get_bounds p;
     get_c_tol := get_c_tol p; problem_name := problem_name p;
     fitness := f |}.

(** A problem whose fitness fails at every point. *)
Definition prob_failing : problem := with_fitness prob_2d (fun _ => inl host_failure).

(** A problem whose fitness fails at the point (1, 1) only. *)
Definition prob_failing_at_end : problem :=
  with_fitness prob_2d (fun x =>
    match x with
    | [a; b] => if PrimFloat.eqb a 1%float && PrimFloat.eqb b 1%float
                then inl host_failure else fitness_2d x
    | _ => inl host_failure
    end).

Definition prob_two_objectives : problem :=
  {| get_nx := 2; get_nobj := 2; get_nc := 0; get_nec := 0; get_nf := 2;
     is_stochastic := false;
     get_bounds := ([0%float; 0%float], [1%float; 1%float]);
     get_c_tol := [];
     problem_name := "two objectives";
     fitness := fun x => inr x |}.

(** A population is the list of its individuals; selection takes the first
    one and replacement overwrites it; of two fitness vectors the better
    one has the smaller objective. *)
Definition host_of (prob : problem) : Host :=
  {| population := list (vector_double * vector_double);
     not_population_based := unit;
     get_problem := fun _ => prob;
     size := fun pop => Z.of_nat (List.length pop);
     select_individual := fun _ pop =>
       match pop with
       | ind :: _ => inr ind
       | [] => inl {| kind := invalid_argument; what := "empty population" |}
       end;
     replace_individual := fun _ pop x f => inr ((x, f) :: tl pop);
     compare_fc := fun f1 f2 _ _ =>
       match f1, f2 with
       | a :: _, b :: _ => inr (PrimFloat.ltb a b)
       | _, _ => inl {| kind := invalid_argument; what := "empty fitness" |}
       end;
     pagmo_throw_what := fun _ descr => ("what: " ++ descr)%string |}.

Definition algorithm (prob : problem) (screen_output : bool) (lib : string)
  : worhp (host_of prob) :=
  worhp_ctor (H := host_of prob) tt 7%N screen_output lib.

(** The storage of the four locals before anything initialised it. *)
Definition garbage : Records Blob :=
  {| opt := {| n := 17; m := -3; X := []; F := 0%float; G := [];
               XL := []; XU := []; GL := []; GU := []; opt_rest := NoData |};
     wsp := {| DF_nnz := 5; DG_nnz := 6; HM_nnz := 7; ScaleObj := 0%float;
               wsp_rest := NoData |};
     par := {| UserDF := true; UserDG := false; UserHM := true;
               UserHMstructure := false; InitialLMest := false;
               Infty := 0%float; par_rest := NoData |};
     cnt := {| status := 42; cnt_rest := NoData |} |}.

Definition pop_2d : list (vector_double * vector_double) :=
  [([3%float; 4%float], [7%float; (-1)%float; 4%float]);
   ([0%float; 0%float], [0%float; 0%float; 0%float])].

(** One run of [evolve] on [pop_2d] with the library at the default path. *)
Definition run (prob : problem) (final : Z) (lib : string)
    (pop : list (vector_double * vector_double)) (fuel : nat) :=
  evolve header (file_system final) (host_of prob)
    (algorithm prob false lib) pop fuel garbage.

(** The records as the solver holds them when the loop starts on [pop_2d]. *)
Definition started : Records Blob :=
  {| opt := {| n := 2; m := 2; X := [3%float; 4%float]; F := 14%float;
               G := [(-1)%float; 4%float];
               XL := [(-5)%float; (-5)%float]; XU := [5%float; 5%float];
               GL := [0%float; (-1e20)%float]; GU := [0%float; 0%float];
               opt_rest := NoData |};
     wsp := {| DF_nnz := -1; DG_nnz := -1; HM_nnz := -1; ScaleObj := 2%float;
               wsp_rest := Stage 0 |};
     par := {| UserDF := false; UserDG := false; UserHM := false;
               UserHMstructure := false; InitialLMest := true;
               Infty := 1e20%float; par_rest := TolFeas 0.0009765625%float |};
     cnt := {| status := 1; cnt_rest := Pending [callWorhp] |} |}.

(** The records right after [WorhpInit], for two variables and two
    constraints: the arrays are allocated and hold zeros. *)
Definition allocated : Records Blob :=
  init (set_opt (pre_init garbage) (set_m (set_n (opt (pre_init garbage)) 2) 2)).

(** The ten functions [evolve] binds when it loads [library final ""]. *)
Definition capability (final : Z) : Capability Blob :=
  {| ReadParams := read_params;
     WorhpPreInit := pre_init;
     WorhpInit := init;
     GetUserAction := get_user_action;
     DoneUserAction := done_user_action;
     IterationOutput := fun s => s;
     Worhp := step final;
     StatusMsg := fun s => s;
     WorhpFree := free;
     WorhpFidif := fidif_step |}.

(** A population whose first individual is better than the point the
    scripted solver ends at. *)
Definition pop_optimal : list (vector_double * vector_double) :=
  [([0%float; 0%float], [0%float; 0%float; 0%float])].

(** The calls of the threads of a process: thread 0 loads the library at
    the default path, every other thread the copy that lacks a symbol. *)
Definition calls (i : nat) : Call Blob (host_of prob_2d) :=
  {| call_fs := file_system 1000;
     call_this := algorithm prob_2d false
                    (match i with
                     | O => default_worhp_library
                     | S _ => "/opt/worhp/libworhp_old.so"%string
                     end);
     call_pop := pop_2d;
     call_fuel := 10;
     call_locals := garbage |}.

End Mock.

(** ** A solver that does not start

    The scripted solver of [Mock], but for [WorhpInit]: it allocates the
    arrays and reports the error terminal. *)

Module Stalled.

Definition init : solver_routine Mock.Blob := fun s =>
  set_cnt (Mock.init s) {| status := -1000; cnt_rest := Mock.Pending [] |}.

Definition capability : Capability Mock.Blob :=
  {| ReadParams := Mock.read_params;
     WorhpPreInit := Mock.pre_init;
     WorhpInit := init;
     GetUserAction := Mock.get_user_action;
     DoneUserAction := Mock.done_user_action;
     IterationOutput := fun s => s;
     Worhp := Mock.step 1000;
     StatusMsg := fun s => s;
     WorhpFree := Mock.free;
     WorhpFidif := Mock.fidif_step |}.

Definition library : Library Mock.Blob :=
  let l := Mock.library 1000 EmptyString in
  {| import_routine := fun symbol =>
       if String.eqb symbol "WorhpInit" then inr init
       else import_routine l symbol;
     import_ReadParams := import_ReadParams l;
     import_GetUserAction := import_GetUserAction l;
     import_DoneUserAction := import_DoneUserAction l |}.

(** The library is the one file of this file system. *)
Definition file_system : FileSystem Mock.Blob :=
  {| is_regular_file := fun p => String.eqb p default_worhp_library;
     shared_library := fun _ => inr library |}.

End Stalled.
(** * Properties *)

(** ** Verbosity *)

(** C10: [set_verbosity 0] returns on every object, also when the screen
    output of the solver was chosen at construction, and stores zero;
    [set_verbosity v] raises exactly when the screen output is active and
    [v] is not zero, and the object, so what [get_verbosity] returns, is then
    what it was before the call. *)
Theorem set_verbosity_zero_and_failure (H : Host) :
  (forall w : worhp H,
      exists w',
        set_verbosity 0 w = (Ret tt, w', [])
        /\ get_verbosity w' = 0%N
        /\ m_screen_output w' = m_screen_output w
        /\ m_worhp_library w' = m_worhp_library w)
  /\ (forall (w w' : worhp H) (v : N) (e : Exn) (t : Trace),
         set_verbosity v w = (Throw e, w', t) ->
         w' = w /\ get_verbosity w' = get_verbosity w
         /\ m_screen_output w = true /\ v <> 0%N
         /\ kind e = invalid_argument)
  /\ (forall (w : worhp H) (v : N),
         m_screen_output w = true -> v <> 0%N ->
         exists e, set_verbosity v w = (Throw e, w, [])).
Proof.
  split; [| split].
  - intros w. eexists. unfold set_verbosity, bind, get, put. cbn.
    rewrite andb_false_r. cbn. repeat split.
  - intros w w' v e t. unfold set_verbosity, bind, get, put, pagmo_throw, throw.
    cbn. destruct (m_screen_output w) eqn:Hs; cbn.
    + destruct (N.eqb_spec v 0) as [-> | Hv]; cbn; intros Heq.
      * discriminate.
      * inversion Heq; subst. repeat split; assumption.
    + discriminate.
  - intros w v Hs Hv. unfold set_verbosity, bind, get, pagmo_throw, throw. cbn.
    rewrite Hs. destruct (N.eqb_spec v 0) as [-> | _]; [congruence |].
    cbn. eexists. reflexivity.
Qed.

(** The instance of C10 at an object built with the screen output on: the
    call with 3 raises and [get_verbosity] still answers 7; the call with 0
    stores 0. *)
Lemma set_verbosity_zero_and_failure_witness :
  (let w := Mock.algorithm Mock.prob_2d true default_worhp_library in
   forall w' e t, set_verbosity 3 w = (Throw e, w', t) ->
                  w' = w /\ get_verbosity w' = get_verbosity w
                  /\ m_screen_output w = true /\ 3%N <> 0%N
                  /\ kind e = invalid_argument)
  /\ (exists e, set_verbosity 3 (Mock.algorithm Mock.prob_2d true default_worhp_library)
                = (Throw e, Mock.algorithm Mock.prob_2d true default_worhp_library, []))
  /\ get_verbosity (Mock.algorithm Mock.prob_2d true default_worhp_library) = 7%N.
Proof.
  split; [| split].
  - intros w w' e t.
    apply (proj1 (proj2 (set_verbosity_zero_and_failure (Mock.host_of Mock.prob_2d)))).
  - apply (proj2 (proj2 (set_verbosity_zero_and_failure (Mock.host_of Mock.prob_2d)))).
    + reflexivity.
    + discriminate.
  - reflexivity.
Defined.

(** ** Reasoning about the monad *)

Lemma bind_Ret_inv {St A B : Type} (c : M St A) (k : A -> M St B)
    (s s' : St) (b : B) (t : Trace) :
  bind c k s = (Ret b, s', t) ->
  exists a s1 t1 t2,
    c s = (Ret a, s1, t1) /\ k a s1 = (Ret b, s', t2) /\ t = t1 ++ t2.
Proof.
  unfold bind. destruct (c s) as [[[a | e | |] s1] t1]; try discriminate.
  destruct (k a s1) as [[o s2] t2] eqn:Hk. intros Heq.
  inversion Heq; subst. exists a, s1, t1, t2. auto.
Qed.

Lemma bind_Ret {St A B : Type} (c : M St A) (k : A -> M St B)
    (s s1 : St) (a : A) (t1 : Trace) :
  c s = (Ret a, s1, t1) ->
  bind c k s = (let '(o, s2, t2) := k a s1 in (o, s2, t1 ++ t2)).
Proof. intros Hc. unfold bind. rewrite Hc. reflexivity. Qed.

Lemma bind_Throw {St A B : Type} (c : M St A) (k : A -> M St B)
    (s s1 : St) (e : Exn) (t1 : Trace) :
  c s = (Throw e, s1, t1) -> bind c k s = (Throw e, s1, t1).
Proof. intros Hc. unfold bind. rewrite Hc. reflexivity. Qed.

Section EmitsOnly.

Context {St : Type} (P : Event -> Prop).

Lemma emits_only_ret {A : Type} (a : A) : emits_only P (ret (St := St) a).
Proof. intros s o s' t Heq. inversion Heq. constructor. Qed.

Lemma emits_only_throw {A : Type} (e : Exn) : emits_only P (throw (St := St) (A := A) e).
Proof. intros s o s' t Heq. inversion Heq. constructor. Qed.

Lemma emits_only_undefined {A : Type} : emits_only P (undefined (St := St) (A := A)).
Proof. intros s o s' t Heq. inversion Heq. constructor. Qed.

Lemma emits_only_out_of_fuel {A : Type} : emits_only P (out_of_fuel (St := St) (A := A)).
Proof. intros s o s' t Heq. inversion Heq. constructor. Qed.

Lemma emits_only_get : emits_only P (get (St := St)).
Proof. intros s o s' t Heq. inversion Heq. constructor. Qed.

Lemma emits_only_emit (e : Event) : P e -> emits_only P (emit (St := St) e).
Proof. intros He s o s' t Heq. inversion Heq. repeat constructor. exact He. Qed.

Lemma emits_only_defined {A : Type} (o : option A) :
  emits_only P (defined (St := St) o).
Proof. destruct o; [apply emits_only_ret | apply emits_only_undefined]. Qed.

Lemma emits_only_host {A : Type} (r : Exn + A) : emits_only P (host (St := St) r).
Proof. destruct r; [apply emits_only_throw | apply emits_only_ret]. Qed.

Lemma emits_only_bind {A B : Type} (c : M St A) (k : A -> M St B) :
  emits_only P c -> (forall a, emits_only P (k a)) -> emits_only P (bind c k).
Proof.
  intros Hc Hk s o s' t. unfold bind.
  destruct (c s) as [[[a | e | |] s1] t1] eqn:Hcs;
    try (intros Heq; inversion Heq; subst; eapply Hc; eassumption).
  destruct (k a s1) as [[o2 s2] t2] eqn:Hks. intros Heq. inversion Heq; subst.
  apply Forall_app. split; [eapply Hc | eapply Hk]; eassumption.
Qed.

Lemma emits_only_if {A : Type} (b : bool) (c1 c2 : M St A) :
  emits_only P c1 -> emits_only P c2 -> emits_only P (if b then c1 else c2).
Proof. destruct b; auto. Qed.

Lemma emits_only_for_count (body : Z -> M St unit) :
  (forall i, emits_only P (body i)) ->
  forall k i, emits_only P (for_count k i body).
Proof.
  intros Hb k. induction k as [| c IH]; intros i; cbn.
  - apply emits_only_ret.
  - apply emits_only_bind; auto.
Qed.

Lemma emits_only_for_fold {B : Type} (body : Z -> B -> M St B) :
  (forall i acc, emits_only P (body i acc)) ->
  forall k i acc, emits_only P (for_fold k i body acc).
Proof.
  intros Hb k. induction k as [| c IH]; intros i acc; cbn.
  - apply emits_only_ret.
  - apply emits_only_bind; auto.
Qed.

End EmitsOnly.

Lemma silent_nil (t : Trace) : Forall silent t -> t = [].
Proof. destruct t; [reflexivity |]. intros Hf. inversion Hf. contradiction. Qed.

Lemma emits_only_weaken {St A : Type} (P Q : Event -> Prop) (c : M St A) :
  (forall e, P e -> Q e) -> emits_only P c -> emits_only Q c.
Proof.
  intros Himp Hc s o s' t Heq. eapply Forall_impl; [exact Himp |].
  eapply Hc; eassumption.
Qed.

(** ** The preamble and the acquisition of the library *)

Section Acquisition.

Context {Opaque : Type}.
Variable hdr : WorhpHeader.
Variable fs : FileSystem Opaque.
Variable H : Host.

Local Abbreviation St := (Records Opaque).

Lemma check_problem_passes (pop : population H) (s : St) :
  suitable H pop -> check_problem H pop s = (Ret tt, s, []).
Proof.
  intros (Hobj & Hsto & Hsize). unfold check_problem, bind.
  rewrite Hobj, Hsto. cbn.
  destruct (Z.eqb_spec (size H pop) 0) as [Heq | _]; [contradiction |].
  reflexivity.
Qed.

Lemma check_problem_fails (pop : population H) (s : St) :
  get_nobj (get_problem H pop) <> 1
  \/ is_stochastic (get_problem H pop) = true
  \/ size H pop = 0 ->
  exists e, check_problem H pop s = (Throw e, s, [])
            /\ kind e = invalid_argument.
Proof.
  intros Hbad. unfold check_problem, bind, pagmo_throw, throw, ret.
  destruct (Z.eqb_spec (get_nobj (get_problem H pop)) 1) as [Hobj | Hobj]; cbn.
  - destruct (is_stochastic (get_problem H pop)) eqn:Hsto; cbn.
    + eexists. split; reflexivity.
    + destruct (Z.eqb_spec (size H pop) 0) as [Hsz | Hsz]; cbn.
      * eexists. split; reflexivity.
      * destruct Hbad as [Hb | [Hb | Hb]]; [contradiction | discriminate | contradiction].
  - eexists. split; reflexivity.
Qed.

Lemma check_problem_silent (pop : population H) (s s' : St)
    (o : Outcome unit) (t : Trace) :
  check_problem H pop s = (o, s', t) -> t = [] /\ s' = s.
Proof.
  unfold check_problem, bind, pagmo_throw, throw, ret.
  destruct (negb (get_nobj (get_problem H pop) =? 1));
    [intros Heq; inversion Heq; auto |].
  destruct (is_stochastic (get_problem H pop));
    [intros Heq; inversion Heq; auto |].
  destruct (size H pop =? 0); intros Heq; inversion Heq; auto.
Qed.

(** C5: when the problem has several objectives, or is stochastic, or the
    population is empty, [evolve] raises [invalid_argument] at once: its trace
    is empty, so no file was looked at, no library loaded and no solver
    routine called, and the storage of the records is as it was.  This holds
    for every file system, every algorithm object and every fuel. *)
Theorem evolve_precondition (w : worhp H) (pop : population H) (fuel : nat)
    (s : St) :
  get_nobj (get_problem H pop) <> 1
  \/ is_stochastic (get_problem H pop) = true
  \/ size H pop = 0 ->
  exists e, evolve hdr fs H w pop fuel s = (Throw e, s, [])
            /\ kind e = invalid_argument.
Proof.
  intros Hbad. destruct (check_problem_fails pop s Hbad) as (e & Hc & Hk).
  exists e. split; [| exact Hk].
  unfold evolve. apply bind_Throw. exact Hc.
Qed.

Lemma load_symbols_trace (w : worhp H) :
  emits_only (fun e => is_loader_event e = true) (load_symbols fs H w).
Proof.
  unfold load_symbols, lock_guard. intros s o s' t.
  match goal with |- context [?c s] => destruct (c s) as [[o1 s1] t1] eqn:Hbody end.
  intros Heq. inversion Heq; subst. constructor; [reflexivity |].
  apply Forall_app. split; [| repeat constructor].
  revert Hbody.
  match goal with |- ?c s = _ -> _ =>
    assert (Hc : emits_only (fun e => is_loader_event e = true) c) end.
  { repeat first
      [ apply emits_only_bind; [| intros ?]
      | apply emits_only_if
      | apply emits_only_emit; reflexivity
      | apply emits_only_ret
      | apply emits_only_host
      | apply emits_only_throw
      | unfold import
      | unfold pagmo_throw ]. }
  intros Hbody. eapply Hc. exact Hbody.
Qed.

Lemma load_symbols_keeps_records (w : worhp H) (s s' : St) o t :
  load_symbols fs H w s = (o, s', t) -> s' = s.
Proof.
  unfold load_symbols, lock_guard, bind, emit, pagmo_throw, throw, ret, host, import.
  cbn.
  destruct (is_regular_file fs (m_worhp_library w)); cbn;
    [| intros Heq; inversion Heq; reflexivity].
  destruct (shared_library fs (m_worhp_library w)) as [e | l]; cbn;
    [intros Heq; inversion Heq; reflexivity |].
  unfold bind, emit, host, throw, ret.
  repeat match goal with
         | |- context [import_routine l ?nm] =>
             destruct (import_routine l nm); cbn;
             [intros Heq; inversion Heq; reflexivity |]
         | |- context [import_ReadParams l ?nm] =>
             destruct (import_ReadParams l nm); cbn;
             [intros Heq; inversion Heq; reflexivity |]
         | |- context [import_GetUserAction l ?nm] =>
             destruct (import_GetUserAction l nm); cbn;
             [intros Heq; inversion Heq; reflexivity |]
         | |- context [import_DoneUserAction l ?nm] =>
             destruct (import_DoneUserAction l nm); cbn;
             [intros Heq; inversion Heq; reflexivity |]
         end.
  intros Heq; inversion Heq; reflexivity.
Qed.

(** Each of the three failures makes the [try] block throw its exception. *)
Lemma load_symbols_fails (w : worhp H) (e : Exn) (s : St) :
  load_failure fs H (m_worhp_library w) e ->
  exists t, load_symbols fs H w s = (Throw e, s, t).
Proof.
  intros Hfail.
  unfold load_symbols, lock_guard, bind, emit, pagmo_throw, throw, ret, host, import.
  cbn.
  destruct Hfail as [Hfile | e Hfile Hlib | l e Hfile Hlib Hmiss]; rewrite Hfile; cbn.
  - eexists. reflexivity.
  - rewrite Hlib. cbn. eexists. reflexivity.
  - rewrite Hlib. cbn. unfold bind, emit, host, throw, ret.
    revert Hmiss. unfold first_missing.
    repeat match goal with
           | |- context [failure ?r] =>
               destruct r as [? | ?]; cbn [failure first_some];
               [ intros Hm; inversion Hm; subst; cbn; eexists; reflexivity | ]
           end.
    cbn. discriminate.
Qed.

(** X5: when the path names a regular file that loads as a library which
    exports the ten symbols, the [try] block returns after the twelve steps of
    the loader, made inside the lock, and leaves the records alone; each of
    the ten functions it returns is what the library exports under the name
    of that function: [StatusMsg] is bound to the symbol StatusMsg,
    [WorhpFree] to the symbol WorhpFree, and so on. *)
Theorem load_symbols_succeeds (w : worhp H) (l : Library Opaque) (s : St) :
  is_regular_file fs (m_worhp_library w) = true ->
  shared_library fs (m_worhp_library w) = inr l ->
  first_missing l = None ->
  exists cap,
    load_symbols fs H w s
    = (Ret cap, s,
       EvLock :: loader_script (m_worhp_library w) ++ [EvUnlock])
    /\ import_routine l "WorhpPreInit" = inr (WorhpPreInit cap)
    /\ import_routine l "WorhpInit" = inr (WorhpInit cap)
    /\ import_ReadParams l "ReadParams" = inr (ReadParams cap)
    /\ import_GetUserAction l "GetUserAction" = inr (GetUserAction cap)
    /\ import_DoneUserAction l "DoneUserAction" = inr (DoneUserAction cap)
    /\ import_routine l "IterationOutput" = inr (IterationOutput cap)
    /\ import_routine l "Worhp" = inr (Worhp cap)
    /\ import_routine l "StatusMsg" = inr (StatusMsg cap)
    /\ import_routine l "WorhpFree" = inr (WorhpFree cap)
    /\ import_routine l "WorhpFidif" = inr (WorhpFidif cap).
Proof.
  intros Hfile Hlib.
  unfold load_symbols, lock_guard, bind, emit, pagmo_throw, throw, ret, host, import.
  cbn. rewrite Hfile, Hlib. cbn. unfold bind, emit, host, throw, ret.
  unfold first_missing.
  repeat match goal with
         | |- context [failure ?r] =>
             destruct r as [? | ?]; cbn [failure first_some];
             [ discriminate | ]
         end.
  intros _. cbn. eexists. split; [reflexivity |]. cbn. repeat split.
Qed.

(** C6: when the problem is suitable and the library cannot be obtained
    (not a regular file, not loadable, or a missing symbol, with [e] the
    exception raised at that point), [evolve] raises one [invalid_argument]
    whose description is the explanation of the likely causes, with the path
    of the library in it, followed by the text of [e] as it is; the trace
    holds calls of the loader only, so no solver routine was called, and the
    storage of the four records is as it was. *)
Theorem evolve_load_failure (w : worhp H) (pop : population H) (fuel : nat)
    (s : St) (e : Exn) :
  suitable H pop ->
  load_failure fs H (m_worhp_library w) e ->
  exists t,
    evolve hdr fs H w pop fuel s
    = (Throw {| kind := invalid_argument;
                what := pagmo_throw_what H at_load_failed
                          (load_failed_head ++ m_worhp_library w
                           ++ load_failed_tail ++ what e) |},
       s, t)
    /\ Forall (fun ev => is_loader_event ev = true) t
    /\ count is_solver_call t = O.
Proof.
  intros Hok Hfail.
  destruct (load_symbols_fails w e s Hfail) as (t & Hload).
  exists t.
  assert (Hloader : Forall (fun ev => is_loader_event ev = true) t)
    by (eapply load_symbols_trace; exact Hload).
  split; [| split].
  - unfold evolve. erewrite bind_Ret by (apply check_problem_passes; exact Hok).
    cbn. erewrite bind_Throw; [reflexivity |].
    unfold load_library, try_catch. rewrite Hload.
    unfold pagmo_throw, throw, load_failed_message. rewrite app_nil_r. reflexivity.
  - exact Hloader.
  - unfold count. clear Hload. induction Hloader as [| ev t' Hev _ IH]; [reflexivity |].
    cbn. destruct ev; cbn in *; try discriminate; exact IH.
Qed.

End Acquisition.

(** C5 at a problem with two objectives, and at an empty population. *)
Lemma evolve_precondition_witness :
  (get_nobj Mock.prob_two_objectives <> 1
   /\ exists e,
       Mock.run Mock.prob_two_objectives 1000 default_worhp_library Mock.pop_2d 10
       = (Throw e, Mock.garbage, [])
       /\ kind e = invalid_argument)
  /\ (Z.of_nat (List.length (@nil (vector_double * vector_double))) = 0
      /\ exists e,
          Mock.run Mock.prob_2d 1000 default_worhp_library [] 10
          = (Throw e, Mock.garbage, [])
          /\ kind e = invalid_argument).
Proof.
  split; split.
  - discriminate.
  - apply (evolve_precondition Mock.header (Mock.file_system 1000)
             (Mock.host_of Mock.prob_two_objectives)).
    left. discriminate.
  - reflexivity.
  - apply (evolve_precondition Mock.header (Mock.file_system 1000)
             (Mock.host_of Mock.prob_2d)).
    right. right. reflexivity.
Defined.

(** C6 at a path that names no file, at a file that is not a library, and at
    a library without [WorhpFidif]. *)
Lemma evolve_load_failure_witness :
  let H := Mock.host_of Mock.prob_2d in
  let fs := Mock.file_system 1000 in
  let failing (path : string) (e : Exn) :=
    let w := Mock.algorithm Mock.prob_2d false path in
    suitable H Mock.pop_2d
    /\ load_failure fs H (m_worhp_library w) e
    /\ exists t,
        evolve Mock.header fs H w Mock.pop_2d 10 Mock.garbage
        = (Throw {| kind := invalid_argument;
                    what := pagmo_throw_what H at_load_failed
                              (load_failed_head ++ m_worhp_library w
                               ++ load_failed_tail ++ what e) |},
           Mock.garbage, t)
        /\ Forall (fun ev => is_loader_event ev = true) t
        /\ count is_solver_call t = O in
  failing "/nonexistent/libworhp.so"%string
    {| kind := invalid_argument;
       what := pagmo_throw_what H at_not_a_file
                 ("The worhp library path was constructed to be: "
                  ++ "/nonexistent/libworhp.so"
                  ++ " and it does not appear to be a file")%string |}
  /\ failing "/etc/hostname"%string Mock.not_a_library
  /\ failing "/opt/worhp/libworhp_old.so"%string (Mock.symbol_not_found "WorhpFidif").
Proof.
  assert (Hok : suitable (Mock.host_of Mock.prob_2d) Mock.pop_2d)
    by (repeat split; discriminate).
  assert (H1 : load_failure (Mock.file_system 1000) (Mock.host_of Mock.prob_2d)
                 "/nonexistent/libworhp.so"%string
                 {| kind := invalid_argument;
                    what := pagmo_throw_what (Mock.host_of Mock.prob_2d) at_not_a_file
                              ("The worhp library path was constructed to be: "
                               ++ "/nonexistent/libworhp.so"
                               ++ " and it does not appear to be a file")%string |}).
  { apply (not_a_file (Mock.file_system 1000) (Mock.host_of Mock.prob_2d)).
    reflexivity. }
  assert (H2 : load_failure (Mock.file_system 1000) (Mock.host_of Mock.prob_2d)
                 "/etc/hostname"%string Mock.not_a_library)
    by (apply not_loadable; reflexivity).
  assert (H3 : load_failure (Mock.file_system 1000) (Mock.host_of Mock.prob_2d)
                 "/opt/worhp/libworhp_old.so"%string (Mock.symbol_not_found "WorhpFidif"))
    by (apply (missing_symbol _ _ _ (Mock.library 1000 "WorhpFidif")); reflexivity).
  intros H fs failing. unfold failing.
  split; [| split]; (split; [exact Hok | split; [assumption |]]).
  - exact (evolve_load_failure Mock.header (Mock.file_system 1000)
             (Mock.host_of Mock.prob_2d)
             (Mock.algorithm Mock.prob_2d false "/nonexistent/libworhp.so")
             Mock.pop_2d 10 Mock.garbage _ Hok H1).
  - exact (evolve_load_failure Mock.header (Mock.file_system 1000)
             (Mock.host_of Mock.prob_2d)
             (Mock.algorithm Mock.prob_2d false "/etc/hostname")
             Mock.pop_2d 10 Mock.garbage _ Hok H2).
  - exact (evolve_load_failure Mock.header (Mock.file_system 1000)
             (Mock.host_of Mock.prob_2d)
             (Mock.algorithm Mock.prob_2d false "/opt/worhp/libworhp_old.so")
             Mock.pop_2d 10 Mock.garbage _ Hok H3).
Defined.

(** The three runs, evaluated: the text of the exception and the trace. *)
Example load_failure_not_a_file :
  Mock.run Mock.prob_2d 1000 "/nonexistent/libworhp.so" Mock.pop_2d 10
  = (Throw {| kind := invalid_argument;
              what := ("what: " ++ load_failed_head ++ "/nonexistent/libworhp.so"
                       ++ load_failed_tail
                       ++ "what: The worhp library path was constructed to be: /nonexistent/libworhp.so and it does not appear to be a file")%string |},
     Mock.garbage,
     [EvLock; EvIsRegularFile "/nonexistent/libworhp.so"%string; EvUnlock]).
Proof. vm_compute. reflexivity. Qed.

Example load_failure_missing_symbol :
  Mock.run Mock.prob_2d 1000 "/opt/worhp/libworhp_old.so" Mock.pop_2d 10
  = (Throw {| kind := invalid_argument;
              what := ("what: " ++ load_failed_head ++ "/opt/worhp/libworhp_old.so"
                       ++ load_failed_tail
                       ++ "boost::dll::shared_library::get() failed: WorhpFidif")%string |},
     Mock.garbage,
     [EvLock; EvIsRegularFile "/opt/worhp/libworhp_old.so";
      EvSharedLibrary "/opt/worhp/libworhp_old.so";
      EvImport "WorhpPreInit"; EvImport "WorhpInit"; EvImport "ReadParams";
      EvImport "GetUserAction"; EvImport "DoneUserAction";
      EvImport "IterationOutput"; EvImport "Worhp"; EvImport "StatusMsg";
      EvImport "WorhpFree"; EvImport "WorhpFidif"; EvUnlock]).
Proof. vm_compute. reflexivity. Qed.

(** ** Arrays and loops *)

Lemma bind_silent {St A B : Type} (c : M St A) (k : A -> M St B)
    (s s1 : St) (a : A) :
  c s = (Ret a, s1, []) -> bind c k s = k a s1.
Proof.
  intros Hc. unfold bind. rewrite Hc. destruct (k a s1) as [[o s2] t2].
  reflexivity.
Qed.

Lemma length_set_nth {A : Type} (l : list A) (i : nat) (x : A) :
  List.length (set_nth l i x) = List.length l.
Proof.
  revert i. induction l as [| h t IH]; intros [| i]; cbn; auto.
Qed.

Lemma nth_error_set_nth_same {A : Type} (l : list A) (i : nat) (x : A) :
  (i < List.length l)%nat -> nth_error (set_nth l i x) i = Some x.
Proof.
  revert i. induction l as [| h t IH]; intros [| i] Hlt; cbn in *; try lia.
  - reflexivity.
  - apply IH. lia.
Qed.

Lemma nth_error_set_nth_other {A : Type} (l : list A) (i j : nat) (x : A) :
  i <> j -> nth_error (set_nth l i x) j = nth_error l j.
Proof.
  revert i j. induction l as [| h t IH]; intros [| i] [| j] Hne; cbn;
    try reflexivity; try congruence.
  apply IH. congruence.
Qed.

Lemma at_index_set_nth_same {A : Type} (l : list A) (i : Z) (x : A) :
  0 <= i < Z.of_nat (List.length l) ->
  at_index (set_nth l (Z.to_nat i) x) i = Some x.
Proof.
  intros Hi. unfold at_index.
  destruct (Z.ltb_spec i 0); [lia |].
  apply nth_error_set_nth_same. lia.
Qed.

Lemma at_index_set_nth_other {A : Type} (l : list A) (i j : Z) (x : A) :
  0 <= i -> i <> j ->
  at_index (set_nth l (Z.to_nat i) x) j = at_index l j.
Proof.
  intros Hi Hne. unfold at_index.
  destruct (Z.ltb_spec j 0); [reflexivity |].
  apply nth_error_set_nth_other. lia.
Qed.

Lemma at_index_in_range {A : Type} (l : list A) (i : Z) :
  0 <= i < Z.of_nat (List.length l) -> exists x, at_index l i = Some x.
Proof.
  intros Hi. unfold at_index. destruct (Z.ltb_spec i 0); [lia |].
  destruct (nth_error l (Z.to_nat i)) as [x |] eqn:Hn; [eauto |].
  apply nth_error_None in Hn. lia.
Qed.

(** Two arrays of one length that agree at every index are equal. *)
Lemma at_index_ext {A : Type} (l l' : list A) :
  List.length l = List.length l' ->
  (forall i, 0 <= i < Z.of_nat (List.length l) -> at_index l i = at_index l' i) ->
  l = l'.
Proof.
  intros Hlen Hat. apply nth_error_ext. intros k.
  destruct (Nat.lt_ge_cases k (List.length l)) as [Hlt | Hge].
  - specialize (Hat (Z.of_nat k)). unfold at_index in Hat.
    destruct (Z.ltb_spec (Z.of_nat k) 0); [lia |].
    rewrite Nat2Z.id in Hat. apply Hat. lia.
  - rewrite (proj2 (nth_error_None l k)) by lia.
    rewrite (proj2 (nth_error_None l' k)) by lia. reflexivity.
Qed.

(** The rule of the counted loop: an invariant that every iteration keeps,
    silently and without failing, holds when the loop is over. *)
Lemma for_count_rule {St : Type} (Inv : Z -> St -> Prop) (body : Z -> M St unit) :
  forall (k : nat) (lo : Z) (s : St),
    (forall i s1, lo <= i < lo + Z.of_nat k -> Inv i s1 ->
                  exists s2, body i s1 = (Ret tt, s2, []) /\ Inv (i + 1) s2) ->
    Inv lo s ->
    exists s',
      for_count k lo body s = (Ret tt, s', [])
      /\ Inv (lo + Z.of_nat k) s'.
Proof.
  induction k as [| c IH]; intros lo s Hbody Hinv.
  - exists s. cbn. rewrite Z.add_0_r. split; [reflexivity | exact Hinv].
  - destruct (Hbody lo s ltac:(lia) Hinv) as (s2 & Hstep & Hinv2).
    destruct (IH (lo + 1) s2) as (s' & Hrest & Hinv').
    + intros i s1 Hi. apply Hbody. lia.
    + exact Hinv2.
    + exists s'. split.
      * cbn [for_count]. rewrite (bind_silent _ _ _ _ _ Hstep). exact Hrest.
      * replace (lo + Z.of_nat (S c)) with (lo + 1 + Z.of_nat c) by lia.
        exact Hinv'.
Qed.

Lemma for_range_rule {St : Type} (Inv : Z -> St -> Prop) (body : Z -> M St unit)
    (lo hi : Z) (s : St) :
  lo <= hi ->
  (forall i s1, lo <= i < hi -> Inv i s1 ->
                exists s2, body i s1 = (Ret tt, s2, []) /\ Inv (i + 1) s2) ->
  Inv lo s ->
  exists s', for_range lo hi body s = (Ret tt, s', []) /\ Inv hi s'.
Proof.
  intros Hle Hbody Hinv. unfold for_range.
  destruct (for_count_rule Inv body (Z.to_nat (hi - lo)) lo s) as (s' & Hrun & Hend).
  - intros i s1 Hi. apply Hbody. lia.
  - exact Hinv.
  - exists s'. split; [exact Hrun |].
    replace (lo + Z.of_nat (Z.to_nat (hi - lo))) with hi in Hend by lia.
    exact Hend.
Qed.

Section ArrayWrites.

Context {Opaque : Type}.

Local Abbreviation St := (Records Opaque).

Lemma store_opt_in_range (arr : OptVar Opaque -> list double)
    (upd : OptVar Opaque -> list double -> OptVar Opaque) (i : Z) (x : double)
    (s : St) :
  0 <= i < Z.of_nat (List.length (arr (opt s))) ->
  store_opt arr upd i x s
  = (Ret tt, set_opt s (upd (opt s) (set_nth (arr (opt s)) (Z.to_nat i) x)), []).
Proof.
  intros Hi. unfold store_opt, store, bind, get, defined, assign_opt, ret.
  destruct (Z.leb_spec 0 i); [| lia].
  destruct (Z.ltb_spec i (Z.of_nat (List.length (arr (opt s))))); [| lia].
  reflexivity.
Qed.

Lemma defined_Some {A : Type} (o : option A) (a : A) (s : St) :
  o = Some a -> defined o s = (Ret a, s, []).
Proof. intros ->. reflexivity. Qed.

End ArrayWrites.

(** ** The objective evaluation *)

Section Evaluation.

Context {Opaque : Type}.
Variable H : Host.

Local Abbreviation St := (Records Opaque).

Lemma same_but_F_refl (s : St) : same_but_F s s.
Proof. repeat split. Qed.

(** [UserF], run. *)
Lemma UserF_run (pop : population H) (s : St) :
  UserF H pop s
  = match read_array (X (opt s)) (get_nx (get_problem H pop)) with
    | None => (Undefined, s, [EvUserF])
    | Some x =>
        match fitness (get_problem H pop) x with
        | inl e => (Throw e, s, [EvUserF; EvFitness x])
        | inr f =>
            match at_index f 0 with
            | None => (Undefined, s, [EvUserF; EvFitness x])
            | Some f_0 =>
                (Ret tt,
                 set_opt s (set_F (opt s) (PrimFloat.mul (ScaleObj (wsp s)) f_0)),
                 [EvUserF; EvFitness x])
            end
        end
    end.
Proof.
  cbv [UserF bind emit get defined host assign_opt ret undefined throw].
  destruct (read_array (X (opt s)) (get_nx (get_problem H pop))) as [x |];
    [| reflexivity].
  destruct (fitness (get_problem H pop) x) as [e | f]; [reflexivity |].
  destruct (at_index f 0); reflexivity.
Qed.

(** C7: on every state of the records, [UserF] changes nothing but the
    objective [opt.F], whatever its outcome; when the array [X] holds the
    [dim] cells of the decision vector and the fitness of the problem comes
    back with a first component, it returns, it has computed the fitness of
    the problem once, at the vector read from [X], and [opt.F] is the product
    of [wsp.ScaleObj] and that component; it returns in no other case. *)
Theorem UserF_writes_scaled_objective (pop : population H) (s s' : St)
    (o : Outcome unit) (t : Trace) :
  UserF H pop s = (o, s', t) ->
  let prob := get_problem H pop in
  same_but_F s s'
  /\ (forall x f f_0,
         read_array (X (opt s)) (get_nx prob) = Some x ->
         fitness prob x = inr f ->
         at_index f 0 = Some f_0 ->
         o = Ret tt
         /\ F (opt s') = PrimFloat.mul (ScaleObj (wsp s)) f_0
         /\ t = [EvUserF; EvFitness x])
  /\ (o = Ret tt ->
      exists x f f_0,
        read_array (X (opt s)) (get_nx prob) = Some x
        /\ fitness prob x = inr f
        /\ at_index f 0 = Some f_0).
Proof.
  intros Hrun prob. revert Hrun.
  cbv [UserF bind emit get defined host assign_opt ret undefined throw].
  fold prob.
  destruct (read_array (X (opt s)) (get_nx prob)) as [x |] eqn:Hx.
  - destruct (fitness prob x) as [e | f] eqn:Hf.
    + intros Heq. inversion Heq; subst. split; [apply same_but_F_refl |].
      split; [| discriminate]. intros x' f' f_0 Hx'. inversion Hx'; subst.
      rewrite Hf. discriminate.
    + destruct (at_index f 0) as [f_0 |] eqn:H0.
      * intros Heq. inversion Heq; subst. split; [repeat split |].
        split.
        -- intros x' f' f_0' Hx' Hf' H0'. inversion Hx'; subst.
           rewrite Hf in Hf'. inversion Hf'; subst.
           rewrite H0 in H0'. inversion H0'; subst. auto.
        -- intros _. exists x, f, f_0. auto.
      * intros Heq. inversion Heq; subst. split; [apply same_but_F_refl |].
        split; [| discriminate]. intros x' f' f_0 Hx' Hf'. inversion Hx'; subst.
        rewrite Hf in Hf'. inversion Hf'; subst. rewrite H0. discriminate.
  - intros Heq. inversion Heq; subst. split; [apply same_but_F_refl |].
    split; [| discriminate]. intros x' f' f_0 Hx'. discriminate.
Qed.

End Evaluation.

(** C7 at the records of the test run: the decision vector is (3, 4), the
    fitness (7, -1, 4), the scaling factor 2, and [opt.F] becomes 14 from 0. *)
Lemma UserF_writes_scaled_objective_witness :
  let H := Mock.host_of Mock.prob_2d in
  let s := set_opt Mock.started (set_F (opt Mock.started) 0%float) in
  let s' := Mock.started in
  UserF H Mock.pop_2d s = (Ret tt, s', [EvUserF; EvFitness [3%float; 4%float]])
  /\ same_but_F s s'
  /\ F (opt s') = 14%float.
Proof.
  intros H s s'.
  assert (Hrun : UserF H Mock.pop_2d s
                 = (Ret tt, s', [EvUserF; EvFitness [3%float; 4%float]]))
    by reflexivity.
  split; [exact Hrun |].
  destruct (UserF_writes_scaled_objective H Mock.pop_2d s s' _ _ Hrun)
    as (Hframe & Heffect & _).
  split; [exact Hframe |].
  destruct (Heffect [3%float; 4%float] [7%float; (-1)%float; 4%float] 7%float
              eq_refl eq_refl eq_refl) as (_ & HF & _).
  exact HF.
Defined.

(** ** The bounds of the variables and of the constraints *)

Lemma to_int_small (z : Z) : 0 <= z <= INT_MAX -> to_int z = z.
Proof.
  unfold to_int, INT_MAX. intros Hz.
  rewrite Z.mod_small by lia. lia.
Qed.

Section Bounds.

Context {Opaque : Type}.

Local Abbreviation St := (Records Opaque).

Lemma set_opt_eta (s : St) : set_opt s (opt s) = s.
Proof. destruct s. reflexivity. Qed.

Lemma set_XL_XU_eta (o : OptVar Opaque) : set_XU (set_XL o (XL o)) (XU o) = o.
Proof. destruct o. reflexivity. Qed.

Lemma set_GL_GU_eta (o : OptVar Opaque) : set_GU (set_GL o (GL o)) (GU o) = o.
Proof. destruct o. reflexivity. Qed.

(** The first loop of [set_bounds]. *)
Lemma box_bounds_loop (lb ub : vector_double) (s : St) :
  Z.of_nat (List.length lb) = n (opt s) ->
  Z.of_nat (List.length ub) = n (opt s) ->
  Z.of_nat (List.length (XL (opt s))) = n (opt s) ->
  Z.of_nat (List.length (XU (opt s))) = n (opt s) ->
  for_range 0 (n (opt s))
    (fun i =>
       lb_i <- defined (at_index lb i) ;;
       store_opt XL set_XL i lb_i ;;
       ub_i <- defined (at_index ub i) ;;
       store_opt XU set_XU i ub_i) s
  = (Ret tt, set_opt s (set_XU (set_XL (opt s) lb) ub), []).
Proof.
  intros Hlb Hub HXL HXU.
  pose (Inv := fun (i : Z) (s1 : St) =>
    exists xl xu,
      s1 = set_opt s (set_XU (set_XL (opt s) xl) xu)
      /\ List.length xl = List.length lb
      /\ List.length xu = List.length ub
      /\ forall j, 0 <= j < i ->
                   at_index xl j = at_index lb j /\ at_index xu j = at_index ub j).
  destruct (for_range_rule Inv
              (fun i =>
                 lb_i <- defined (at_index lb i) ;;
                 store_opt XL set_XL i lb_i ;;
                 ub_i <- defined (at_index ub i) ;;
                 store_opt XU set_XU i ub_i)
              0 (n (opt s)) s) as (s' & Hrun & xl & xu & -> & Hlxl & Hlxu & Hat).
  - lia.
  - intros i s1 Hi (xl & xu & -> & Hlxl & Hlxu & Hat).
    destruct (at_index_in_range lb i ltac:(lia)) as (v & Hv).
    destruct (at_index_in_range ub i ltac:(lia)) as (u & Hu).
    eexists. split.
    + erewrite bind_silent by (apply defined_Some; exact Hv).
      erewrite bind_silent by (apply store_opt_in_range; cbn; lia).
      erewrite bind_silent by (apply defined_Some; exact Hu).
      apply store_opt_in_range. cbn. lia.
    + exists (set_nth xl (Z.to_nat i) v), (set_nth xu (Z.to_nat i) u).
      split; [reflexivity |]. rewrite !length_set_nth.
      split; [exact Hlxl |]. split; [exact Hlxu |].
      intros j Hj. destruct (Z.eq_dec i j) as [<- | Hne].
      * rewrite !at_index_set_nth_same by lia. auto.
      * rewrite !at_index_set_nth_other by lia. apply Hat. lia.
  - exists (XL (opt s)), (XU (opt s)).
    rewrite set_XL_XU_eta, set_opt_eta. split; [reflexivity |].
    split; [lia |]. split; [lia |]. intros j Hj. lia.
  - rewrite Hrun. f_equal. f_equal.
    assert (xl = lb) as ->.
    { apply at_index_ext; [exact Hlxl |]. intros i Hi. apply Hat. lia. }
    assert (xu = ub) as ->.
    { apply at_index_ext; [exact Hlxu |]. intros i Hi. apply Hat. lia. }
    reflexivity.
Qed.

(** A loop whose iterations are [bound_step]s, with a value [gl] that does
    not depend on [opt], leaves both arrays as they were outside
    [lo <= i < hi]. *)
Lemma constraint_bounds_loop (gl : St -> double) (body : Z -> M St unit)
    (lo hi : Z) (s : St) :
  (forall s1 o', gl (set_opt s1 o') = gl s1) ->
  (forall i s1,
      0 <= i < Z.of_nat (List.length (GL (opt s1))) ->
      i < Z.of_nat (List.length (GU (opt s1))) ->
      body i s1 = (Ret tt, bound_step (gl s1) i s1, [])) ->
  0 <= lo <= hi ->
  hi <= Z.of_nat (List.length (GL (opt s))) ->
  hi <= Z.of_nat (List.length (GU (opt s))) ->
  exists l u,
    for_range lo hi body s
    = (Ret tt, set_opt s (set_GU (set_GL (opt s) l) u), [])
    /\ List.length l = List.length (GL (opt s))
    /\ List.length u = List.length (GU (opt s))
    /\ (forall j, lo <= j < hi ->
                  at_index l j = Some (gl s) /\ at_index u j = Some 0%float)
    /\ (forall j, ~ lo <= j < hi ->
                  at_index l j = at_index (GL (opt s)) j
                  /\ at_index u j = at_index (GU (opt s)) j).
Proof.
  intros Hgl Hbody Hlo HGL HGU.
  pose (Inv := fun (i : Z) (s1 : St) =>
    exists l u,
      s1 = set_opt s (set_GU (set_GL (opt s) l) u)
      /\ List.length l = List.length (GL (opt s))
      /\ List.length u = List.length (GU (opt s))
      /\ (forall j, lo <= j < i ->
                    at_index l j = Some (gl s) /\ at_index u j = Some 0%float)
      /\ (forall j, ~ lo <= j < i ->
                    at_index l j = at_index (GL (opt s)) j
                    /\ at_index u j = at_index (GU (opt s)) j)).
  destruct (for_range_rule Inv body lo hi s)
    as (s' & Hrun & l & u & -> & Hll & Hlu & Hin & Hout).
  - lia.
  - intros i s1 Hi (l & u & -> & Hll & Hlu & Hin & Hout).
    eexists. split.
    + apply Hbody; cbn; lia.
    + exists (set_nth l (Z.to_nat i) (gl s)), (set_nth u (Z.to_nat i) 0%float).
      split; [rewrite Hgl; reflexivity |]. rewrite !length_set_nth.
      split; [exact Hll |]. split; [exact Hlu |]. split.
      * intros j Hj. destruct (Z.eq_dec i j) as [<- | Hne].
        -- rewrite !at_index_set_nth_same by lia. auto.
        -- rewrite !at_index_set_nth_other by lia. apply Hin. lia.
      * intros j Hj. rewrite !at_index_set_nth_other by lia. apply Hout. lia.
  - exists (GL (opt s)), (GU (opt s)).
    rewrite set_GL_GU_eta, set_opt_eta. split; [reflexivity |].
    split; [reflexivity |]. split; [reflexivity |]. split.
    + intros j Hj. lia.
    + intros j Hj. auto.
  - exists l, u. auto.
Qed.

(** C3: on records whose constraint count [opt.m] is an [int] value with
    [0 <= n_eq <= opt.m], and whose arrays of bounds have the lengths [opt.n]
    and [opt.m] (as [WorhpInit] allocates them), with bound vectors of length
    [opt.n], [set_bounds] returns without a call to anything, and afterwards
    [XL] and [XU] are the vectors [lb] and [ub], the constraint bounds are
    [0, 0] at every index below [n_eq] and [-par.Infty, 0] at every index from
    [n_eq] up to [opt.m], and nothing but the four arrays has changed. *)
Theorem set_bounds_partition (lb ub : vector_double) (n_eq : Z) (s : St) :
  0 <= n_eq <= m (opt s) ->
  m (opt s) <= INT_MAX ->
  Z.of_nat (List.length lb) = n (opt s) ->
  Z.of_nat (List.length ub) = n (opt s) ->
  Z.of_nat (List.length (XL (opt s))) = n (opt s) ->
  Z.of_nat (List.length (XU (opt s))) = n (opt s) ->
  Z.of_nat (List.length (GL (opt s))) = m (opt s) ->
  Z.of_nat (List.length (GU (opt s))) = m (opt s) ->
  exists s',
    set_bounds lb ub n_eq s = (Ret tt, s', [])
    /\ XL (opt s') = lb /\ XU (opt s') = ub
    /\ (forall i, 0 <= i < n_eq ->
                  at_index (GL (opt s')) i = Some 0%float
                  /\ at_index (GU (opt s')) i = Some 0%float)
    /\ (forall i, n_eq <= i < m (opt s) ->
                  at_index (GL (opt s')) i = Some (PrimFloat.opp (Infty (par s)))
                  /\ at_index (GU (opt s')) i = Some 0%float)
    /\ Z.of_nat (List.length (GL (opt s'))) = m (opt s)
    /\ Z.of_nat (List.length (GU (opt s'))) = m (opt s)
    /\ same_but_bounds s s'.
Proof.
  intros Hneq Hint Hlb Hub HXL HXU HGL HGU.
  unfold set_bounds.
  rewrite (bind_silent get _ s s s eq_refl).
  rewrite (bind_silent _ _ _ _ _ (box_bounds_loop lb ub s Hlb Hub HXL HXU)).
  destruct (constraint_bounds_loop (fun _ => 0%float)
              (fun i => store_opt GL set_GL i 0%float ;;
                        store_opt GU set_GU i 0%float)
              0 n_eq (set_opt s (set_XU (set_XL (opt s) lb) ub)))
    as (l2 & u2 & Hrun2 & Hll2 & Hlu2 & Hin2 & Hout2).
  { reflexivity. }
  { intros i s2 Hi1 Hi2.
    erewrite bind_silent by (apply store_opt_in_range; lia).
    rewrite store_opt_in_range by (cbn; lia). reflexivity. }
  { lia. }
  { cbn. lia. }
  { cbn. lia. }
  rewrite (bind_silent _ _ _ _ _ Hrun2). cbn in Hll2, Hlu2, Hout2.
  rewrite (to_int_small n_eq) by lia.
  match goal with |- context [for_range n_eq _ _ ?s2] =>
    destruct (constraint_bounds_loop (fun s3 => PrimFloat.opp (Infty (par s3)))
                (fun i => s3 <- get ;;
                          store_opt GL set_GL i (PrimFloat.opp (Infty (par s3))) ;;
                          store_opt GU set_GU i 0%float)
                n_eq (m (opt s)) s2)
      as (l3 & u3 & Hrun3 & Hll3 & Hlu3 & Hin3 & Hout3)
  end.
  { reflexivity. }
  { intros i s3 Hi1 Hi2.
    erewrite bind_silent by reflexivity.
    erewrite bind_silent by (apply store_opt_in_range; lia).
    rewrite store_opt_in_range by (cbn; lia). reflexivity. }
  { lia. }
  { cbn. lia. }
  { cbn. lia. }
  cbn in Hll3, Hlu3, Hin3, Hout3.
  eexists. split; [exact Hrun3 |]. cbn.
  split; [reflexivity |]. split; [reflexivity |].
  split; [| split; [| split; [| split]]].
  - intros i Hi.
    destruct (Hout3 i ltac:(lia)) as (-> & ->). apply Hin2. lia.
  - intros i Hi. apply (Hin3 i). lia.
  - lia.
  - lia.
  - repeat split.
Qed.

End Bounds.

(** C3 at the records [WorhpInit] leaves for two variables and two
    constraints, the first of which is an equality. *)
Lemma set_bounds_partition_witness :
  let s := Mock.allocated in
  let lb := [(-5)%float; (-5)%float] in
  let ub := [5%float; 5%float] in
  exists s',
    set_bounds lb ub 1 s = (Ret tt, s', [])
    /\ XL (opt s') = lb /\ XU (opt s') = ub
    /\ (forall i, 0 <= i < 1 ->
                  at_index (GL (opt s')) i = Some 0%float
                  /\ at_index (GU (opt s')) i = Some 0%float)
    /\ (forall i, 1 <= i < m (opt s) ->
                  at_index (GL (opt s')) i = Some (PrimFloat.opp (Infty (par s)))
                  /\ at_index (GU (opt s')) i = Some 0%float)
    /\ Z.of_nat (List.length (GL (opt s'))) = m (opt s)
    /\ Z.of_nat (List.length (GU (opt s'))) = m (opt s)
    /\ same_but_bounds s s'.
Proof.
  intros s lb ub.
  apply (set_bounds_partition lb ub 1 s).
  - vm_compute. split; discriminate.
  - vm_compute. discriminate.
  - reflexivity.
  - reflexivity.
  - reflexivity.
  - reflexivity.
  - reflexivity.
  - reflexivity.
Defined.

(** The same set-up, evaluated. *)
Example set_bounds_on_allocated :
  let '(o, s', t) :=
    set_bounds [(-5)%float; (-5)%float] [5%float; 5%float] 1 Mock.allocated in
  o = Ret tt /\ t = []
  /\ XL (opt s') = [(-5)%float; (-5)%float]
  /\ XU (opt s') = [5%float; 5%float]
  /\ GL (opt s') = [0%float; (-1e20)%float]
  /\ GU (opt s') = [0%float; 0%float].
Proof. vm_compute. repeat split. Qed.

(** ** The reverse-communication loop *)

(** The laws of the monad, pointwise. *)
Lemma bind_assoc {St A B C : Type} (c : M St A) (k : A -> M St B)
    (h : B -> M St C) (s : St) :
  bind (bind c k) h s = bind c (fun a => bind (k a) h) s.
Proof.
  unfold bind. destruct (c s) as [[[a | e | |] s1] t1]; try reflexivity.
  destruct (k a s1) as [[[b | e | |] s2] t2]; try reflexivity.
  destruct (h b s2) as [[o s3] t3]. rewrite app_assoc. reflexivity.
Qed.

Lemma bind_ret_tt {St : Type} (c : M St unit) (s : St) :
  bind c (fun _ => ret tt) s = c s.
Proof.
  unfold bind, ret. destruct (c s) as [[[[] | e | |] s1] t1]; try reflexivity.
  rewrite app_nil_r. reflexivity.
Qed.

Lemma bind_ext {St A B : Type} (c1 c2 : M St A) (k1 k2 : A -> M St B) :
  (forall s, c1 s = c2 s) ->
  (forall a s, k1 a s = k2 a s) ->
  forall s, bind c1 k1 s = bind c2 k2 s.
Proof.
  intros Hc Hk s. unfold bind. rewrite Hc.
  destruct (c2 s) as [[[a | e | |] s1] t1]; try reflexivity.
  rewrite Hk. reflexivity.
Qed.

Section Loop.

Context {Opaque : Type}.
Variable hdr : WorhpHeader.
Variable H : Host.
Variable cap : Capability Opaque.
Variable pop : population H.

Local Abbreviation St := (Records Opaque).

(** *** The calls, run *)

Lemma call_run (ev : Event) (f : solver_routine Opaque) (s : St) :
  call ev f s = (Ret tt, f s, [ev]).
Proof. reflexivity. Qed.

Lemma call_GetUserAction_run (a : UserAction) (s : St) :
  call_GetUserAction cap a s
  = (Ret (GetUserAction cap (cnt s) a), s,
     [EvGetUserAction a (GetUserAction cap (cnt s) a)]).
Proof. reflexivity. Qed.

Lemma call_DoneUserAction_run (a : UserAction) (s : St) :
  call_DoneUserAction cap a s
  = (Ret tt, set_cnt s (snd (DoneUserAction cap (cnt s) a)),
     [EvDoneUserAction a]).
Proof. reflexivity. Qed.

(** *** The turn of the code is the turn of the specification *)

Lemma dispatch_first (a : UserAction) (served_a : bool -> M St unit)
    (rest1 rest2 : M St unit) :
  (forall b s,
      served_a b s
      = (if b then
           action H cap pop a ;;
           if acknowledged a then call_DoneUserAction cap a else ret tt
         else ret tt) s) ->
  (forall s, rest1 s = rest2 s) ->
  forall s,
    (b <- call_GetUserAction cap a ;; served_a b ;; rest1) s
    = (dispatch H cap pop a ;; rest2) s.
Proof.
  intros Hserved Hrest s. unfold dispatch. rewrite bind_assoc.
  apply bind_ext; [reflexivity |]. intros b s1.
  apply bind_ext; [apply Hserved | intros _; apply Hrest].
Qed.

Lemma rc_turn_refines_spec_turn (s : St) :
  rc_turn H cap pop s = spec_turn H cap pop s.
Proof.
  unfold rc_turn, spec_turn, priority_order. cbn [fold_right]. revert s.
  apply dispatch_first.
  { intros [|] s; [| reflexivity]. cbn [action acknowledged].
    symmetry. apply (bind_ret_tt (call EvWorhp (Worhp cap))). }
  apply dispatch_first. { intros [|] s; reflexivity. }
  apply dispatch_first. { intros [|] s; reflexivity. }
  apply dispatch_first. { intros [|] s; reflexivity. }
  intros s. rewrite bind_ret_tt. unfold dispatch.
  apply bind_ext; [reflexivity |].
  intros [|] s1; [| reflexivity]. cbn [action acknowledged].
  symmetry. apply (bind_ret_tt (call EvWorhpFidif (WorhpFidif cap))).
Qed.

(** *** The events of the evaluations *)

Lemma store_opt_silent (arr : OptVar Opaque -> list double)
    (upd : OptVar Opaque -> list double -> OptVar Opaque) (i : Z) (x : double) :
  emits_only silent (store_opt arr upd i x).
Proof.
  unfold store_opt. apply emits_only_bind; [apply emits_only_get |]. intros s.
  apply emits_only_bind; [apply emits_only_defined |]. intros a.
  intros s0 o s' t Heq. inversion Heq. constructor.
Qed.

Lemma assign_opt_silent (f : OptVar Opaque -> OptVar Opaque) :
  emits_only silent (assign_opt f).
Proof. intros s0 o s' t Heq. inversion Heq. constructor. Qed.

Lemma copy_to_G_silent (f : vector_double) (lo hi : Z) :
  emits_only silent
    (for_range (St := St) lo hi (fun i =>
       f_i <- defined (at_index f (i + 1)) ;; store_opt G set_G i f_i)).
Proof.
  unfold for_range. apply emits_only_for_count. intros i.
  apply emits_only_bind; [apply emits_only_defined |]. intros a.
  apply store_opt_silent.
Qed.

Lemma UserF_trace (s s' : St) (t : Trace) :
  UserF H pop s = (Ret tt, s', t) ->
  exists x, t = [EvUserF; EvFitness x].
Proof.
  rewrite UserF_run.
  destruct (read_array (X (opt s)) (get_nx (get_problem H pop))) as [x |];
    [| discriminate].
  destruct (fitness (get_problem H pop) x) as [e | f]; [discriminate |].
  destruct (at_index f 0); [| discriminate].
  intros Heq. inversion Heq. eauto.
Qed.

Lemma UserG_trace (s s' : St) (t : Trace) :
  UserG H pop s = (Ret tt, s', t) ->
  exists x, t = [EvUserG; EvFitness x].
Proof.
  unfold UserG. intros Hrun.
  apply bind_Ret_inv in Hrun as ([] & s1 & t1 & t1' & H1 & Hrun & ->).
  inversion H1; subst. clear H1.
  apply bind_Ret_inv in Hrun as (s0 & s2 & t2 & t2' & H2 & Hrun & ->).
  inversion H2; subst. clear H2.
  apply bind_Ret_inv in Hrun as (x & s3 & t3 & t3' & H3 & Hrun & ->).
  assert (t3 = []) as -> by (apply silent_nil; eapply emits_only_defined; exact H3).
  apply bind_Ret_inv in Hrun as ([] & s4 & t4 & t4' & H4 & Hrun & ->).
  inversion H4; subst. clear H4.
  apply bind_Ret_inv in Hrun as (f & s5 & t5 & t5' & H5 & Hrun & ->).
  assert (t5 = []) as -> by (apply silent_nil; eapply emits_only_host; exact H5).
  assert (t5' = []) as -> by (apply silent_nil; eapply copy_to_G_silent; exact Hrun).
  exists x. reflexivity.
Qed.

(** *** The trace of a turn *)

Lemma served_callWorhp (b : bool) (s s' : St) (t : Trace) :
  (if b then call EvWorhp (Worhp cap) else ret tt) s = (Ret tt, s', t) ->
  t = if b then served callWorhp [] else [].
Proof. destruct b; intros Heq; inversion Heq; reflexivity. Qed.

Lemma served_iterOutput (b : bool) (s s' : St) (t : Trace) :
  (if b then
     call EvIterationOutput (IterationOutput cap) ;;
     call_DoneUserAction cap iterOutput
   else ret tt) s = (Ret tt, s', t) ->
  t = if b then served iterOutput [] else [].
Proof. destruct b; intros Heq; inversion Heq; reflexivity. Qed.

Lemma served_evalF (b : bool) (s s' : St) (t : Trace) :
  (if b then UserF H pop ;; call_DoneUserAction cap evalF else ret tt) s
  = (Ret tt, s', t) ->
  exists x, t = if b then served evalF x else [].
Proof.
  destruct b; intros Hrun.
  - apply bind_Ret_inv in Hrun as ([] & s1 & t1 & t2 & HF & Hdone & ->).
    apply UserF_trace in HF as (x & ->). inversion Hdone; subst.
    exists x. reflexivity.
  - inversion Hrun. exists []. reflexivity.
Qed.

Lemma served_evalG (b : bool) (s s' : St) (t : Trace) :
  (if b then UserG H pop ;; call_DoneUserAction cap evalG else ret tt) s
  = (Ret tt, s', t) ->
  exists x, t = if b then served evalG x else [].
Proof.
  destruct b; intros Hrun.
  - apply bind_Ret_inv in Hrun as ([] & s1 & t1 & t2 & HG & Hdone & ->).
    apply UserG_trace in HG as (x & ->). inversion Hdone; subst.
    exists x. reflexivity.
  - inversion Hrun. exists []. reflexivity.
Qed.

Lemma served_fidif (b : bool) (s s' : St) (t : Trace) :
  (if b then call EvWorhpFidif (WorhpFidif cap) else ret tt) s = (Ret tt, s', t) ->
  t = if b then served fidif [] else [].
Proof. destruct b; intros Heq; inversion Heq; reflexivity. Qed.

Lemma poll_inv (a : UserAction) (b : bool) (s s' : St) (t : Trace) :
  call_GetUserAction cap a s = (Ret b, s', t) ->
  t = [EvGetUserAction a b] /\ s' = s /\ b = GetUserAction cap (cnt s) a.
Proof. rewrite call_GetUserAction_run. intros Heq. inversion Heq. auto. Qed.

(** A turn that comes to its end has made the five checks in their order,
    each followed by what serves the request when the flag was set. *)
Lemma rc_turn_trace (s s' : St) (t : Trace) :
  rc_turn H cap pop s = (Ret tt, s', t) ->
  exists b1 b2 b3 b4 b5 xF xG, t = turn_trace b1 b2 b3 b4 b5 xF xG.
Proof.
  unfold rc_turn. intros Hrun.
  apply bind_Ret_inv in Hrun as (b1 & s1 & p1 & r1 & Hp & Hrun & ->).
  apply poll_inv in Hp as (-> & _ & _).
  apply bind_Ret_inv in Hrun as ([] & s1' & a1 & q1 & Ha & Hrun & ->).
  apply served_callWorhp in Ha as ->.
  apply bind_Ret_inv in Hrun as (b2 & s2 & p2 & r2 & Hp & Hrun & ->).
  apply poll_inv in Hp as (-> & _ & _).
  apply bind_Ret_inv in Hrun as ([] & s2' & a2 & q2 & Ha & Hrun & ->).
  apply served_iterOutput in Ha as ->.
  apply bind_Ret_inv in Hrun as (b3 & s3 & p3 & r3 & Hp & Hrun & ->).
  apply poll_inv in Hp as (-> & _ & _).
  apply bind_Ret_inv in Hrun as ([] & s3' & a3 & q3 & Ha & Hrun & ->).
  apply served_evalF in Ha as (xF & ->).
  apply bind_Ret_inv in Hrun as (b4 & s4 & p4 & r4 & Hp & Hrun & ->).
  apply poll_inv in Hp as (-> & _ & _).
  apply bind_Ret_inv in Hrun as ([] & s4' & a4 & q4 & Ha & Hrun & ->).
  apply served_evalG in Ha as (xG & ->).
  apply bind_Ret_inv in Hrun as (b5 & s5 & p5 & r5 & Hp & Hrun & ->).
  apply poll_inv in Hp as (-> & _ & _).
  apply served_fidif in Hrun as ->.
  exists b1, b2, b3, b4, b5, xF, xG. unfold turn_trace, polled.
  cbn [app]. reflexivity.
Qed.

(** *** The events of the loop, whatever its outcome *)

Local Abbreviation loop_event := (fun e : Event => is_loop_event e = true).

Lemma call_emits (P : Event -> Prop) (ev : Event) (f : solver_routine Opaque) :
  P ev -> emits_only P (call ev f).
Proof.
  intros Hev s o s' t. rewrite call_run. intros Heq. inversion Heq.
  repeat constructor. exact Hev.
Qed.

Lemma call_GetUserAction_emits (P : Event -> Prop) (a : UserAction) :
  (forall b, P (EvGetUserAction a b)) -> emits_only P (call_GetUserAction cap a).
Proof.
  intros Hev s o s' t. rewrite call_GetUserAction_run. intros Heq. inversion Heq.
  repeat constructor. apply Hev.
Qed.

Lemma call_DoneUserAction_emits (P : Event -> Prop) (a : UserAction) :
  P (EvDoneUserAction a) -> emits_only P (call_DoneUserAction cap a).
Proof.
  intros Hev s o s' t. rewrite call_DoneUserAction_run. intros Heq. inversion Heq.
  repeat constructor. exact Hev.
Qed.

Lemma UserF_emits (P : Event -> Prop) :
  P EvUserF -> (forall x, P (EvFitness x)) ->
  emits_only P (UserF (Opaque := Opaque) H pop).
Proof.
  intros HF Hfit. unfold UserF.
  repeat first
    [ apply emits_only_bind; [| intros ?]
    | apply emits_only_emit; solve [auto]
    | apply emits_only_get
    | apply emits_only_defined
    | apply emits_only_host
    | eapply emits_only_weaken; [| apply assign_opt_silent]; intros ? [] ].
Qed.

Lemma UserG_emits (P : Event -> Prop) :
  P EvUserG -> (forall x, P (EvFitness x)) ->
  emits_only P (UserG (Opaque := Opaque) H pop).
Proof.
  intros HG Hfit. unfold UserG.
  repeat first
    [ apply emits_only_bind; [| intros ?]
    | apply emits_only_emit; solve [auto]
    | apply emits_only_get
    | apply emits_only_defined
    | apply emits_only_host
    | eapply emits_only_weaken; [| apply copy_to_G_silent]; intros ? [] ].
Qed.

Lemma rc_turn_events : emits_only loop_event (rc_turn H cap pop).
Proof.
  unfold rc_turn.
  repeat first
    [ apply call_emits; reflexivity
    | apply call_GetUserAction_emits; intros; reflexivity
    | apply call_DoneUserAction_emits; reflexivity
    | apply UserF_emits; intros; reflexivity
    | apply UserG_emits; intros; reflexivity
    | apply emits_only_if
    | apply emits_only_ret
    | apply emits_only_bind; [| intros ?] ].
Qed.

Lemma rc_loop_events (fuel : nat) :
  emits_only loop_event (rc_loop hdr H cap pop fuel).
Proof.
  induction fuel as [| fuel IH]; cbn [rc_loop].
  - apply emits_only_bind; [apply emits_only_get | intros s].
    apply emits_only_bind; [apply emits_only_emit; reflexivity | intros _].
    apply emits_only_if; [apply emits_only_out_of_fuel | apply emits_only_ret].
  - apply emits_only_bind; [apply emits_only_get | intros s].
    apply emits_only_bind; [apply emits_only_emit; reflexivity | intros _].
    apply emits_only_if; [| apply emits_only_ret].
    apply emits_only_bind; [apply rc_turn_events | intros _; exact IH].
Qed.

(** *** The loop, run *)

Lemma rc_loop_exit (fuel : nat) (s : St) :
  in_progress hdr (status (cnt s)) = false ->
  rc_loop hdr H cap pop fuel s = (Ret tt, s, [EvStatus (status (cnt s))]).
Proof.
  intros Hst. destruct fuel; cbv [rc_loop bind get emit]; rewrite Hst; reflexivity.
Qed.

Lemma rc_loop_turn (fuel : nat) (s : St) :
  in_progress hdr (status (cnt s)) = true ->
  rc_loop hdr H cap pop (S fuel) s
  = (emit (EvStatus (status (cnt s))) ;;
     rc_turn H cap pop ;;
     rc_loop hdr H cap pop fuel) s.
Proof.
  intros Hst. cbn [rc_loop].
  rewrite (bind_silent get _ s s s eq_refl). rewrite Hst. reflexivity.
Qed.

Lemma rc_loop_out_of_fuel (s : St) :
  in_progress hdr (status (cnt s)) = true ->
  rc_loop hdr H cap pop O s = (OutOfFuel, s, [EvStatus (status (cnt s))]).
Proof. intros Hst. cbv [rc_loop bind get emit]. rewrite Hst. reflexivity. Qed.

(** A loop that has ended has the trace of the protocol, and the status it
    leaves is outside the open interval. *)
Lemma rc_loop_trace (fuel : nat) :
  forall (s s' : St) (t : Trace),
    rc_loop hdr H cap pop fuel s = (Ret tt, s', t) ->
    loop_trace hdr t /\ in_progress hdr (status (cnt s')) = false.
Proof.
  induction fuel as [| fuel IH]; intros s s' t Hrun.
  - destruct (in_progress hdr (status (cnt s))) eqn:Hst.
    + rewrite rc_loop_out_of_fuel in Hrun by exact Hst. discriminate.
    + rewrite rc_loop_exit in Hrun by exact Hst. inversion Hrun; subst.
      split; [apply loop_exit; exact Hst | exact Hst].
  - destruct (in_progress hdr (status (cnt s))) eqn:Hst.
    + rewrite rc_loop_turn in Hrun by exact Hst.
      apply bind_Ret_inv in Hrun as ([] & s1 & t1 & t1' & He & Hrun & ->).
      inversion He; subst. clear He.
      apply bind_Ret_inv in Hrun as ([] & s2 & t2 & t2' & Hturn & Hrest & ->).
      apply rc_turn_trace in Hturn
        as (b1 & b2 & b3 & b4 & b5 & xF & xG & ->).
      destruct (IH _ _ _ Hrest) as (Htr & Hend).
      split; [| exact Hend].
      apply (loop_turn hdr (status (cnt s1)) b1 b2 b3 b4 b5 xF xG t2' Hst Htr).
    + rewrite rc_loop_exit in Hrun by exact Hst. inversion Hrun; subst.
      split; [apply loop_exit; exact Hst | exact Hst].
Qed.

(** The last event of a loop that has ended is the reading of the status
    the records hold. *)
Lemma rc_loop_last_event (fuel : nat) :
  forall (s s' : St) (t : Trace),
    rc_loop hdr H cap pop fuel s = (Ret tt, s', t) ->
    exists t', t = t' ++ [EvStatus (status (cnt s'))].
Proof.
  induction fuel as [| fuel IH]; intros s s' t Hrun.
  - destruct (in_progress hdr (status (cnt s))) eqn:Hst.
    + rewrite rc_loop_out_of_fuel in Hrun by exact Hst. discriminate.
    + rewrite rc_loop_exit in Hrun by exact Hst. inversion Hrun; subst.
      exists []. reflexivity.
  - destruct (in_progress hdr (status (cnt s))) eqn:Hst.
    + rewrite rc_loop_turn in Hrun by exact Hst.
      apply bind_Ret_inv in Hrun as ([] & s1 & t1 & t1' & He & Hrun & ->).
      apply bind_Ret_inv in Hrun as ([] & s2 & t2 & t2' & Hturn & Hrest & ->).
      destruct (IH _ _ _ Hrest) as (t' & ->).
      exists (t1 ++ t2 ++ t'). rewrite <- !app_assoc. reflexivity.
    + rewrite rc_loop_exit in Hrun by exact Hst. inversion Hrun; subst.
      exists []. reflexivity.
Qed.

(** *** Acknowledgements *)

Lemma count_app (p : Event -> bool) (t1 t2 : Trace) :
  count p (t1 ++ t2) = (count p t1 + count p t2)%nat.
Proof. unfold count. rewrite filter_app, length_app. reflexivity. Qed.

Lemma count_none (p : Event -> bool) (t : Trace) :
  Forall (fun e => p e = false) t -> count p t = O.
Proof.
  unfold count. induction 1 as [| e t' He _ IH]; [reflexivity |].
  cbn. rewrite He. exact IH.
Qed.

Lemma turn_trace_acknowledged (a : UserAction) (b1 b2 b3 b4 b5 : bool)
    (xF xG : vector_double) :
  acknowledged a = true ->
  count (acknowledges a) (turn_trace b1 b2 b3 b4 b5 xF xG)
  = count (requests a) (turn_trace b1 b2 b3 b4 b5 xF xG).
Proof.
  destruct a; try discriminate; intros _;
    destruct b1, b2, b3, b4, b5; reflexivity.
Qed.

Lemma loop_trace_acknowledged (a : UserAction) (t : Trace) :
  acknowledged a = true ->
  loop_trace hdr t ->
  count (acknowledges a) t = count (requests a) t.
Proof.
  intros Ha. induction 1 as [st Hst | st b1 b2 b3 b4 b5 xF xG t Hst Ht IH].
  - reflexivity.
  - change (EvStatus st :: turn_trace b1 b2 b3 b4 b5 xF xG ++ t)
      with ([EvStatus st] ++ turn_trace b1 b2 b3 b4 b5 xF xG ++ t).
    rewrite !count_app, IH, (turn_trace_acknowledged a) by exact Ha.
    reflexivity.
Qed.

Lemma loop_events_not_acknowledged (a : UserAction) (t : Trace) :
  acknowledged a = false ->
  Forall loop_event t ->
  count (acknowledges a) t = O.
Proof.
  intros Ha Hev. apply count_none.
  eapply Forall_impl; [| exact Hev]. intros e He.
  destruct e; try reflexivity. cbn in He |- *.
  destruct a, a0; try reflexivity; discriminate.
Qed.

(** C1: the turn of the code is the turn of the specification, which
    checks the five flags in the fixed order and, for a flag that is set,
    performs the action and then acknowledges it when it is one of the three
    acknowledged requests.  So a turn that comes to its end has polled the five
    flags in that order, whichever were set; a loop that has ended has the trace
    of the protocol: each turn comes after a reading of a status inside the
    open interval, the last event is the reading of a status outside of it, and
    the records hold that status; iteration output, objective evaluation and
    constraint evaluation are acknowledged as many times as they were found
    requested; the step of the solver and the finite-difference step are never
    acknowledged, whatever the outcome of the loop.  The loop does no turn
    when the status is outside the interval, and one more turn when it is
    inside. *)
Theorem rc_loop_protocol :
  (forall s : St, rc_turn H cap pop s = spec_turn H cap pop s)
  /\ (forall (s s' : St) (t : Trace),
         rc_turn H cap pop s = (Ret tt, s', t) ->
         exists b1 b2 b3 b4 b5 xF xG, t = turn_trace b1 b2 b3 b4 b5 xF xG)
  /\ (forall (fuel : nat) (s s' : St) (t : Trace),
         rc_loop hdr H cap pop fuel s = (Ret tt, s', t) ->
         loop_trace hdr t
         /\ in_progress hdr (status (cnt s')) = false
         /\ (forall a, acknowledged a = true ->
                       count (acknowledges a) t = count (requests a) t))
  /\ (forall (fuel : nat) (s s' : St) (o : Outcome unit) (t : Trace),
         rc_loop hdr H cap pop fuel s = (o, s', t) ->
         forall a, acknowledged a = false -> count (acknowledges a) t = O)
  /\ (forall (fuel : nat) (s : St),
         in_progress hdr (status (cnt s)) = false ->
         rc_loop hdr H cap pop fuel s = (Ret tt, s, [EvStatus (status (cnt s))]))
  /\ (forall (fuel : nat) (s : St),
         in_progress hdr (status (cnt s)) = true ->
         rc_loop hdr H cap pop (S fuel) s
         = (emit (EvStatus (status (cnt s))) ;;
            rc_turn H cap pop ;;
            rc_loop hdr H cap pop fuel) s).
Proof.
  split; [exact rc_turn_refines_spec_turn |].
  split; [exact rc_turn_trace |].
  split.
  { intros fuel s s' t Hrun.
    destruct (rc_loop_trace fuel s s' t Hrun) as (Htr & Hend).
    split; [exact Htr |]. split; [exact Hend |].
    intros a Ha. apply loop_trace_acknowledged; assumption. }
  split.
  { intros fuel s s' o t Hrun a Ha.
    apply loop_events_not_acknowledged; [exact Ha |].
    eapply rc_loop_events. exact Hrun. }
  split; [exact rc_loop_exit | exact rc_loop_turn].
Qed.

End Loop.

(** C1 at the scripted solver: the loop on the records of the test run ends
    after three turns, with the trace of the protocol. *)
Lemma rc_loop_protocol_witness :
  let H := Mock.host_of Mock.prob_2d in
  let cap := Mock.capability 1000 in
  exists s',
    rc_loop Mock.header H cap Mock.pop_2d 5 Mock.started
    = (Ret tt, s',
       [EvStatus 1;
        EvGetUserAction callWorhp true; EvWorhp;
        EvGetUserAction iterOutput false;
        EvGetUserAction evalF true; EvUserF; EvFitness [3%float; 4%float];
        EvDoneUserAction evalF;
        EvGetUserAction evalG true; EvUserG; EvFitness [3%float; 4%float];
        EvDoneUserAction evalG;
        EvGetUserAction fidif false;
        EvStatus 1;
        EvGetUserAction callWorhp true; EvWorhp;
        EvGetUserAction iterOutput true; EvIterationOutput;
        EvDoneUserAction iterOutput;
        EvGetUserAction evalF true; EvUserF; EvFitness [3%float; 4%float];
        EvDoneUserAction evalF;
        EvGetUserAction evalG false;
        EvGetUserAction fidif true; EvWorhpFidif;
        EvStatus 1;
        EvGetUserAction callWorhp true; EvWorhp;
        EvGetUserAction iterOutput false;
        EvGetUserAction evalF false;
        EvGetUserAction evalG false;
        EvGetUserAction fidif false;
        EvStatus 1000])
    /\ in_progress Mock.header (status (cnt s')) = false
    /\ X (opt s') = [1%float; 1%float].
Proof.
  intros H cap.
  destruct (rc_loop Mock.header H cap Mock.pop_2d 5 Mock.started)
    as [[o s'] t] eqn:Hrun.
  assert (Ho : o = Ret tt) by (vm_compute in Hrun; inversion Hrun; reflexivity).
  subst o. exists s'.
  destruct (rc_loop_protocol Mock.header H cap Mock.pop_2d)
    as (_ & _ & Hloop & _).
  destruct (Hloop 5%nat Mock.started s' t Hrun) as (_ & Hend & _).
  split; [| split; [exact Hend |]].
  - vm_compute in Hrun. inversion Hrun; subst. reflexivity.
  - vm_compute in Hrun. inversion Hrun; subst. reflexivity.
Defined.

(** ** [evolve] as a whole *)

Section Evolve.

Context {Opaque : Type}.
Variable hdr : WorhpHeader.
Variable fs : FileSystem Opaque.
Variable H : Host.

Local Abbreviation St := (Records Opaque).

(** *** The set-up *)

Lemma init_records_run (cap : Capability Opaque) (prob : problem) (s : St) :
  init_records hdr cap prob s
  = (Ret tt,
     set_par (WorhpInit cap (before_WorhpInit hdr cap prob s))
       (set_derivative_free (par (WorhpInit cap (before_WorhpInit hdr cap prob s)))),
     [EvWorhpPreInit; EvReadParams "param.xml"%string; EvWorhpInit]).
Proof. reflexivity. Qed.

Lemma set_initial_values_silent (x0 f0 : vector_double) :
  emits_only silent (set_initial_values (Opaque := Opaque) x0 f0).
Proof.
  unfold set_initial_values, for_range.
  repeat first
    [ apply store_opt_silent
    | apply assign_opt_silent
    | apply emits_only_get
    | apply emits_only_defined
    | apply emits_only_for_count; intros ?
    | apply emits_only_bind; [| intros ?] ].
Qed.

Lemma set_bounds_silent (lb ub : vector_double) (n_eq : Z) :
  emits_only silent (set_bounds (Opaque := Opaque) lb ub n_eq).
Proof.
  unfold set_bounds, for_range.
  repeat first
    [ apply store_opt_silent
    | apply emits_only_get
    | apply emits_only_defined
    | apply emits_only_for_count; intros ?
    | apply emits_only_bind; [| intros ?] ].
Qed.

(** *** What the driver's own steps leave alone *)

Section Keeps.

Context {A : Type} (proj : St -> A).

Lemma keeps_ret {B : Type} (b : B) : keeps proj (ret b).
Proof. intros s o s' t Heq. inversion Heq. reflexivity. Qed.

Lemma keeps_get : keeps proj get.
Proof. intros s o s' t Heq. inversion Heq. reflexivity. Qed.

Lemma keeps_emit (e : Event) : keeps proj (emit e).
Proof. intros s o s' t Heq. inversion Heq. reflexivity. Qed.

Lemma keeps_defined {B : Type} (o : option B) : keeps proj (defined o).
Proof. destruct o; intros s o' s' t Heq; inversion Heq; reflexivity. Qed.

Lemma keeps_host {B : Type} (r : Exn + B) : keeps proj (host r).
Proof. destruct r; intros s o' s' t Heq; inversion Heq; reflexivity. Qed.

Lemma keeps_bind {B C : Type} (c : M St B) (k : B -> M St C) :
  keeps proj c -> (forall b, keeps proj (k b)) -> keeps proj (bind c k).
Proof.
  intros Hc Hk s o s' t. unfold bind.
  destruct (c s) as [[[b | e | |] s1] t1] eqn:Hcs;
    try (intros Heq; inversion Heq; subst; eapply Hc; eassumption).
  destruct (k b s1) as [[o2 s2] t2] eqn:Hks. intros Heq. inversion Heq; subst.
  rewrite (Hk _ _ _ _ _ Hks). eapply Hc; eassumption.
Qed.

Lemma keeps_if {B : Type} (b : bool) (c1 c2 : M St B) :
  keeps proj c1 -> keeps proj c2 -> keeps proj (if b then c1 else c2).
Proof. destruct b; auto. Qed.

Lemma keeps_for_count (body : Z -> M St unit) :
  (forall i, keeps proj (body i)) ->
  forall k i, keeps proj (for_count k i body).
Proof.
  intros Hb k. induction k as [| c IH]; intros i; cbn.
  - apply keeps_ret.
  - apply keeps_bind; auto.
Qed.

Lemma keeps_for_fold {B : Type} (body : Z -> B -> M St B) :
  (forall i acc, keeps proj (body i acc)) ->
  forall k i acc, keeps proj (for_fold k i body acc).
Proof.
  intros Hb k. induction k as [| c IH]; intros i acc; cbn.
  - apply keeps_ret.
  - apply keeps_bind; auto.
Qed.

End Keeps.

Lemma assign_opt_keeps_par (f : OptVar Opaque -> OptVar Opaque) :
  keeps par (assign_opt f).
Proof. intros s o s' t Heq. inversion Heq. reflexivity. Qed.

Lemma store_opt_keeps_par (arr : OptVar Opaque -> list double)
    (upd : OptVar Opaque -> list double -> OptVar Opaque) (i : Z) (x : double) :
  keeps par (store_opt arr upd i x).
Proof.
  unfold store_opt. apply keeps_bind; [apply keeps_get | intros s].
  apply keeps_bind; [apply keeps_defined | intros a].
  apply assign_opt_keeps_par.
Qed.

Ltac keeps_par :=
  repeat first
    [ apply store_opt_keeps_par
    | apply assign_opt_keeps_par
    | apply keeps_get
    | apply keeps_emit
    | apply keeps_ret
    | apply keeps_defined
    | apply keeps_host
    | apply keeps_if
    | apply keeps_for_count; intros ?
    | apply keeps_for_fold; intros ? ?
    | apply keeps_bind; [| intros ?] ].

(** The driver's own steps never write to [par]: the copies of the initial
    values and of the bounds, the two evaluation routines, the acknowledgement
    of a request and the reinsertion. *)
Lemma driver_steps_keep_par (w : worhp H) (cap : Capability Opaque)
    (pop : population H) (x0 f0 lb ub : vector_double) (n_eq : Z)
    (a : UserAction) :
  keeps par (set_initial_values (Opaque := Opaque) x0 f0)
  /\ keeps par (set_bounds (Opaque := Opaque) lb ub n_eq)
  /\ keeps par (UserF (Opaque := Opaque) H pop)
  /\ keeps par (UserG (Opaque := Opaque) H pop)
  /\ keeps par (call_GetUserAction cap a)
  /\ keeps par (call_DoneUserAction cap a)
  /\ keeps par (reinsert (Opaque := Opaque) H w pop f0).
Proof.
  repeat split.
  - unfold set_initial_values, for_range. keeps_par.
  - unfold set_bounds, for_range. keeps_par.
  - unfold UserF. keeps_par.
  - unfold UserG, for_range. keeps_par.
  - intros s o s' t Heq. inversion Heq. reflexivity.
  - intros s o s' t Heq. inversion Heq. reflexivity.
  - unfold reinsert, for_fold_range. keeps_par.
Qed.

(** X1: the parameter record with which the loop starts is the one
    [WorhpInit] left, with the five fixed settings: nothing of it comes from the
    problem but the two dimensions [WorhpInit] has seen. *)
Theorem setup_par (w : worhp H) (cap : Capability Opaque) (pop : population H)
    (s s' : St) (f0 : vector_double) (t : Trace) :
  setup hdr H w cap pop s = (Ret f0, s', t) ->
  par s'
  = set_derivative_free
      (par (WorhpInit cap (before_WorhpInit hdr cap (get_problem H pop) s))).
Proof.
  unfold setup. intros Hrun.
  apply bind_Ret_inv in Hrun as ([] & s1 & t1 & r1 & Hinit & Hrun & ->).
  rewrite init_records_run in Hinit. inversion Hinit; subst. clear Hinit.
  apply bind_Ret_inv in Hrun as ([] & s2 & t2 & r2 & He & Hrun & ->).
  inversion He; subst. clear He.
  apply bind_Ret_inv in Hrun as (sel & s3 & t3 & r3 & Hsel & Hrun & ->).
  apply (keeps_host par) in Hsel.
  apply bind_Ret_inv in Hrun as ([] & s4 & t4 & r4 & Hval & Hrun & ->).
  apply bind_Ret_inv in Hrun as ([] & s5 & t5 & r5 & Hbnd & Hret & ->).
  inversion Hret; subst. clear Hret.
  destruct (driver_steps_keep_par w cap pop (fst sel) (snd sel)
              (fst (get_bounds (get_problem H pop)))
              (snd (get_bounds (get_problem H pop)))
              (get_nec (get_problem H pop)) callWorhp)
    as (Kval & Kbnd & _).
  rewrite (Kbnd _ _ _ _ Hbnd), (Kval _ _ _ _ Hval), Hsel. reflexivity.
Qed.

(** *** The reinsertion *)

Lemma defined_Ret_inv {B : Type} (o : option B) (b : B) (s s' : St) (t : Trace) :
  defined o s = (Ret b, s', t) -> o = Some b /\ s' = s /\ t = [].
Proof. destruct o; intros Heq; inversion Heq; auto. Qed.

Lemma host_Ret_inv {B : Type} (r : Exn + B) (b : B) (s s' : St) (t : Trace) :
  host r s = (Ret b, s', t) -> r = inr b /\ s' = s /\ t = [].
Proof. destruct r; intros Heq; inversion Heq; auto. Qed.

Lemma store_Some_inv {B : Type} (v v' : list B) (i : Z) (x : B) :
  store v i x = Some v' ->
  0 <= i < Z.of_nat (List.length v) /\ v' = set_nth v (Z.to_nat i) x.
Proof.
  unfold store. destruct (Z.leb_spec 0 i); [| discriminate].
  destruct (Z.ltb_spec i (Z.of_nat (List.length v))); [| discriminate].
  cbn. intros Heq. inversion Heq. split; [lia | reflexivity].
Qed.

Lemma at_index_repeat {B : Type} (x : B) (k : nat) (i : Z) :
  0 <= i < Z.of_nat k -> at_index (repeat x k) i = Some x.
Proof.
  intros Hi. unfold at_index. destruct (Z.ltb_spec i 0); [lia |].
  apply nth_error_repeat. lia.
Qed.

(** The loop that fills [x_final] from the array [Xs]. *)
Lemma read_back_loop (Xs : list double) :
  forall (k : nat) (i : Z) (acc xf : vector_double) (s s' : St) (t : Trace),
    for_fold k i
      (fun j x_final =>
         X_j <- defined (at_index Xs j) ;; defined (store x_final j X_j))
      acc s = (Ret xf, s', t) ->
    s' = s /\ t = []
    /\ List.length xf = List.length acc
    /\ (forall j, i <= j < i + Z.of_nat k -> at_index xf j = at_index Xs j)
    /\ (forall j, ~ i <= j < i + Z.of_nat k -> at_index xf j = at_index acc j).
Proof.
  induction k as [| k IH]; intros i acc xf s s' t Hrun.
  - inversion Hrun; subst. repeat split; auto. intros j Hj. lia.
  - cbn [for_fold] in Hrun.
    apply bind_Ret_inv in Hrun as (acc' & s1 & t1 & r1 & Hbody & Hrest & ->).
    apply bind_Ret_inv in Hbody as (v & s2 & t2 & r2 & Hread & Hstore & ->).
    apply defined_Ret_inv in Hread as (Hv & -> & ->).
    apply defined_Ret_inv in Hstore as (Hst & -> & ->).
    apply store_Some_inv in Hst as (Hi & ->).
    destruct (IH _ _ _ _ _ _ Hrest) as (-> & -> & Hlen & Hin & Hout).
    rewrite length_set_nth in Hlen.
    split; [reflexivity |]. split; [reflexivity |]. split; [exact Hlen |].
    split.
    + intros j Hj. destruct (Z.eq_dec i j) as [<- | Hne].
      * rewrite Hout by lia. rewrite at_index_set_nth_same by lia.
        symmetry. exact Hv.
      * apply Hin. lia.
    + intros j Hj. rewrite Hout by lia.
      apply at_index_set_nth_other; lia.
Qed.

(** What a reinsertion that returns has done. *)
Lemma reinsert_inv (w : worhp H) (pop pop' : population H) (f0 : vector_double)
    (s s' : St) (t : Trace) :
  reinsert H w pop f0 s = (Ret pop', s', t) ->
  let prob := get_problem H pop in
  s' = s
  /\ exists x_final f_final better,
      List.length x_final = Z.to_nat (get_nx prob)
      /\ (forall j, 0 <= j < n (opt s) ->
                    at_index x_final j = at_index (X (opt s)) j)
      /\ (forall j, 0 <= j -> n (opt s) <= j < get_nx prob ->
                    at_index x_final j = Some 0%float)
      /\ fitness prob x_final = inr f_final
      /\ compare_fc H f_final f0 (get_nec prob) (get_c_tol prob) = inr better
      /\ (better = true ->
          replace_individual H (base w) pop x_final f_final = inr pop')
      /\ (better = false -> pop' = pop)
      /\ t = EvFitness x_final :: EvCompare f_final f0
             :: (if better then [EvReplace x_final f_final] else []).
Proof.
  intros Hrun prob. unfold reinsert in Hrun. fold prob in Hrun.
  apply bind_Ret_inv in Hrun as (s0 & s1 & t1 & r1 & Hget & Hrun & ->).
  inversion Hget; subst. clear Hget.
  apply bind_Ret_inv in Hrun as (x_final & s2 & t2 & r2 & Hloop & Hrun & ->).
  unfold for_fold_range in Hloop.
  apply read_back_loop in Hloop as (-> & -> & Hlen & Hin & Hout).
  rewrite repeat_length in Hlen.
  apply bind_Ret_inv in Hrun as ([] & s3 & t3 & r3 & He & Hrun & ->).
  inversion He; subst. clear He.
  apply bind_Ret_inv in Hrun as (f_final & s4 & t4 & r4 & Hfit & Hrun & ->).
  apply host_Ret_inv in Hfit as (Hfit & -> & ->).
  apply bind_Ret_inv in Hrun as ([] & s5 & t5 & r5 & He & Hrun & ->).
  inversion He; subst. clear He.
  apply bind_Ret_inv in Hrun as (better & s6 & t6 & r6 & Hcmp & Hrun & ->).
  apply host_Ret_inv in Hcmp as (Hcmp & -> & ->).
  assert (Hfinal :
    (better = true ->
     replace_individual H (base w) pop x_final f_final = inr pop')
    /\ (better = false -> pop' = pop)
    /\ r6 = (if better then [EvReplace x_final f_final] else [])
    /\ forall st, st = s' -> s' = st).
  { destruct better.
    - apply bind_Ret_inv in Hrun as ([] & s7 & t7 & r7 & He & Hrun & ->).
      inversion He; subst. clear He.
      apply host_Ret_inv in Hrun as (Hrep & -> & ->).
      repeat split; auto. discriminate.
    - inversion Hrun; subst. repeat split; auto. discriminate. }
  destruct Hfinal as (Hrep & Hsame & -> & _).
  split.
  { destruct better.
    - apply bind_Ret_inv in Hrun as ([] & s7 & t7 & r7 & He & Hrun & _).
      inversion He; subst. apply host_Ret_inv in Hrun as (_ & -> & _).
      reflexivity.
    - inversion Hrun; reflexivity. }
  exists x_final, f_final, better.
  split; [exact Hlen |].
  split; [intros j Hj; apply Hin; lia |].
  split.
  { intros j Hj0 Hj. rewrite Hout by lia. apply at_index_repeat. lia. }
  repeat split; auto.
Qed.

Lemma reinsert_events (w : worhp H) (pop : population H) (f0 : vector_double) :
  emits_only (fun e => is_reinsert_event e = true)
    (reinsert (Opaque := Opaque) H w pop f0).
Proof.
  unfold reinsert, for_fold_range.
  repeat first
    [ apply emits_only_emit; reflexivity
    | apply emits_only_get
    | apply emits_only_ret
    | apply emits_only_defined
    | apply emits_only_host
    | apply emits_only_if
    | apply emits_only_for_fold; intros ? ?
    | apply emits_only_bind; [| intros ?] ].
Qed.

Lemma setup_events (w : worhp H) (cap : Capability Opaque) (pop : population H) :
  emits_only (fun e => is_setup_event e = true) (setup hdr H w cap pop).
Proof.
  unfold setup.
  apply emits_only_bind.
  { intros s o s' t. rewrite init_records_run. intros Heq. inversion Heq.
    repeat constructor. }
  intros _. apply emits_only_bind; [apply emits_only_emit; reflexivity |].
  intros _. apply emits_only_bind; [apply emits_only_host |].
  intros sel. apply emits_only_bind.
  { eapply emits_only_weaken; [| apply set_initial_values_silent]. intros ? []. }
  intros _. apply emits_only_bind; [| intros _; apply emits_only_ret].
  eapply emits_only_weaken; [| apply set_bounds_silent]. intros ? [].
Qed.

(** *** The phases of a run that returns *)

Lemma load_library_Ret_inv (w : worhp H) (cap : Capability Opaque)
    (s s' : St) (t : Trace) :
  load_library fs H w s = (Ret cap, s', t) ->
  load_symbols fs H w s = (Ret cap, s, t)
  /\ s' = s
  /\ Forall (fun e => is_loader_event e = true) t.
Proof.
  unfold load_library, try_catch.
  destruct (load_symbols fs H w s) as [[[c | e | |] s1] t1] eqn:Hload;
    try discriminate.
  intros Heq. inversion Heq; subst.
  assert (s' = s) as -> by (eapply load_symbols_keeps_records; exact Hload).
  split; [reflexivity |]. split; [reflexivity |].
  eapply load_symbols_trace. exact Hload.
Qed.

Lemma teardown_run (cap : Capability Opaque) (s : St) :
  teardown cap s = (Ret tt, WorhpFree cap (StatusMsg cap s),
                    [EvStatusMsg; EvWorhpFree]).
Proof. reflexivity. Qed.

Lemma evolve_Ret_inv (w : worhp H) (pop pop' : population H) (fuel : nat)
    (s s_end : St) (t : Trace) :
  evolve hdr fs H w pop fuel s = (Ret pop', s_end, t) ->
  exists cap f0 s_setup s_loop t_load t_setup t_loop t_re,
    load_library fs H w s = (Ret cap, s, t_load)
    /\ setup hdr H w cap pop s = (Ret f0, s_setup, t_setup)
    /\ rc_loop hdr H cap pop fuel s_setup = (Ret tt, s_loop, t_loop)
    /\ reinsert H w pop f0 s_loop = (Ret pop', s_loop, t_re)
    /\ s_end = WorhpFree cap (StatusMsg cap s_loop)
    /\ t = t_load ++ t_setup ++ t_loop ++ t_re ++ [EvStatusMsg; EvWorhpFree].
Proof.
  unfold evolve. intros Hrun.
  apply bind_Ret_inv in Hrun as ([] & s1 & t1 & r1 & Hcheck & Hrun & ->).
  assert (Hc : s1 = s /\ t1 = []).
  { revert Hcheck. unfold check_problem, bind, pagmo_throw, throw, ret.
    destruct (negb (get_nobj (get_problem H pop) =? 1)); [discriminate |].
    destruct (is_stochastic (get_problem H pop)); [discriminate |].
    destruct (size H pop =? 0); [discriminate |].
    intros Heq. inversion Heq. auto. }
  destruct Hc as (-> & ->).
  apply bind_Ret_inv in Hrun as (cap & s2 & t_load & r2 & Hload & Hrun & ->).
  destruct (load_library_Ret_inv _ _ _ _ _ Hload) as (_ & -> & _).
  unfold run_solver in Hrun.
  apply bind_Ret_inv in Hrun as (f0 & s_setup & t_setup & r3 & Hsetup & Hrun & ->).
  apply bind_Ret_inv in Hrun as ([] & s_loop & t_loop & r4 & Hloop & Hrun & ->).
  apply bind_Ret_inv in Hrun as (pop1 & s5 & t_re & r5 & Hre & Hrun & ->).
  apply bind_Ret_inv in Hrun as ([] & s6 & t6 & r6 & Htd & Hret & ->).
  rewrite teardown_run in Htd. inversion Htd; subst. clear Htd.
  inversion Hret; subst. clear Hret.
  assert (s5 = s_loop) as -> by (apply (reinsert_inv _ _ _ _ _ _ _ Hre)).
  exists cap, f0, s_setup, s_loop, t_load, t_setup, t_loop, t_re.
  repeat split; auto.
Qed.

Lemma setup_inv (w : worhp H) (cap : Capability Opaque) (pop : population H)
    (s s' : St) (f0 : vector_double) (t : Trace) :
  setup hdr H w cap pop s = (Ret f0, s', t) ->
  exists x0, select_individual H (base w) pop = inr (x0, f0).
Proof.
  unfold setup. intros Hrun.
  apply bind_Ret_inv in Hrun as ([] & s1 & t1 & r1 & Hinit & Hrun & ->).
  apply bind_Ret_inv in Hrun as ([] & s2 & t2 & r2 & He & Hrun & ->).
  apply bind_Ret_inv in Hrun as (sel & s3 & t3 & r3 & Hsel & Hrun & ->).
  apply host_Ret_inv in Hsel as (Hsel & _ & _).
  apply bind_Ret_inv in Hrun as ([] & s4 & t4 & r4 & Hval & Hrun & ->).
  apply bind_Ret_inv in Hrun as ([] & s5 & t5 & r5 & Hbnd & Hret & ->).
  inversion Hret; subst. exists (fst sel). rewrite Hsel.
  destruct sel; reflexivity.
Qed.

(** No phase before the reinsertion calls [replace_individual], and none
    before the tear-down calls [StatusMsg] or [WorhpFree]. *)
Lemma early_phases_events (t_load t_setup t_loop : Trace) (p : Event -> bool) :
  (forall e, p e = true ->
             is_loader_event e = false /\ is_setup_event e = false
             /\ is_loop_event e = false) ->
  Forall (fun e => is_loader_event e = true) t_load ->
  Forall (fun e => is_setup_event e = true) t_setup ->
  Forall (fun e => is_loop_event e = true) t_loop ->
  count p (t_load ++ t_setup ++ t_loop) = O.
Proof.
  intros Hp Hl Hs Hr. apply count_none. rewrite !Forall_app.
  repeat split; (eapply Forall_impl; [| eassumption]); intros e He;
    destruct (p e) eqn:Hpe; try reflexivity;
    destruct (Hp e Hpe) as (H1 & H2 & H3); congruence.
Qed.

(** C2: when [evolve] returns, the run went through these records: [cap]
    is what the loading of the library returned, [s_setup] the records the
    set-up left, with [f0] the fitness of the selected individual, and
    [s_loop] the records with which the loop on [s_setup] ended, whose status
    is outside the open interval.  Right after the reading of that status the
    fitness of the problem is computed at [x_final], the vector of [dim] cells
    read back from [opt.X] of [s_loop] (zero where [opt.n] stops short of
    [dim]); the vector [f_final] it returns goes as it is, with no scaling, to
    [compare_fc] together with [f0], the number of equality constraints and the
    tolerances of the problem; the population returned is
    [replace_individual pop x_final f_final] when the answer is true, and [pop]
    itself otherwise, and [replace_individual] is called in the first case
    only.  The reinsertion leaves the records alone: what [evolve] leaves is
    what [StatusMsg] and [WorhpFree] make of [s_loop]. *)
Theorem evolve_reinserts_if_better (w : worhp H) (pop pop' : population H)
    (fuel : nat) (s s_end : St) (t : Trace) :
  evolve hdr fs H w pop fuel s = (Ret pop', s_end, t) ->
  let prob := get_problem H pop in
  exists (cap : Capability Opaque) x0 f0 (s_setup s_loop : St)
         t_load t_setup t_loop t_before x_final f_final better,
    load_library fs H w s = (Ret cap, s, t_load)
    /\ setup hdr H w cap pop s = (Ret f0, s_setup, t_setup)
    /\ select_individual H (base w) pop = inr (x0, f0)
    /\ rc_loop hdr H cap pop fuel s_setup = (Ret tt, s_loop, t_loop)
    /\ in_progress hdr (status (cnt s_loop)) = false
    /\ s_end = WorhpFree cap (StatusMsg cap s_loop)
    /\ List.length x_final = Z.to_nat (get_nx prob)
    /\ (forall j, 0 <= j < n (opt s_loop) ->
                  at_index x_final j = at_index (X (opt s_loop)) j)
    /\ (forall j, 0 <= j -> n (opt s_loop) <= j < get_nx prob ->
                  at_index x_final j = Some 0%float)
    /\ fitness prob x_final = inr f_final
    /\ compare_fc H f_final f0 (get_nec prob) (get_c_tol prob) = inr better
    /\ (better = true ->
        replace_individual H (base w) pop x_final f_final = inr pop')
    /\ (better = false -> pop' = pop)
    /\ t_load ++ t_setup ++ t_loop
       = t_before ++ [EvStatus (status (cnt s_loop))]
    /\ t = t_before
           ++ EvStatus (status (cnt s_loop))
           :: EvFitness x_final
           :: EvCompare f_final f0
           :: (if better then [EvReplace x_final f_final] else [])
           ++ [EvStatusMsg; EvWorhpFree]
    /\ count is_Replace t = (if better then 1 else 0)%nat.
Proof.
  intros Hrun prob.
  apply evolve_Ret_inv in Hrun
    as (cap & f0 & s_setup & s_loop & t_load & t_setup & t_loop & t_re
        & Hload & Hsetup & Hloop & Hre & -> & ->).
  destruct (setup_inv _ _ _ _ _ _ _ Hsetup) as (x0 & Hsel).
  destruct (rc_loop_trace hdr H cap pop fuel _ _ _ Hloop) as (_ & Hend).
  destruct (rc_loop_last_event hdr H cap pop fuel _ _ _ Hloop) as (t_turns & Hlast).
  destruct (reinsert_inv _ _ _ _ _ _ _ Hre)
    as (_ & x_final & f_final & better & Hlen & Hin & Hzero & Hfit & Hcmp
        & Hrep & Hsame & Hte).
  exists cap, x0, f0, s_setup, s_loop, t_load, t_setup, t_loop,
    (t_load ++ t_setup ++ t_turns), x_final, f_final, better.
  split; [exact Hload |]. split; [exact Hsetup |]. split; [exact Hsel |].
  split; [exact Hloop |]. split; [exact Hend |]. split; [reflexivity |].
  split; [exact Hlen |]. split; [exact Hin |]. split; [exact Hzero |].
  split; [exact Hfit |]. split; [exact Hcmp |]. split; [exact Hrep |].
  split; [exact Hsame |].
  assert (Hearly : count is_Replace (t_load ++ t_setup ++ t_loop) = O).
  { apply early_phases_events.
    - intros e He. destruct e; try discriminate. repeat split.
    - apply (load_library_Ret_inv _ _ _ _ _ Hload).
    - eapply setup_events. exact Hsetup.
    - eapply rc_loop_events. exact Hloop. }
  split; [rewrite Hlast, <- !app_assoc; reflexivity |].
  split.
  - rewrite Hlast, Hte. rewrite <- !app_assoc. reflexivity.
  - replace (t_load ++ t_setup ++ t_loop ++ t_re ++ [EvStatusMsg; EvWorhpFree])
      with ((t_load ++ t_setup ++ t_loop) ++ t_re ++ [EvStatusMsg; EvWorhpFree])
      by (rewrite <- !app_assoc; reflexivity).
    rewrite count_app, Hearly, Hte. destruct better; reflexivity.
Qed.

(** C4, as the code has it: when [evolve] returns, whatever terminal ended
    the loop, the last two events of its trace are the call of [StatusMsg] and
    then the call of [WorhpFree], and neither routine was called before: each
    is called once. *)
Theorem evolve_teardown_on_return (w : worhp H) (pop pop' : population H)
    (fuel : nat) (s s_end : St) (t : Trace) :
  evolve hdr fs H w pop fuel s = (Ret pop', s_end, t) ->
  exists t',
    t = t' ++ [EvStatusMsg; EvWorhpFree]
    /\ count is_teardown_event t' = O
    /\ count is_StatusMsg t = 1%nat
    /\ count is_WorhpFree t = 1%nat.
Proof.
  intros Hrun.
  apply evolve_Ret_inv in Hrun
    as (cap & f0 & s_setup & s_loop & t_load & t_setup & t_loop & t_re
        & Hload & Hsetup & Hloop & Hre & -> & ->).
  assert (Hl : Forall (fun e => is_loader_event e = true) t_load)
    by apply (load_library_Ret_inv _ _ _ _ _ Hload).
  assert (Hs : Forall (fun e => is_setup_event e = true) t_setup)
    by (eapply setup_events; exact Hsetup).
  assert (Hr : Forall (fun e => is_loop_event e = true) t_loop)
    by (eapply rc_loop_events; exact Hloop).
  assert (Hi : Forall (fun e => is_reinsert_event e = true) t_re)
    by (eapply reinsert_events; exact Hre).
  assert (Hnone : forall p,
             (forall e, p e = true -> is_teardown_event e = true) ->
             count p (t_load ++ t_setup ++ t_loop ++ t_re) = O).
  { intros p Hp.
    replace (t_load ++ t_setup ++ t_loop ++ t_re)
      with ((t_load ++ t_setup ++ t_loop) ++ t_re)
      by (rewrite <- !app_assoc; reflexivity).
    rewrite count_app, early_phases_events; try assumption.
    - apply count_none. eapply Forall_impl; [| exact Hi]. intros e He.
      destruct (p e) eqn:Hpe; [| reflexivity]. apply Hp in Hpe.
      destruct e; discriminate.
    - intros e He. apply Hp in He. destruct e; try discriminate; repeat split. }
  exists (t_load ++ t_setup ++ t_loop ++ t_re).
  split; [rewrite <- !app_assoc; reflexivity |].
  split; [apply Hnone; auto |].
  replace (t_load ++ t_setup ++ t_loop ++ t_re ++ [EvStatusMsg; EvWorhpFree])
    with ((t_load ++ t_setup ++ t_loop ++ t_re) ++ [EvStatusMsg; EvWorhpFree])
    by (rewrite <- !app_assoc; reflexivity).
  split.
  - rewrite (count_app is_StatusMsg (t_load ++ t_setup ++ t_loop ++ t_re)).
    rewrite Hnone; [reflexivity |].
    intros e He. unfold is_teardown_event. rewrite He. reflexivity.
  - rewrite (count_app is_WorhpFree (t_load ++ t_setup ++ t_loop ++ t_re)).
    rewrite Hnone; [reflexivity |].
    intros e He. unfold is_teardown_event. rewrite He. apply orb_true_r.
Qed.

(** X3: whatever its outcome, the set-up has called [WorhpPreInit], then
    [ReadParams] on param.xml, then [WorhpInit], each once and in that order,
    and then has selected the individual; nothing else crossed the boundary of
    the driver. *)
Theorem setup_calls (w : worhp H) (cap : Capability Opaque) (pop : population H)
    (s s' : St) (o : Outcome vector_double) (t : Trace) :
  setup hdr H w cap pop s = (o, s', t) ->
  t = [EvWorhpPreInit; EvReadParams "param.xml"; EvWorhpInit; EvSelect].
Proof.
  unfold setup.
  rewrite (bind_Ret _ _ _ _ _ _ (init_records_run cap (get_problem H pop) s)).
  match goal with |- context [bind (emit EvSelect) ?k ?s1] =>
    rewrite (bind_Ret (emit EvSelect) k s1 s1 tt [EvSelect] eq_refl);
    destruct (k tt s1) as [[o3 s3] t3] eqn:Hrest
  end.
  assert (t3 = []) as ->.
  { apply silent_nil. revert Hrest.
    match goal with |- ?c ?s1 = _ -> _ =>
      assert (Hc : emits_only silent c) end.
    { apply emits_only_bind; [apply emits_only_host | intros sel].
      apply emits_only_bind; [apply set_initial_values_silent | intros _].
      apply emits_only_bind; [apply set_bounds_silent | intros _].
      apply emits_only_ret. }
    intros Hrest. eapply Hc. exact Hrest. }
  intros Heq. inversion Heq. reflexivity.
Qed.

End Evolve.


(** The set-up on the test doubles, evaluated: from storage that holds
    anything to the records with which the loop starts. *)
Example setup_on_garbage :
  setup Mock.header (Mock.host_of Mock.prob_2d)
    (Mock.algorithm Mock.prob_2d false default_worhp_library)
    (Mock.capability 1000) Mock.pop_2d Mock.garbage
  = (Ret [7%float; (-1)%float; 4%float], Mock.started,
     [EvWorhpPreInit; EvReadParams "param.xml"; EvWorhpInit; EvSelect]).
Proof. vm_compute. reflexivity. Qed.

(** ** The constraint evaluation *)

Section Constraints.

Context {Opaque : Type}.
Variable H : Host.

Local Abbreviation St := (Records Opaque).

Lemma store_opt_keeps {A : Type} (proj : St -> A)
    (arr : OptVar Opaque -> list double)
    (upd : OptVar Opaque -> list double -> OptVar Opaque) (i : Z) (x : double) :
  (forall s a, proj (set_opt s (upd (opt s) a)) = proj s) ->
  keeps proj (store_opt arr upd i x).
Proof.
  intros Hproj s o s' t.
  cbv [store_opt bind get defined assign_opt ret undefined].
  destruct (store (arr (opt s)) i x); intros Heq; inversion Heq; auto.
Qed.

Lemma UserG_keeps {A : Type} (proj : St -> A) (pop : population H) :
  (forall s a, proj (set_opt s (set_G (opt s) a)) = proj s) ->
  keeps proj (UserG H pop).
Proof.
  intros Hproj. unfold UserG, for_range.
  repeat first
    [ apply store_opt_keeps; exact Hproj
    | apply keeps_get
    | apply keeps_emit
    | apply keeps_defined
    | apply keeps_host
    | apply keeps_for_count; intros ?
    | apply keeps_bind; [| intros ?] ].
Qed.

Lemma store_opt_Ret_inv (arr : OptVar Opaque -> list double)
    (upd : OptVar Opaque -> list double -> OptVar Opaque) (i : Z) (x : double)
    (s s' : St) (t : Trace) :
  store_opt arr upd i x s = (Ret tt, s', t) ->
  0 <= i < Z.of_nat (List.length (arr (opt s)))
  /\ s' = set_opt s (upd (opt s) (set_nth (arr (opt s)) (Z.to_nat i) x))
  /\ t = [].
Proof.
  cbv [store_opt bind get defined assign_opt ret undefined].
  destruct (store (arr (opt s)) i x) as [a |] eqn:Hst; [| discriminate].
  apply store_Some_inv in Hst as (Hi & ->).
  intros Heq. inversion Heq. auto.
Qed.

(** The loop that copies [f[i + 1]] to [G[i]]. *)
Lemma copy_to_G_inv (f : vector_double) :
  forall (k : nat) (i : Z) (s s' : St) (t : Trace),
    for_count k i
      (fun j => f_j <- defined (at_index f (j + 1)) ;; store_opt G set_G j f_j)
      s = (Ret tt, s', t) ->
    List.length (G (opt s')) = List.length (G (opt s))
    /\ (forall j, i <= j < i + Z.of_nat k ->
                  at_index (G (opt s')) j = at_index f (j + 1)
                  /\ at_index f (j + 1) <> None)
    /\ (forall j, ~ i <= j < i + Z.of_nat k ->
                  at_index (G (opt s')) j = at_index (G (opt s)) j).
Proof.
  induction k as [| k IH]; intros i s s' t Hrun.
  - inversion Hrun; subst. split; [reflexivity |].
    split; intros j Hj; [lia | reflexivity].
  - cbn [for_count] in Hrun.
    apply bind_Ret_inv in Hrun as ([] & s1 & t1 & r1 & Hbody & Hrest & ->).
    apply bind_Ret_inv in Hbody as (v & s2 & t2 & r2 & Hread & Hstore & ->).
    apply defined_Ret_inv in Hread as (Hv & -> & ->).
    apply store_opt_Ret_inv in Hstore as (Hi & -> & ->).
    destruct (IH _ _ _ _ Hrest) as (Hlen & Hin & Hout).
    cbn in Hlen, Hout. rewrite length_set_nth in Hlen.
    split; [exact Hlen |]. split.
    + intros j Hj. destruct (Z.eq_dec i j) as [<- | Hne].
      * rewrite Hout by lia. rewrite at_index_set_nth_same by lia.
        rewrite Hv. split; [reflexivity | discriminate].
      * apply Hin. lia.
    + intros j Hj. rewrite Hout by lia.
      apply at_index_set_nth_other; lia.
Qed.

(** X6: on every state of the records, [UserG] changes nothing but the
    constraint values [opt.G], whatever its outcome; when it returns, it has
    computed the fitness of the problem once, at the vector of the [dim] cells
    read from [opt.X], the array [G] has kept its length, and its cell [i]
    holds the component [i + 1] of that fitness for every [i] below the number
    of constraints of the problem: the equality constraints first, in the
    order of the fitness vector. *)
Theorem UserG_writes_constraints (pop : population H) (s s' : St)
    (o : Outcome unit) (t : Trace) :
  UserG H pop s = (o, s', t) ->
  let prob := get_problem H pop in
  same_but_G s s'
  /\ (o = Ret tt ->
      exists x f,
        read_array (X (opt s)) (get_nx prob) = Some x
        /\ fitness prob x = inr f
        /\ t = [EvUserG; EvFitness x]
        /\ List.length (G (opt s')) = List.length (G (opt s))
        /\ forall i, 0 <= i < get_nc prob ->
                     at_index (G (opt s')) i = at_index f (i + 1)
                     /\ at_index f (i + 1) <> None).
Proof.
  intros Hrun prob. split.
  - repeat split;
      match goal with
      | |- ?p s' = ?p s => apply (UserG_keeps p pop (fun _ _ => eq_refl) _ _ _ _ Hrun)
      | |- ?p (opt s') = ?p (opt s) =>
          apply (UserG_keeps (fun r => p (opt r)) pop (fun _ _ => eq_refl) _ _ _ _ Hrun)
      end.
  - intros ->. unfold UserG in Hrun. fold prob in Hrun.
    apply bind_Ret_inv in Hrun as ([] & s1 & t1 & r1 & He & Hrun & ->).
    inversion He; subst. clear He.
    apply bind_Ret_inv in Hrun as (s0 & s2 & t2 & r2 & Hget & Hrun & ->).
    inversion Hget; subst. clear Hget.
    apply bind_Ret_inv in Hrun as (x & s3 & t3 & r3 & Hx & Hrun & ->).
    apply defined_Ret_inv in Hx as (Hx & -> & ->).
    apply bind_Ret_inv in Hrun as ([] & s4 & t4 & r4 & He & Hrun & ->).
    inversion He; subst. clear He.
    apply bind_Ret_inv in Hrun as (f & s5 & t5 & r5 & Hf & Hloop & ->).
    apply host_Ret_inv in Hf as (Hf & -> & ->).
    assert (r5 = []) as ->
      by (apply silent_nil; eapply copy_to_G_silent; exact Hloop).
    unfold for_range in Hloop.
    apply copy_to_G_inv in Hloop as (Hlen & Hin & _).
    exists x, f. split; [exact Hx |]. split; [exact Hf |].
    split; [reflexivity |]. split; [exact Hlen |].
    intros i Hi. apply Hin. lia.
Qed.

End Constraints.

(** X6 at the records of the test run: the constraint values become
    (-1, 4), the components 1 and 2 of the fitness (7, -1, 4) at (3, 4). *)
Lemma UserG_writes_constraints_witness :
  let H := Mock.host_of Mock.prob_2d in
  let s := set_opt Mock.started (set_G (opt Mock.started) [0%float; 0%float]) in
  UserG H Mock.pop_2d s
  = (Ret tt, Mock.started, [EvUserG; EvFitness [3%float; 4%float]])
  /\ same_but_G s Mock.started
  /\ G (opt Mock.started) = [(-1)%float; 4%float]
  /\ (forall i, 0 <= i < 2 ->
                at_index (G (opt Mock.started)) i
                = at_index [7%float; (-1)%float; 4%float] (i + 1)).
Proof.
  intros H s.
  assert (Hrun : UserG H Mock.pop_2d s
                 = (Ret tt, Mock.started, [EvUserG; EvFitness [3%float; 4%float]]))
    by (vm_compute; reflexivity).
  destruct (UserG_writes_constraints H Mock.pop_2d s _ _ _ Hrun)
    as (Hframe & Heffect).
  destruct (Heffect eq_refl) as (x & f & Hx & Hf & _ & _ & Hcells).
  vm_compute in Hx. inversion Hx; subst x.
  vm_compute in Hf. inversion Hf; subst f.
  split; [exact Hrun |]. split; [exact Hframe |]. split; [reflexivity |].
  intros i Hi. apply (Hcells i). exact Hi.
Defined.

(** ** The starting point *)

Section InitialValues.

Context {Opaque : Type}.

Local Abbreviation St := (Records Opaque).

(** A loop that copies [src i] to the cell [i] of one array of [opt]. *)
Lemma copy_loop (arr : OptVar Opaque -> list double)
    (upd : OptVar Opaque -> list double -> OptVar Opaque)
    (src : Z -> option double) (k : Z) (s : St) :
  (forall o a, arr (upd o a) = a) ->
  (forall o a b, upd (upd o a) b = upd o b) ->
  (forall o, upd o (arr o) = o) ->
  0 <= k <= Z.of_nat (List.length (arr (opt s))) ->
  (forall i, 0 <= i < k -> src i <> None) ->
  exists a,
    for_range 0 k (fun i => v <- defined (src i) ;; store_opt arr upd i v) s
    = (Ret tt, set_opt s (upd (opt s) a), [])
    /\ List.length a = List.length (arr (opt s))
    /\ (forall j, 0 <= j < k -> at_index a j = src j)
    /\ (forall j, ~ 0 <= j < k -> at_index a j = at_index (arr (opt s)) j).
Proof.
  intros Hget Hset Heta Hk Hsrc.
  pose (Inv := fun (i : Z) (s1 : St) =>
    exists a,
      s1 = set_opt s (upd (opt s) a)
      /\ List.length a = List.length (arr (opt s))
      /\ (forall j, 0 <= j < i -> at_index a j = src j)
      /\ (forall j, ~ 0 <= j < i -> at_index a j = at_index (arr (opt s)) j)).
  destruct (for_range_rule Inv
              (fun i => v <- defined (src i) ;; store_opt arr upd i v) 0 k s)
    as (s' & Hrun & a & -> & Hlen & Hin & Hout).
  - lia.
  - intros i s1 Hi (a & -> & Hlen & Hin & Hout).
    destruct (src i) as [v |] eqn:Hv; [| exfalso; apply (Hsrc i); assumption].
    eexists. split.
    + erewrite bind_silent by reflexivity.
      apply store_opt_in_range. cbn. rewrite Hget. lia.
    + exists (set_nth a (Z.to_nat i) v). cbn. rewrite Hget, Hset.
      split; [reflexivity |]. rewrite length_set_nth. split; [exact Hlen |].
      split.
      * intros j Hj. destruct (Z.eq_dec i j) as [<- | Hne].
        -- rewrite at_index_set_nth_same by lia. symmetry. exact Hv.
        -- rewrite at_index_set_nth_other by lia. apply Hin. lia.
      * intros j Hj. rewrite at_index_set_nth_other by lia. apply Hout. lia.
  - exists (arr (opt s)). rewrite Heta, set_opt_eta.
    split; [reflexivity |]. split; [reflexivity |].
    split; [intros j Hj; lia | reflexivity].
  - exists a. auto.
Qed.

Lemma at_index_tl {A : Type} (l : list A) (j : Z) :
  0 <= j -> at_index (tl l) j = at_index l (j + 1).
Proof.
  intros Hj. unfold at_index.
  destruct (Z.ltb_spec j 0); [lia |]. destruct (Z.ltb_spec (j + 1) 0); [lia |].
  replace (Z.to_nat (j + 1)) with (S (Z.to_nat j)) by lia.
  destruct l; [destruct (Z.to_nat j) |]; reflexivity.
Qed.

(** X7: on records whose arrays [X] and [G] have the lengths [opt.n] and
    [opt.m], with a selected individual whose decision vector has [opt.n]
    components and whose fitness has [opt.m + 1], [set_initial_values] returns
    without a call to anything, and afterwards [opt.X] is the decision vector,
    [opt.F] the product of [wsp.ScaleObj] and the objective, [opt.G] the
    constraint values in the order of the fitness vector; nothing else has
    changed. *)
Theorem set_initial_values_seeds (x0 f0 : vector_double) (s : St) :
  Z.of_nat (List.length x0) = n (opt s) ->
  Z.of_nat (List.length (X (opt s))) = n (opt s) ->
  Z.of_nat (List.length f0) = m (opt s) + 1 ->
  Z.of_nat (List.length (G (opt s))) = m (opt s) ->
  exists s' f0_0,
    set_initial_values x0 f0 s = (Ret tt, s', [])
    /\ at_index f0 0 = Some f0_0
    /\ X (opt s') = x0
    /\ F (opt s') = PrimFloat.mul (ScaleObj (wsp s)) f0_0
    /\ G (opt s') = tl f0
    /\ same_but_point s s'.
Proof.
  intros Hx0 HX Hf0 HG.
  destruct (at_index_in_range f0 0 ltac:(lia)) as (f0_0 & H0).
  unfold set_initial_values.
  rewrite (bind_silent get _ s s s eq_refl).
  destruct (copy_loop X set_X (at_index x0) (n (opt s)) s)
    as (a & Hrun1 & Hla & Hina & _).
  { reflexivity. } { reflexivity. } { intros []; reflexivity. } { lia. }
  { intros i Hi. destruct (at_index_in_range x0 i ltac:(lia)) as (v & ->).
    discriminate. }
  rewrite (bind_silent _ _ _ _ _ Hrun1).
  assert (a = x0) as ->.
  { apply at_index_ext; [lia |]. intros i Hi. apply Hina. lia. }
  rewrite H0.
  erewrite bind_silent by reflexivity.
  erewrite bind_silent by reflexivity.
  erewrite bind_silent by reflexivity.
  match goal with |- context [for_range 0 _ _ ?s2] =>
    destruct (copy_loop G set_G (fun i => at_index f0 (i + 1)) (m (opt s)) s2)
      as (g & Hrun2 & Hlg & Hing & _)
  end.
  { reflexivity. } { reflexivity. } { intros []; reflexivity. } { cbn. lia. }
  { intros i Hi. destruct (at_index_in_range f0 (i + 1) ltac:(lia)) as (v & ->).
    discriminate. }
  cbn in Hlg.
  assert (g = tl f0) as ->.
  { apply at_index_ext.
    - rewrite Hlg. destruct f0; cbn in *; lia.
    - intros i Hi. rewrite at_index_tl by lia. apply Hing. lia. }
  eexists. exists f0_0. split; [exact Hrun2 |].
  split; [reflexivity |]. cbn. repeat split.
Qed.

End InitialValues.

(** X7 at the records [WorhpInit] leaves and the first individual of the
    test population. *)
Lemma set_initial_values_seeds_witness :
  exists s' f0_0,
    set_initial_values [3%float; 4%float] [7%float; (-1)%float; 4%float]
      Mock.allocated
    = (Ret tt, s', [])
    /\ at_index [7%float; (-1)%float; 4%float] 0 = Some f0_0
    /\ X (opt s') = [3%float; 4%float]
    /\ F (opt s') = PrimFloat.mul (ScaleObj (wsp Mock.allocated)) f0_0
    /\ G (opt s') = tl [7%float; (-1)%float; 4%float]
    /\ same_but_point Mock.allocated s'.
Proof.
  apply (set_initial_values_seeds [3%float; 4%float]
           [7%float; (-1)%float; 4%float] Mock.allocated); reflexivity.
Defined.

(** ** Runs of [evolve] on the test doubles *)

(** C2 on the scripted solver: a run that replaces the first individual by
    the point (1, 1), whose objective 2 is below 7, and a run on a population
    whose individual, of objective 0, stays.  In the first run the loop leaves
    (1, 1) in [opt.X], and that is the point read back. *)
Lemma evolve_reinserts_if_better_witness :
  (exists pop' s_end t,
      Mock.run Mock.prob_2d 1000 default_worhp_library Mock.pop_2d 10
      = (Ret pop', s_end, t)
      /\ pop' = [([1%float; 1%float], [2%float; 0%float; 1%float]);
                 ([0%float; 0%float], [0%float; 0%float; 0%float])]
      /\ exists s_loop t_loop x_final f_final better,
          rc_loop Mock.header (Mock.host_of Mock.prob_2d) (Mock.capability 1000)
            Mock.pop_2d 10 Mock.started
          = (Ret tt, s_loop, t_loop)
          /\ X (opt s_loop) = [1%float; 1%float]
          /\ x_final = [1%float; 1%float]
          /\ fitness Mock.prob_2d x_final = inr f_final
          /\ compare_fc (Mock.host_of Mock.prob_2d) f_final
               [7%float; (-1)%float; 4%float] 1 [0.5%float; 0.5%float]
             = inr better
          /\ count is_Replace t = (if better then 1 else 0)%nat)
  /\ (exists s_end t,
         Mock.run Mock.prob_2d 1000 default_worhp_library Mock.pop_optimal 10
         = (Ret Mock.pop_optimal, s_end, t)
         /\ count is_Replace t = O).
Proof.
  split.
  - eassert (Hrun : evolve Mock.header (Mock.file_system 1000)
                      (Mock.host_of Mock.prob_2d)
                      (Mock.algorithm Mock.prob_2d false default_worhp_library)
                      Mock.pop_2d 10 Mock.garbage
                    = (Ret _, _, _)) by (vm_compute; reflexivity).
    destruct (evolve_reinserts_if_better Mock.header (Mock.file_system 1000)
                (Mock.host_of Mock.prob_2d)
                (Mock.algorithm Mock.prob_2d false default_worhp_library)
                Mock.pop_2d _ 10%nat Mock.garbage _ _ Hrun)
      as (cap & x0 & f0 & s_setup & s_loop & t_load & t_setup & t_loop
          & t_before & x_final & f_final & better
          & Hload & Hsetup & Hsel & Hloop & _ & _ & Hlen & Hin & _ & Hfit & Hcmp
          & _ & _ & _ & _ & Hcount).
    eassert (Hl : load_library (Mock.file_system 1000) (Mock.host_of Mock.prob_2d)
                    (Mock.algorithm Mock.prob_2d false default_worhp_library)
                    Mock.garbage
                  = (Ret (Mock.capability 1000), Mock.garbage, _))
      by (vm_compute; reflexivity).
    rewrite Hl in Hload. injection Hload as Hcap _. subst cap.
    rewrite setup_on_garbage in Hsetup. injection Hsetup as Hf0 Hs. subst f0 s_setup.
    eassert (Hr : rc_loop Mock.header (Mock.host_of Mock.prob_2d)
                    (Mock.capability 1000) Mock.pop_2d 10 Mock.started
                  = (Ret tt, _, _)) by (vm_compute; reflexivity).
    assert (Hs : X (opt s_loop) = [1%float; 1%float] /\ n (opt s_loop) = 2).
    { rewrite Hr in Hloop. injection Hloop as Hs _. subst s_loop.
      split; reflexivity. }
    destruct Hs as (HX & Hn).
    assert (Hx : x_final = [1%float; 1%float]).
    { apply at_index_ext; [exact Hlen |].
      intros i Hi. rewrite <- HX. apply Hin. rewrite Hn.
      rewrite Hlen in Hi. exact Hi. }
    eexists. eexists. eexists. split; [exact Hrun |].
    split; [reflexivity |].
    exists s_loop, t_loop, x_final, f_final, better.
    split; [exact Hloop |]. split; [exact HX |]. split; [exact Hx |].
    split; [exact Hfit |]. split; [exact Hcmp |]. exact Hcount.
  - eexists. eexists. split; [vm_compute; reflexivity |]. reflexivity.
Defined.

(** C4 on the scripted solver: a run whose loop ends on the success
    terminal and a run whose loop ends on the error terminal; both end with
    [StatusMsg] and [WorhpFree], each called once. *)
Lemma evolve_teardown_on_return_witness :
  (exists pop' s_end t t',
      Mock.run Mock.prob_2d 1000 default_worhp_library Mock.pop_2d 10
      = (Ret pop', s_end, t)
      /\ status (cnt s_end) = TerminateSuccess Mock.header
      /\ t = t' ++ [EvStatusMsg; EvWorhpFree]
      /\ count is_teardown_event t' = O
      /\ count is_StatusMsg t = 1%nat
      /\ count is_WorhpFree t = 1%nat)
  /\ (exists pop' s_end t t',
         Mock.run Mock.prob_2d (-1000) default_worhp_library Mock.pop_2d 10
         = (Ret pop', s_end, t)
         /\ status (cnt s_end) = TerminateError Mock.header
         /\ t = t' ++ [EvStatusMsg; EvWorhpFree]
         /\ count is_teardown_event t' = O
         /\ count is_StatusMsg t = 1%nat
         /\ count is_WorhpFree t = 1%nat).
Proof.
  split.
  - eassert (Hrun : evolve Mock.header (Mock.file_system 1000)
                      (Mock.host_of Mock.prob_2d)
                      (Mock.algorithm Mock.prob_2d false default_worhp_library)
                      Mock.pop_2d 10 Mock.garbage
                    = (Ret _, _, _)) by (vm_compute; reflexivity).
    destruct (evolve_teardown_on_return Mock.header (Mock.file_system 1000)
                (Mock.host_of Mock.prob_2d)
                (Mock.algorithm Mock.prob_2d false default_worhp_library)
                Mock.pop_2d _ 10%nat Mock.garbage _ _ Hrun)
      as (t' & Ht & Hnone & H1 & H2).
    eexists. eexists. eexists. exists t'. split; [exact Hrun |].
    split; [reflexivity |]. auto.
  - eassert (Hrun : evolve Mock.header (Mock.file_system (-1000))
                      (Mock.host_of Mock.prob_2d)
                      (Mock.algorithm Mock.prob_2d false default_worhp_library)
                      Mock.pop_2d 10 Mock.garbage
                    = (Ret _, _, _)) by (vm_compute; reflexivity).
    destruct (evolve_teardown_on_return Mock.header (Mock.file_system (-1000))
                (Mock.host_of Mock.prob_2d)
                (Mock.algorithm Mock.prob_2d false default_worhp_library)
                Mock.pop_2d _ 10%nat Mock.garbage _ _ Hrun)
      as (t' & Ht & Hnone & H1 & H2).
    eexists. eexists. eexists. exists t'. split; [exact Hrun |].
    split; [reflexivity |]. auto.
Defined.

(** C4 as the claim states it fails: when the fitness of the problem throws
    in the first objective evaluation of the loop, and when it throws in the
    evaluation that follows the loop, [evolve] ends with that exception and
    has called neither [StatusMsg] nor [WorhpFree]. *)
Lemma evolve_exception_skips_teardown :
  (exists s_end,
      Mock.run Mock.prob_failing 1000 default_worhp_library Mock.pop_2d 10
      = (Throw Mock.host_failure, s_end,
         [EvLock; EvIsRegularFile default_worhp_library;
          EvSharedLibrary default_worhp_library;
          EvImport "WorhpPreInit"; EvImport "WorhpInit"; EvImport "ReadParams";
          EvImport "GetUserAction"; EvImport "DoneUserAction";
          EvImport "IterationOutput"; EvImport "Worhp"; EvImport "StatusMsg";
          EvImport "WorhpFree"; EvImport "WorhpFidif"; EvUnlock;
          EvWorhpPreInit; EvReadParams "param.xml"; EvWorhpInit; EvSelect;
          EvStatus 1;
          EvGetUserAction callWorhp true; EvWorhp;
          EvGetUserAction iterOutput false;
          EvGetUserAction evalF true; EvUserF; EvFitness [3%float; 4%float]]))
  /\ (exists s_end t,
         Mock.run Mock.prob_failing_at_end 1000 default_worhp_library Mock.pop_2d 10
         = (Throw Mock.host_failure, s_end,
            t ++ [EvStatus 1000; EvFitness [1%float; 1%float]])
         /\ status (cnt s_end) = 1000
         /\ count is_StatusMsg (t ++ [EvStatus 1000; EvFitness [1%float; 1%float]]) = O
         /\ count is_WorhpFree (t ++ [EvStatus 1000; EvFitness [1%float; 1%float]]) = O).
Proof.
  split.
  - eexists. vm_compute. reflexivity.
  - eexists.
    exists (firstn 51
              (snd (Mock.run Mock.prob_failing_at_end 1000 default_worhp_library
                      Mock.pop_2d 10))).
    split; [vm_compute; reflexivity |].
    split; [reflexivity |].
    split; vm_compute; reflexivity.
Qed.

(** C8, the code at a problem whose tolerances are (0.5, 0.5): the run
    returns, and the part of the parameter record that holds the feasibility
    tolerance of the solver is what [WorhpPreInit] put there; the tolerances
    of the problem went to [compare_fc] only. *)
Theorem evolve_leaves_feasibility_tolerance :
  get_c_tol Mock.prob_2d = [0.5%float; 0.5%float]
  /\ exists pop' s_end t,
      Mock.run Mock.prob_2d 1000 default_worhp_library Mock.pop_2d 10
      = (Ret pop', s_end, t)
      /\ par_rest (par s_end) = par_rest (par (Mock.pre_init Mock.garbage))
      /\ par_rest (par s_end) = Mock.TolFeas 0.0009765625%float.
Proof.
  split; [reflexivity |].
  eexists. eexists. eexists. vm_compute. repeat split.
Qed.

(** X1 on the test doubles. *)
Lemma setup_par_witness :
  par Mock.started
  = set_derivative_free
      (par (WorhpInit (Mock.capability 1000)
              (before_WorhpInit Mock.header (Mock.capability 1000)
                 Mock.prob_2d Mock.garbage))).
Proof.
  exact (setup_par Mock.header (Mock.host_of Mock.prob_2d)
           (Mock.algorithm Mock.prob_2d false default_worhp_library)
           (Mock.capability 1000) Mock.pop_2d Mock.garbage Mock.started
           _ _ setup_on_garbage).
Defined.

(** X3 on the test doubles, at a population from which nothing can be
    selected: the three calls of the initialisation were made all the same. *)
Lemma setup_calls_witness :
  exists e s',
    setup Mock.header (Mock.host_of Mock.prob_2d)
      (Mock.algorithm Mock.prob_2d false default_worhp_library)
      (Mock.capability 1000) [] Mock.garbage
    = (Throw e, s',
       [EvWorhpPreInit; EvReadParams "param.xml"; EvWorhpInit; EvSelect]).
Proof.
  eassert (Hrun : setup Mock.header (Mock.host_of Mock.prob_2d)
                    (Mock.algorithm Mock.prob_2d false default_worhp_library)
                    (Mock.capability 1000) [] Mock.garbage
                  = (Throw _, _, _))
    by (vm_compute; reflexivity).
  eexists. eexists. etransitivity; [exact Hrun |].
  apply (f_equal2 pair); [reflexivity |].
  exact (setup_calls Mock.header (Mock.host_of Mock.prob_2d) _ _ _ _ _ _ _ Hrun).
Defined.

(** X5 on the test doubles: the library at the default path; what comes
    back as [StatusMsg] and as [WorhpFree] is what the library exports under
    these names. *)
Lemma load_symbols_succeeds_witness :
  exists cap,
    load_symbols (Mock.file_system 1000) (Mock.host_of Mock.prob_2d)
      (Mock.algorithm Mock.prob_2d false default_worhp_library) Mock.garbage
    = (Ret cap, Mock.garbage,
       EvLock :: loader_script default_worhp_library ++ [EvUnlock])
    /\ WorhpInit cap = Mock.init
    /\ WorhpFree cap = Mock.free
    /\ Worhp cap = Mock.step 1000.
Proof.
  destruct (load_symbols_succeeds (Mock.file_system 1000)
              (Mock.host_of Mock.prob_2d)
              (Mock.algorithm Mock.prob_2d false default_worhp_library)
              (Mock.library 1000 EmptyString) Mock.garbage
              eq_refl eq_refl eq_refl)
    as (cap & Hrun & _ & Hinit & _ & _ & _ & _ & Hstep & _ & Hfree & _).
  exists cap. split; [exact Hrun |].
  split; [| split].
  - cbn in Hinit. injection Hinit as Hinit. symmetry. exact Hinit.
  - cbn in Hfree. injection Hfree as Hfree. symmetry. exact Hfree.
  - cbn in Hstep. injection Hstep as Hstep. symmetry. exact Hstep.
Defined.

(** ** The mutex around the loading of the library *)

Section Mutex.

Context {Opaque : Type}.
Variable hdr : WorhpHeader.
Variable H : Host.

Local Abbreviation St := (Records Opaque).

(** *** One call: the loader runs inside one locked region *)

Lemma load_symbols_region (fs : FileSystem Opaque) (w : worhp H) (s s' : St)
    (o : Outcome (Capability Opaque)) (t : Trace) :
  load_symbols fs H w s = (o, s', t) ->
  exists body,
    t = EvLock :: body ++ [EvUnlock]
    /\ Forall (fun e => is_load_step e = true) body.
Proof.
  unfold load_symbols, lock_guard.
  match goal with |- context [?c s] => destruct (c s) as [[o1 s1] t1] eqn:Hbody end.
  intros Heq. inversion Heq; subst. exists t1. split; [reflexivity |].
  revert Hbody.
  match goal with |- ?c s = _ -> _ =>
    assert (Hc : emits_only (fun e => is_load_step e = true) c) end.
  { repeat first
      [ apply emits_only_bind; [| intros ?]
      | apply emits_only_if
      | apply emits_only_emit; reflexivity
      | apply emits_only_ret
      | apply emits_only_host
      | apply emits_only_throw
      | unfold import
      | unfold pagmo_throw ]. }
  intros Hbody. eapply Hc. exact Hbody.
Qed.

Lemma load_library_region (fs : FileSystem Opaque) (w : worhp H) (s s' : St)
    (o : Outcome (Capability Opaque)) (t : Trace) :
  load_library fs H w s = (o, s', t) ->
  exists body,
    t = EvLock :: body ++ [EvUnlock]
    /\ Forall (fun e => is_load_step e = true) body.
Proof.
  unfold load_library, try_catch.
  destruct (load_symbols fs H w s) as [[o1 s1] t1] eqn:Hload.
  destruct (load_symbols_region _ _ _ _ _ _ Hload) as (body & -> & Hbody).
  destruct o1; intros Heq; inversion Heq; subst; exists body;
    rewrite ?app_nil_r; auto.
Qed.

Lemma teardown_events (cap : Capability Opaque) :
  emits_only (fun e => is_loader_event e = false) (teardown cap).
Proof.
  intros s o s' t. rewrite teardown_run. intros Heq. inversion Heq.
  repeat constructor.
Qed.

Lemma run_solver_events (w : worhp H) (cap : Capability Opaque)
    (pop : population H) (fuel : nat) :
  emits_only (fun e => is_loader_event e = false) (run_solver hdr H w cap pop fuel).
Proof.
  unfold run_solver.
  apply emits_only_bind.
  { eapply emits_only_weaken; [| apply setup_events].
    intros e He. destruct e; try discriminate; reflexivity. }
  intros f0. apply emits_only_bind.
  { eapply emits_only_weaken; [| apply rc_loop_events].
    intros e He. destruct e; try discriminate; reflexivity. }
  intros _. apply emits_only_bind.
  { eapply emits_only_weaken; [| apply reinsert_events].
    intros e He. destruct e; try discriminate; reflexivity. }
  intros pop'. apply emits_only_bind; [apply teardown_events |].
  intros _. apply emits_only_ret.
Qed.

(** Whatever its outcome, a call of [evolve] either stops in the preamble,
    with no event, or takes the lock, checks the path, loads the library and
    binds the symbols, releases the lock, and from then on leaves the loader
    alone. *)
Lemma evolve_guarded (c : Call Opaque H) : guarded (trace_of hdr H c).
Proof.
  unfold trace_of, evolve.
  set (s := call_locals c). set (w := call_this c). set (pop := call_pop c).
  set (fs := call_fs c). set (fuel := call_fuel c).
  unfold bind at 1.
  destruct (check_problem H pop s) as [[o1 s1] t1] eqn:Hcheck.
  destruct (check_problem_silent H _ _ _ _ _ Hcheck) as (-> & ->).
  destruct o1 as [[] | e | |];
    try (cbn [snd]; apply guarded_none; constructor).
  unfold bind at 1.
  destruct (load_library fs H w s) as [[o2 s2] t2] eqn:Hload.
  destruct (load_library_region _ _ _ _ _ _ Hload) as (body & -> & Hbody).
  assert (Hstop : guarded ([] ++ EvLock :: body ++ [EvUnlock])).
  { cbn [app].
    change (EvLock :: body ++ [EvUnlock]) with (EvLock :: body ++ EvUnlock :: []).
    apply guarded_region; [exact Hbody | constructor]. }
  destruct o2 as [cap | e | |]; try exact Hstop.
  destruct (run_solver hdr H w cap pop fuel s2) as [[o3 s3] t3] eqn:Hrun.
  cbn [snd app].
  replace (EvLock :: (body ++ [EvUnlock]) ++ t3)
    with (EvLock :: body ++ EvUnlock :: t3)
    by (rewrite <- app_assoc; reflexivity).
  apply guarded_region; [exact Hbody |].
  eapply run_solver_events. exact Hrun.
Qed.

(** X4: whatever its outcome, a call of [evolve] that reaches the loader
    takes the lock first and releases it after the last step of the loader, by
    a return or by an exception, and touches neither the loader nor the mutex
    afterwards. *)
Theorem evolve_releases_lock (c : Call Opaque H) : guarded (trace_of hdr H c).
Proof. apply evolve_guarded. Qed.

(** *** Several calls: the locked regions do not overlap *)

Lemma after_region_not_locked (rest : Trace) :
  Forall (fun e => is_loader_event e = false) rest ->
  in_locked_region rest = false.
Proof.
  induction 1 as [| e rest He _ IH]; [reflexivity |].
  destruct e; try discriminate; exact IH.
Qed.

Lemma guarded_not_locked (script : Trace) :
  guarded script -> in_locked_region script = false.
Proof.
  intros [rest Hrest | body rest Hbody Hrest].
  - apply after_region_not_locked. exact Hrest.
  - reflexivity.
Qed.

Lemma region_locked (body rest : Trace) :
  Forall (fun e => is_load_step e = true) body ->
  in_locked_region (body ++ EvUnlock :: rest) = true.
Proof.
  induction 1 as [| e body He _ IH]; [reflexivity |].
  destruct e; try discriminate; exact IH.
Qed.

(** A thread whose next step is a step of the loader is inside its region. *)
Lemma load_step_inside (e : Event) (rest : Trace) :
  remaining (e :: rest) -> is_load_step e = true ->
  in_locked_region (e :: rest) = true /\ remaining rest.
Proof.
  intros Hrem He. inversion Hrem as [script Hg Heq | body rest' Hbody Hrest Heq].
  - inversion Hg as [r Hr Hr' | body r Hbody Hr Hr']; subst.
    + inversion Hr; subst. destruct e; discriminate.
    + discriminate.
  - destruct body as [| e' body'].
    + cbn in Heq. inversion Heq; subst. discriminate.
    + cbn in Heq. inversion Heq; subst. inversion Hbody; subst.
      split; [apply (region_locked (e :: body') rest'); exact Hbody |].
      apply remaining_region; assumption.
Qed.

Lemma pool_invariant_start (threads : nat -> Trace) :
  (forall i, guarded (threads i)) -> pool_invariant (start threads).
Proof.
  intros Hg. split; cbn.
  - intros i. apply remaining_guarded. apply Hg.
  - intros i Hin. rewrite guarded_not_locked in Hin by apply Hg. discriminate.
Qed.

Lemma pool_invariant_step (p p' : Pool) :
  pool_invariant p -> sched_step p p' -> pool_invariant p'.
Proof.
  intros (Hrem & Hhold) Hstep.
  destruct Hstep as [i rest Hi Hfree | i rest Hi Hown | i e rest Hi He].
  - (* the lock *)
    assert (Hrest : remaining rest /\ in_locked_region rest = true).
    { specialize (Hrem i). rewrite Hi in Hrem.
      inversion Hrem as [script Hg Heq | body rest' Hbody Hrest Heq].
      - inversion Hg as [r Hr Hr' | body r Hbody Hr Hr']; subst.
        + inversion Hr; subst. discriminate.
        + split; [apply remaining_region; assumption |].
          apply region_locked. exact Hbody.
      - destruct body as [| e' body']; cbn in Heq; inversion Heq; subst.
        inversion Hbody; subst. discriminate. }
    split; cbn.
    + intros j. destruct (Nat.eqb_spec j i); [apply Hrest | apply Hrem].
    + intros j. destruct (Nat.eqb_spec j i) as [-> | Hne]; [reflexivity |].
      intros Hin. apply Hhold in Hin. congruence.
  - (* the unlock *)
    assert (Hrest : Forall (fun e => is_loader_event e = false) rest).
    { specialize (Hrem i). rewrite Hi in Hrem.
      inversion Hrem as [script Hg Heq | body rest' Hbody Hrest Heq].
      - inversion Hg as [r Hr Hr' | body r Hbody Hr Hr']; subst.
        inversion Hr; subst. discriminate.
      - destruct body as [| e' body']; cbn in Heq; inversion Heq; subst.
        + exact Hrest.
        + inversion Hbody; subst. discriminate. }
    split; cbn.
    + intros j. destruct (Nat.eqb_spec j i); [| apply Hrem].
      apply remaining_guarded, guarded_none. exact Hrest.
    + intros j. destruct (Nat.eqb_spec j i) as [-> | Hne].
      * rewrite after_region_not_locked by exact Hrest. discriminate.
      * intros Hin. apply Hhold in Hin. congruence.
  - (* any other step *)
    assert (Hrest : remaining rest
                    /\ in_locked_region rest = in_locked_region (e :: rest)).
    { specialize (Hrem i). rewrite Hi in Hrem. split.
      - inversion Hrem as [script Hg Heq | body rest' Hbody Hrest Heq].
        + inversion Hg as [r Hr Hr' | body r Hbody Hr Hr']; subst.
          * inversion Hr; subst. apply remaining_guarded, guarded_none. assumption.
          * discriminate.
        + destruct body as [| e' body']; cbn in Heq; inversion Heq; subst.
          * discriminate.
          * inversion Hbody; subst. apply remaining_region; assumption.
      - destruct e; try discriminate; reflexivity. }
    destruct Hrest as (Hr & Hsame).
    split; cbn.
    + intros j. destruct (Nat.eqb_spec j i); [exact Hr | apply Hrem].
    + intros j. destruct (Nat.eqb_spec j i) as [-> | Hne].
      * rewrite Hsame, <- Hi. apply Hhold.
      * apply Hhold.
Qed.

Lemma pool_invariant_reachable (threads : nat -> Trace) (p : Pool) :
  (forall i, guarded (threads i)) ->
  reachable (start threads) p -> pool_invariant p.
Proof.
  intros Hg. induction 1 as [| p p' _ IH Hstep].
  - apply pool_invariant_start. exact Hg.
  - eapply pool_invariant_step; eassumption.
Qed.

(** C9: every call of [evolve] goes through the loader inside one region
    that starts with the lock of [library_load_mutex] and ends with its unlock,
    whatever the outcome of the loading; so, for any number of threads that
    call [evolve] and any order of their steps the mutex allows, a thread about
    to check the path, load the library or bind a symbol holds the mutex, no
    other thread is inside its region at that moment, and no two threads are
    ever inside their regions together. *)
Theorem library_load_serialized (calls : nat -> Call Opaque H) (p : Pool) :
  reachable (start (fun i => trace_of hdr H (calls i))) p ->
  (forall i, guarded (trace_of hdr H (calls i)))
  /\ (forall i e rest,
         scripts p i = e :: rest -> is_load_step e = true ->
         holder p = Some i
         /\ forall j, j <> i -> in_locked_region (scripts p j) = false)
  /\ (forall i j,
         in_locked_region (scripts p i) = true ->
         in_locked_region (scripts p j) = true -> i = j).
Proof.
  intros Hreach.
  assert (Hg : forall i, guarded (trace_of hdr H (calls i)))
    by (intros i; apply evolve_guarded).
  destruct (pool_invariant_reachable _ _ Hg Hreach) as (Hrem & Hhold).
  split; [exact Hg |]. split.
  - intros i e rest Hi He.
    assert (Hin : in_locked_region (scripts p i) = true).
    { rewrite Hi. apply load_step_inside; [| exact He].
      rewrite <- Hi. apply Hrem. }
    split; [apply Hhold; exact Hin |].
    intros j Hne. destruct (in_locked_region (scripts p j)) eqn:Hj; [| reflexivity].
    apply Hhold in Hj. apply Hhold in Hin. congruence.
  - intros i j Hi Hj. apply Hhold in Hi. apply Hhold in Hj. congruence.
Qed.

End Mutex.

(** C9 at a process whose thread 0 has taken the lock, with every other
    thread about to call [evolve]: the next step of thread 0 is the check of
    the path, it holds the mutex, and no other thread is inside its region. *)
Lemma library_load_serialized_witness :
  let threads :=
    fun i => trace_of Mock.header (Mock.host_of Mock.prob_2d) (Mock.calls i) in
  let p1 := take_step (start threads) 0 (tl (threads 0%nat)) (Some 0%nat) in
  reachable (start threads) p1
  /\ scripts p1 0%nat
     = EvIsRegularFile default_worhp_library :: tl (tl (threads 0%nat))
  /\ holder p1 = Some 0%nat
  /\ (forall j, j <> 0%nat -> in_locked_region (scripts p1 j) = false).
Proof.
  intros threads p1.
  assert (Hreach : reachable (start threads) p1).
  { apply reachable_step with (p := start threads); [apply reachable_start |].
    apply step_lock; [vm_compute; reflexivity | reflexivity]. }
  assert (Hnext : scripts p1 0%nat
                  = EvIsRegularFile default_worhp_library
                      :: tl (tl (threads 0%nat)))
    by (vm_compute; reflexivity).
  destruct (library_load_serialized Mock.header (Mock.host_of Mock.prob_2d)
              Mock.calls p1 Hreach) as (_ & Hser & _).
  destruct (Hser 0%nat _ _ Hnext eq_refl) as (Hh & Hothers).
  auto.
Defined.

(** ** The exceptions of [evolve] *)

(** A trace whose events all satisfy [q] holds no event of a kind [p]
    that excludes [q]. *)
Lemma count_disjoint (q p : Event -> bool) (t : Trace) :
  Forall (fun ev => q ev = true) t ->
  (forall ev, p ev = true -> q ev = false) ->
  count p t = O.
Proof.
  intros Ht Hp. apply count_none. eapply Forall_impl; [| exact Ht].
  intros ev Hev. destruct (p ev) eqn:Hpe; [| reflexivity].
  apply Hp in Hpe. congruence.
Qed.

Lemma bind_Throw_inv {St A B : Type} (c : M St A) (k : A -> M St B)
    (s s' : St) (e : Exn) (t : Trace) :
  bind c k s = (Throw e, s', t) ->
  c s = (Throw e, s', t)
  \/ exists a s1 t1 t2,
       c s = (Ret a, s1, t1) /\ k a s1 = (Throw e, s', t2) /\ t = t1 ++ t2.
Proof.
  unfold bind. destruct (c s) as [[[a | e1 | |] s1] t1]; try discriminate.
  - destruct (k a s1) as [[o s2] t2] eqn:Hk. intros Heq. inversion Heq; subst.
    right. exists a, s1, t1, t2. auto.
  - intros Heq. inversion Heq; subst. left. reflexivity.
Qed.

Section ThrowsOnly.

Context {St : Type} (P : Exn -> Prop).

Lemma throws_only_ret {A : Type} (a : A) : throws_only P (ret (St := St) a).
Proof. intros s e s' t Heq. discriminate. Qed.

Lemma throws_only_undefined {A : Type} :
  throws_only P (undefined (St := St) (A := A)).
Proof. intros s e s' t Heq. discriminate. Qed.

Lemma throws_only_out_of_fuel {A : Type} :
  throws_only P (out_of_fuel (St := St) (A := A)).
Proof. intros s e s' t Heq. discriminate. Qed.

Lemma throws_only_get : throws_only P (get (St := St)).
Proof. intros s e s' t Heq. discriminate. Qed.

Lemma throws_only_emit (ev : Event) : throws_only P (emit (St := St) ev).
Proof. intros s e s' t Heq. discriminate. Qed.

Lemma throws_only_defined {A : Type} (o : option A) :
  throws_only P (defined (St := St) o).
Proof. destruct o; intros s e s' t Heq; discriminate. Qed.

Lemma throws_only_host {A : Type} (r : Exn + A) :
  (forall e, r = inl e -> P e) -> throws_only P (host (St := St) r).
Proof.
  intros Hr s e s' t. destruct r as [e1 | a]; intros Heq; inversion Heq; subst.
  apply Hr. reflexivity.
Qed.

Lemma throws_only_bind {A B : Type} (c : M St A) (k : A -> M St B) :
  throws_only P c -> (forall a, throws_only P (k a)) -> throws_only P (bind c k).
Proof.
  intros Hc Hk s e s' t Hrun.
  apply bind_Throw_inv in Hrun as [Hrun | (a & s1 & t1 & t2 & _ & Hrun & _)].
  - eapply Hc. exact Hrun.
  - eapply Hk. exact Hrun.
Qed.

Lemma throws_only_if {A : Type} (b : bool) (c1 c2 : M St A) :
  throws_only P c1 -> throws_only P c2 -> throws_only P (if b then c1 else c2).
Proof. destruct b; auto. Qed.

Lemma throws_only_for_count (body : Z -> M St unit) :
  (forall i, throws_only P (body i)) ->
  forall k i, throws_only P (for_count k i body).
Proof.
  intros Hb k. induction k as [| c IH]; intros i; cbn.
  - apply throws_only_ret.
  - apply throws_only_bind; auto.
Qed.

Lemma throws_only_for_fold {B : Type} (body : Z -> B -> M St B) :
  (forall i acc, throws_only P (body i acc)) ->
  forall k i acc, throws_only P (for_fold k i body acc).
Proof.
  intros Hb k. induction k as [| c IH]; intros i acc; cbn.
  - apply throws_only_ret.
  - apply throws_only_bind; auto.
Qed.

End ThrowsOnly.

Section Failures.

Context {Opaque : Type}.
Variable hdr : WorhpHeader.
Variable fs : FileSystem Opaque.
Variable H : Host.

Local Abbreviation St := (Records Opaque).

Ltac throws_only_steps :=
  repeat first
    [ apply throws_only_ret
    | apply throws_only_get
    | apply throws_only_emit
    | apply throws_only_defined
    | apply throws_only_if
    | apply throws_only_for_count; intros ?
    | apply throws_only_for_fold; intros ? ?
    | apply throws_only_bind; [| intros ?]
    | (intros ? ? ? ? ?; discriminate) ].

Lemma read_array_length (a : list double) (k : Z) (x : vector_double) :
  read_array a k = Some x -> List.length x = Z.to_nat k.
Proof.
  unfold read_array.
  destruct (Z.leb_spec 0 k); [| discriminate].
  destruct (Z.leb_spec k (Z.of_nat (List.length a))); [| discriminate].
  cbn. intros Heq. inversion Heq. apply firstn_length_le. lia.
Qed.

Lemma UserF_throws (w : worhp H) (pop : population H) :
  throws_only (St := St) (raised_by_host H w pop) (UserF H pop).
Proof.
  intros s e s' t. rewrite UserF_run.
  destruct (read_array (X (opt s)) (get_nx (get_problem H pop))) as [x |] eqn:Hx;
    [| discriminate].
  destruct (fitness (get_problem H pop) x) as [e1 | f] eqn:Hf.
  - intros Heq. inversion Heq; subst.
    eapply raised_by_fitness; [eapply read_array_length; exact Hx | exact Hf].
  - destruct (at_index f 0); discriminate.
Qed.

Lemma UserG_throws (w : worhp H) (pop : population H) :
  throws_only (St := St) (raised_by_host H w pop) (UserG H pop).
Proof.
  intros s e s' t. unfold UserG. intros Hrun.
  apply bind_Throw_inv in Hrun
    as [He | ([] & s1 & t1 & r1 & He & Hrun & ->)]; [discriminate |].
  inversion He; subst. clear He.
  apply bind_Throw_inv in Hrun
    as [Hget | (s0 & s2 & t2 & r2 & Hget & Hrun & ->)]; [discriminate |].
  inversion Hget; subst. clear Hget.
  apply bind_Throw_inv in Hrun
    as [Hx | (x & s3 & t3 & r3 & Hx & Hrun & ->)].
  { exfalso. eapply (throws_only_defined (fun _ => False)). exact Hx. }
  apply defined_Ret_inv in Hx as (Hx & -> & ->).
  apply bind_Throw_inv in Hrun
    as [He | ([] & s4 & t4 & r4 & He & Hrun & ->)]; [discriminate |].
  inversion He; subst. clear He.
  apply bind_Throw_inv in Hrun
    as [Hfit | (f & s5 & t5 & r5 & Hfit & Hloop & ->)].
  - destruct (fitness (get_problem H pop) x) as [e1 | f] eqn:Hf;
      inversion Hfit; subst.
    eapply raised_by_fitness; [eapply read_array_length; exact Hx | exact Hf].
  - exfalso. revert Hloop.
    match goal with |- ?c _ = _ -> _ =>
      assert (Hc : throws_only (fun _ => False) c);
      [| intros Hloop; exact (Hc _ _ _ _ Hloop)]
    end.
    unfold for_range, store_opt, assign_opt. throws_only_steps.
Qed.

Lemma rc_turn_throws (w : worhp H) (cap : Capability Opaque) (pop : population H) :
  throws_only (raised_by_host H w pop) (rc_turn H cap pop).
Proof.
  unfold rc_turn.
  repeat first
    [ apply UserF_throws
    | apply UserG_throws
    | apply throws_only_ret
    | apply throws_only_if
    | apply throws_only_bind; [| intros ?]
    | (intros ? ? ? ? ?; discriminate) ].
Qed.

Lemma rc_loop_throws (w : worhp H) (cap : Capability Opaque) (pop : population H)
    (fuel : nat) :
  throws_only (raised_by_host H w pop) (rc_loop hdr H cap pop fuel).
Proof.
  induction fuel as [| fuel IH]; cbn [rc_loop];
    (apply throws_only_bind; [apply throws_only_get | intros s];
     apply throws_only_bind; [apply throws_only_emit | intros _];
     apply throws_only_if; [| apply throws_only_ret]).
  - apply throws_only_out_of_fuel.
  - apply throws_only_bind; [apply rc_turn_throws | intros _; exact IH].
Qed.

Lemma setup_throws (w : worhp H) (cap : Capability Opaque) (pop : population H) :
  throws_only (raised_by_host H w pop) (setup hdr H w cap pop).
Proof.
  unfold setup, init_records, set_initial_values, set_bounds, for_range,
    store_opt, assign_opt, assign_wsp, assign_par.
  repeat first
    [ apply throws_only_host; intros ? ?; apply raised_by_select; assumption
    | apply throws_only_ret
    | apply throws_only_get
    | apply throws_only_emit
    | apply throws_only_defined
    | apply throws_only_for_count; intros ?
    | apply throws_only_bind; [| intros ?]
    | (intros ? ? ? ? ?; discriminate) ].
Qed.

Lemma reinsert_throws (w : worhp H) (pop : population H) (x0 f0 : vector_double) :
  select_individual H (base w) pop = inr (x0, f0) ->
  throws_only (St := St) (raised_by_host H w pop) (reinsert H w pop f0).
Proof.
  intros Hsel s e s' t. unfold reinsert. intros Hrun.
  apply bind_Throw_inv in Hrun
    as [Hget | (s0 & s1 & t1 & r1 & Hget & Hrun & ->)]; [discriminate |].
  inversion Hget; subst. clear Hget.
  apply bind_Throw_inv in Hrun
    as [Hloop | (x_final & s2 & t2 & r2 & Hloop & Hrun & ->)].
  { exfalso. revert Hloop. unfold for_fold_range.
    match goal with |- ?c _ = _ -> _ =>
      assert (Hc : throws_only (fun _ => False) c);
      [| intros Hloop; exact (Hc _ _ _ _ Hloop)]
    end.
    throws_only_steps. }
  unfold for_fold_range in Hloop.
  apply read_back_loop in Hloop as (-> & -> & Hlen & _).
  rewrite repeat_length in Hlen.
  apply bind_Throw_inv in Hrun
    as [He | ([] & s3 & t3 & r3 & He & Hrun & ->)]; [discriminate |].
  inversion He; subst. clear He.
  apply bind_Throw_inv in Hrun
    as [Hfit | (f_final & s4 & t4 & r4 & Hfit & Hrun & ->)].
  { destruct (fitness (get_problem H pop) x_final) as [e1 | f] eqn:Hf;
      inversion Hfit; subst.
    eapply raised_by_fitness; [exact Hlen | exact Hf]. }
  apply host_Ret_inv in Hfit as (Hf & -> & ->).
  apply bind_Throw_inv in Hrun
    as [He | ([] & s5 & t5 & r5 & He & Hrun & ->)]; [discriminate |].
  inversion He; subst. clear He.
  apply bind_Throw_inv in Hrun
    as [Hcmp | (better & s6 & t6 & r6 & Hcmp & Hrun & ->)].
  { destruct (compare_fc H f_final f0 (get_nec (get_problem H pop))
                (get_c_tol (get_problem H pop))) as [e1 | b] eqn:Hc;
      inversion Hcmp; subst.
    eapply raised_by_compare; [exact Hf | exact Hsel | exact Hc]. }
  destruct better; [| discriminate].
  apply bind_Throw_inv in Hrun
    as [He | ([] & s7 & t7 & r7 & He & Hrun & ->)]; [discriminate |].
  destruct (replace_individual H (base w) pop x_final f_final) as [e1 | p] eqn:Hr;
    inversion Hrun; subst.
  eapply raised_by_replace; [exact Hlen | exact Hf | exact Hr].
Qed.

Lemma teardown_throws (P : Exn -> Prop) (cap : Capability Opaque) :
  throws_only P (teardown cap).
Proof. intros s e s' t. rewrite teardown_run. discriminate. Qed.

Lemma run_solver_throws (w : worhp H) (cap : Capability Opaque)
    (pop : population H) (fuel : nat) :
  throws_only (raised_by_host H w pop) (run_solver hdr H w cap pop fuel).
Proof.
  intros s e s' t. unfold run_solver. intros Hrun.
  apply bind_Throw_inv in Hrun
    as [Hsetup | (f0 & s1 & t1 & r1 & Hsetup & Hrun & ->)].
  { eapply setup_throws. exact Hsetup. }
  destruct (setup_inv _ _ _ _ _ _ _ _ _ Hsetup) as (x0 & Hsel).
  revert Hrun.
  match goal with |- ?c _ = _ -> _ =>
    assert (Hc : throws_only (raised_by_host H w pop) c);
    [| intros Hrun; exact (Hc _ _ _ _ Hrun)]
  end.
  apply throws_only_bind; [apply rc_loop_throws | intros _].
  apply throws_only_bind; [eapply reinsert_throws; exact Hsel | intros pop'].
  apply throws_only_bind; [apply teardown_throws | intros _].
  apply throws_only_ret.
Qed.

Lemma load_symbols_Throw_inv (w : worhp H) (e : Exn) (s s' : St) (t : Trace) :
  load_symbols fs H w s = (Throw e, s', t) ->
  load_failure fs H (m_worhp_library w) e.
Proof.
  unfold load_symbols, lock_guard, bind, emit, pagmo_throw, throw, ret, host, import.
  cbn.
  destruct (is_regular_file fs (m_worhp_library w)) eqn:Hfile; cbn;
    [| intros Heq; inversion Heq; subst; apply not_a_file; exact Hfile].
  destruct (shared_library fs (m_worhp_library w)) as [e0 | l] eqn:Hlib; cbn;
    [intros Heq; inversion Heq; subst; apply not_loadable; assumption |].
  unfold bind, emit, host, throw, ret.
  assert (Hm : forall e1, first_missing l = Some e1 ->
                          load_failure fs H (m_worhp_library w) e1)
    by (intros e1 He1; eapply missing_symbol; eassumption).
  revert Hm. unfold first_missing.
  repeat match goal with
         | |- context [failure ?r] =>
             destruct r as [? | ?]; cbn [failure first_some];
             [ cbn; intros Hm Heq; inversion Heq; subst; apply Hm; reflexivity | ]
         end.
  cbn. intros _ Heq. discriminate.
Qed.

(** The three places at which [evolve] can throw. *)
Lemma evolve_Throw_inv (w : worhp H) (pop : population H) (fuel : nat)
    (s s' : St) (e : Exn) (t : Trace) :
  evolve hdr fs H w pop fuel s = (Throw e, s', t) ->
  (check_problem H pop s = (Throw e, s', t) /\ s' = s /\ t = [])
  \/ (check_problem H pop s = (Ret tt, s, [])
      /\ exists e0,
          load_symbols fs H w s = (Throw e0, s, t)
          /\ e = {| kind := invalid_argument;
                    what := pagmo_throw_what H at_load_failed
                              (load_failed_message H w e0) |}
          /\ s' = s)
  \/ (check_problem H pop s = (Ret tt, s, [])
      /\ exists cap t_load t_run,
          load_library fs H w s = (Ret cap, s, t_load)
          /\ run_solver hdr H w cap pop fuel s = (Throw e, s', t_run)
          /\ t = t_load ++ t_run).
Proof.
  unfold evolve. intros Hrun.
  apply bind_Throw_inv in Hrun as [Hcheck | ([] & s1 & t1 & t2 & Hcheck & Hrun & ->)].
  { left. destruct (check_problem_silent H pop _ _ _ _ Hcheck) as (-> & ->). auto. }
  destruct (check_problem_silent H pop _ _ _ _ Hcheck) as (-> & ->).
  right. cbn [app].
  apply bind_Throw_inv in Hrun as [Hload | (cap & s2 & t_load & t_run & Hload & Hrun & ->)].
  - left. split; [exact Hcheck |]. revert Hload. unfold load_library, try_catch.
    destruct (load_symbols fs H w s) as [[[c | e0 | |] s3] t3] eqn:Hsym;
      try discriminate.
    assert (s3 = s) as -> by (eapply load_symbols_keeps_records; exact Hsym).
    unfold pagmo_throw, throw. intros Heq. inversion Heq; subst.
    exists e0. rewrite app_nil_r. auto.
  - right. split; [exact Hcheck |].
    destruct (load_library_Ret_inv _ _ _ _ _ _ _ Hload) as (_ & -> & _).
    exists cap, t_load, t_run. auto.
Qed.

Lemma check_problem_Throw_inv (pop : population H) (s s' : St) (e : Exn)
    (t : Trace) :
  check_problem H pop s = (Throw e, s', t) ->
  ~ suitable H pop /\ kind e = invalid_argument.
Proof.
  unfold check_problem, bind, pagmo_throw, throw, ret, suitable.
  destruct (Z.eqb_spec (get_nobj (get_problem H pop)) 1) as [Hobj | Hobj]; cbn.
  - destruct (is_stochastic (get_problem H pop)) eqn:Hsto; cbn.
    + intros Heq. inversion Heq. split; [| reflexivity].
      intros (_ & Hno & _). discriminate.
    + destruct (Z.eqb_spec (size H pop) 0) as [Hsz | Hsz]; cbn; [| discriminate].
      intros Heq. inversion Heq. split; [| reflexivity].
      intros (_ & _ & Hno). contradiction.
  - intros Heq. inversion Heq. split; [| reflexivity].
    intros (Hno & _). contradiction.
Qed.

Lemma check_problem_Ret_inv (pop : population H) (s s' : St) (t : Trace) :
  check_problem H pop s = (Ret tt, s', t) -> suitable H pop.
Proof.
  unfold check_problem, bind, pagmo_throw, throw, ret, suitable.
  destruct (Z.eqb_spec (get_nobj (get_problem H pop)) 1) as [Hobj | Hobj]; cbn;
    [| discriminate].
  destruct (is_stochastic (get_problem H pop)) eqn:Hsto; cbn; [discriminate |].
  destruct (Z.eqb_spec (size H pop) 0) as [Hsz | Hsz]; cbn; [discriminate |].
  auto.
Qed.

(** The trace of the set-up, whatever its outcome. *)
Lemma setup_trace_exact (w : worhp H) (cap : Capability Opaque)
    (pop : population H) (s s' : St) (o : Outcome vector_double) (t : Trace) :
  setup hdr H w cap pop s = (o, s', t) ->
  t = [EvWorhpPreInit; EvReadParams "param.xml"; EvWorhpInit; EvSelect].
Proof.
  unfold setup.
  rewrite (bind_Ret _ _ _ _ _ _ (init_records_run hdr cap (get_problem H pop) s)).
  match goal with |- context [bind (emit EvSelect) ?k ?s1] =>
    rewrite (bind_Ret (emit EvSelect) k s1 s1 tt [EvSelect] eq_refl);
    destruct (k tt s1) as [[o3 s3] t3] eqn:Hrest
  end.
  assert (t3 = []) as ->.
  { apply silent_nil. revert Hrest.
    match goal with |- ?c ?s1 = _ -> _ =>
      assert (Hc : emits_only silent c) end.
    { apply emits_only_bind; [apply emits_only_host | intros sel].
      apply emits_only_bind; [apply set_initial_values_silent | intros _].
      apply emits_only_bind; [apply set_bounds_silent | intros _].
      apply emits_only_ret. }
    intros Hrest. eapply Hc. exact Hrest. }
  intros Heq. inversion Heq. reflexivity.
Qed.

(** What the solver phase has done when it throws: the set-up, and then
    steps of the loop and of the reinsertion only. *)
Lemma run_solver_Throw_trace (w : worhp H) (cap : Capability Opaque)
    (pop : population H) (fuel : nat) (s s' : St) (e : Exn) (t : Trace) :
  run_solver hdr H w cap pop fuel s = (Throw e, s', t) ->
  exists t_rest,
    t = [EvWorhpPreInit; EvReadParams "param.xml"; EvWorhpInit; EvSelect] ++ t_rest
    /\ Forall (fun ev => is_loop_event ev = true \/ is_reinsert_event ev = true)
         t_rest.
Proof.
  unfold run_solver. intros Hrun.
  apply bind_Throw_inv in Hrun
    as [Hsetup | (f0 & s1 & t1 & r1 & Hsetup & Hrun & ->)].
  { apply setup_trace_exact in Hsetup as ->. exists []. split; [reflexivity |].
    constructor. }
  apply setup_trace_exact in Hsetup as ->.
  assert (Hl : forall s2 t2 (c : Outcome unit),
             rc_loop hdr H cap pop fuel s1 = (c, s2, t2) ->
             Forall (fun ev => is_loop_event ev = true \/ is_reinsert_event ev = true) t2).
  { intros s2 t2 c Hc. eapply Forall_impl; [| eapply rc_loop_events; exact Hc].
    intros ev Hev. left. exact Hev. }
  assert (Hr : forall (s2 s3 : St) t3 (c : Outcome (population H)),
             reinsert H w pop f0 s2 = (c, s3, t3) ->
             Forall (fun ev => is_loop_event ev = true \/ is_reinsert_event ev = true) t3).
  { intros s2 s3 t3 c Hc. eapply Forall_impl; [| eapply reinsert_events; exact Hc].
    intros ev Hev. right. exact Hev. }
  apply bind_Throw_inv in Hrun
    as [Hloop | ([] & s2 & t2 & r2 & Hloop & Hrun & ->)].
  { exists r1. split; [reflexivity |]. eapply Hl; eauto. }
  apply bind_Throw_inv in Hrun
    as [Hre | (pop' & s3 & t3 & r3 & Hre & Hrun & ->)].
  { exists (t2 ++ r2). split; [reflexivity |]. apply Forall_app. split.
    - eapply Hl; eauto.
    - eapply Hr; eauto. }
  exfalso. revert Hrun.
  rewrite (bind_Ret _ _ _ _ _ _ (teardown_run cap s3)). discriminate.
Qed.

(** X8: every exception that leaves [evolve] is one of three.  It is the
    [invalid_argument] of the preamble, raised on a problem or a population
    that does not suit the algorithm, before anything was done.  Or it is the
    [invalid_argument] of the catch clause, whose text is the explanation of
    the causes followed by the text of the exception [e0] of the failed load;
    the records are untouched.  Or the library was loaded and [e] is an
    exception thrown by a call to the host: the selection of the individual, a
    fitness evaluation at a vector of the dimension of the problem, the
    comparison of a fitness the problem returned with that of the selected
    individual, or the replacement.  It leaves [evolve] as it was thrown,
    neither wrapped nor replaced.  The solver's routines and the driver's own
    steps throw nothing. *)
Theorem evolve_exception_origin (w : worhp H) (pop : population H) (fuel : nat)
    (s s' : St) (e : Exn) (t : Trace) :
  evolve hdr fs H w pop fuel s = (Throw e, s', t) ->
  (~ suitable H pop /\ kind e = invalid_argument /\ s' = s /\ t = [])
  \/ (suitable H pop
      /\ exists e0,
          load_failure fs H (m_worhp_library w) e0
          /\ e = {| kind := invalid_argument;
                    what := pagmo_throw_what H at_load_failed
                              (load_failed_head ++ m_worhp_library w
                               ++ load_failed_tail ++ what e0) |}
          /\ s' = s)
  \/ (suitable H pop
      /\ (exists cap t_load, load_library fs H w s = (Ret cap, s, t_load))
      /\ raised_by_host H w pop e).
Proof.
  intros Hrun.
  apply evolve_Throw_inv in Hrun
    as [(Hcheck & -> & ->)
       | [(Hcheck & e0 & Hsym & -> & ->)
         | (Hcheck & cap & t_load & t_run & Hload & Hrun & ->)]].
  - left. apply check_problem_Throw_inv in Hcheck as (Hno & Hk). auto.
  - right. left. split; [eapply check_problem_Ret_inv; exact Hcheck |].
    exists e0. split; [eapply load_symbols_Throw_inv; exact Hsym |].
    split; reflexivity.
  - right. right. split; [eapply check_problem_Ret_inv; exact Hcheck |].
    split; [eauto |]. eapply run_solver_throws. exact Hrun.
Qed.

(** X9: on no path that ends with an exception does [evolve] call
    [StatusMsg] or [WorhpFree]; and when any routine of the solver was called
    before the exception, [WorhpInit] is among them, called once: what it
    allocated is not released. *)
Theorem evolve_exception_no_teardown (w : worhp H) (pop : population H)
    (fuel : nat) (s s' : St) (e : Exn) (t : Trace) :
  evolve hdr fs H w pop fuel s = (Throw e, s', t) ->
  count is_teardown_event t = O
  /\ (count is_solver_call t <> O -> count is_WorhpInit t = 1%nat).
Proof.
  intros Hrun.
  apply evolve_Throw_inv in Hrun
    as [(Hcheck & -> & ->)
       | [(Hcheck & e0 & Hsym & -> & ->)
         | (Hcheck & cap & t_load & t_run & Hload & Hrun & ->)]].
  - split; [reflexivity |]. intros Hno. contradiction Hno. reflexivity.
  - assert (Hl : Forall (fun ev => is_loader_event ev = true) t)
      by (eapply load_symbols_trace; exact Hsym).
    split.
    + apply (count_disjoint is_loader_event _ t Hl).
      intros ev Hev. destruct ev; try discriminate; reflexivity.
    + intros Hno. contradiction Hno.
      apply (count_disjoint is_loader_event _ t Hl).
      intros ev Hev. destruct ev; try discriminate; reflexivity.
  - assert (Hl : Forall (fun ev => is_loader_event ev = true) t_load)
      by apply (load_library_Ret_inv _ _ _ _ _ _ _ Hload).
    apply run_solver_Throw_trace in Hrun as (t_rest & -> & Hrest).
    assert (Hnone : forall p,
               (forall ev, p ev = true ->
                           is_loop_event ev = false /\ is_reinsert_event ev = false) ->
               count p t_rest = O).
    { intros p Hp. apply count_none. eapply Forall_impl; [| exact Hrest].
      intros ev Hev. destruct (p ev) eqn:Hpe; [| reflexivity].
      destruct (Hp ev Hpe) as (H1 & H2). destruct Hev; congruence. }
    split.
    + rewrite !count_app.
      rewrite (count_disjoint is_loader_event _ t_load Hl)
        by (intros ev Hev; destruct ev; try discriminate; reflexivity).
      rewrite Hnone by (intros ev Hev; destruct ev; try discriminate; split; reflexivity).
      reflexivity.
    + intros _. rewrite !count_app.
      rewrite (count_disjoint is_loader_event _ t_load Hl)
        by (intros ev Hev; destruct ev; try discriminate; reflexivity).
      rewrite Hnone by (intros ev Hev; destruct ev; try discriminate; split; reflexivity).
      reflexivity.
Qed.

End Failures.

(** X8 on the test doubles: the exception of a fitness that fails leaves
    [evolve] as it is. *)
Lemma evolve_exception_origin_witness :
  let H := Mock.host_of Mock.prob_failing in
  let w := Mock.algorithm Mock.prob_failing false default_worhp_library in
  exists s' t,
    evolve Mock.header (Mock.file_system 1000) H w Mock.pop_2d 10 Mock.garbage
    = (Throw Mock.host_failure, s', t)
    /\ raised_by_host H w Mock.pop_2d Mock.host_failure.
Proof.
  intros H w.
  eassert (Hrun : evolve Mock.header (Mock.file_system 1000) H w Mock.pop_2d 10
                    Mock.garbage
                  = (Throw Mock.host_failure, _, _)) by (vm_compute; reflexivity).
  eexists. eexists. split; [exact Hrun |].
  destruct (evolve_exception_origin Mock.header (Mock.file_system 1000) H w
              Mock.pop_2d 10%nat Mock.garbage _ _ _ Hrun)
    as [(Hno & _) | [(_ & e0 & _ & He & _) | (_ & _ & Hhost)]].
  - exfalso. apply Hno. repeat split; discriminate.
  - discriminate He.
  - exact Hhost.
Defined.

(** X9 on the test doubles: the run in which the fitness fails in the first
    objective evaluation has called [WorhpInit] once, and neither [StatusMsg]
    nor [WorhpFree]. *)
Lemma evolve_exception_no_teardown_witness :
  exists s' t,
    Mock.run Mock.prob_failing 1000 default_worhp_library Mock.pop_2d 10
    = (Throw Mock.host_failure, s', t)
    /\ count is_teardown_event t = O
    /\ count is_WorhpInit t = 1%nat.
Proof.
  eassert (Hrun : evolve Mock.header (Mock.file_system 1000)
                    (Mock.host_of Mock.prob_failing)
                    (Mock.algorithm Mock.prob_failing false default_worhp_library)
                    Mock.pop_2d 10 Mock.garbage
                  = (Throw Mock.host_failure, _, _)) by (vm_compute; reflexivity).
  eexists. eexists. split; [exact Hrun |].
  destruct (evolve_exception_no_teardown Mock.header (Mock.file_system 1000)
              (Mock.host_of Mock.prob_failing) _ Mock.pop_2d 10%nat Mock.garbage
              _ _ _ Hrun) as (Hnone & Hinit).
  split; [exact Hnone |]. apply Hinit. vm_compute. discriminate.
Defined.

(** ** Memory safety *)

Section Safe.

Context {St : Type}.

Lemma safe_conseq {A : Type} (P P' : St -> Prop) (Q Q' : A -> St -> Prop)
    (c : M St A) :
  (forall s, P' s -> P s) -> (forall a s, Q a s -> Q' a s) ->
  safe P c Q -> safe P' c Q'.
Proof.
  intros HP HQ Hc s o s' t Hs Hrun. specialize (Hc s o s' t (HP s Hs) Hrun).
  destruct o; auto.
Qed.

Lemma safe_ret {A : Type} (P : St -> Prop) (a : A) :
  safe P (ret a) (fun _ => P).
Proof. intros s o s' t Hs Heq. inversion Heq; subst. exact Hs. Qed.

Lemma safe_throw {A : Type} (P : St -> Prop) (Q : A -> St -> Prop) (e : Exn) :
  safe P (throw e) Q.
Proof. intros s o s' t Hs Heq. inversion Heq; subst. exact I. Qed.

Lemma safe_out_of_fuel {A : Type} (P : St -> Prop) (Q : A -> St -> Prop) :
  safe P out_of_fuel Q.
Proof. intros s o s' t Hs Heq. inversion Heq; subst. exact I. Qed.

Lemma safe_emit (P : St -> Prop) (e : Event) : safe P (emit e) (fun _ => P).
Proof. intros s o s' t Hs Heq. inversion Heq; subst. exact Hs. Qed.

Lemma safe_host {A : Type} (P : St -> Prop) (r : Exn + A) :
  safe P (host r) (fun a s => P s /\ r = inr a).
Proof.
  intros s o s' t Hs. destruct r; intros Heq; inversion Heq; subst; cbn; auto.
Qed.

Lemma safe_defined {A : Type} (P : St -> Prop) (o : option A) :
  (forall s, P s -> o <> None) ->
  safe P (defined o) (fun a s => P s /\ o = Some a).
Proof.
  intros Ho s o' s' t Hs. destruct o as [a |].
  - intros Heq. inversion Heq; subst. cbn. auto.
  - contradiction (Ho s Hs). reflexivity.
Qed.

Lemma safe_bind {A B : Type} (P : St -> Prop) (Q : A -> St -> Prop)
    (R : B -> St -> Prop) (c : M St A) (k : A -> M St B) :
  safe P c Q -> (forall a, safe (Q a) (k a) R) -> safe P (bind c k) R.
Proof.
  intros Hc Hk s o s' t Hs. unfold bind.
  destruct (c s) as [[[a | e | |] s1] t1] eqn:Hcs;
    try (intros Heq; inversion Heq; subst; exact (Hc _ _ _ _ Hs Hcs)).
  pose proof (Hc _ _ _ _ Hs Hcs) as Ha. cbn in Ha.
  destruct (k a s1) as [[o2 s2] t2] eqn:Hks. intros Heq. inversion Heq; subst.
  exact (Hk a _ _ _ _ Ha Hks).
Qed.

(** After a reading of the state, the state is known. *)
Lemma safe_bind_get {B : Type} (P : St -> Prop) (R : B -> St -> Prop)
    (k : St -> M St B) :
  (forall s0, P s0 -> safe (fun s => s = s0) (k s0) R) -> safe P (bind get k) R.
Proof.
  intros Hk s o s' t Hs. unfold bind, get.
  destruct (k s s) as [[o2 s2] t2] eqn:Hks. intros Heq. inversion Heq; subst.
  exact (Hk s Hs _ _ _ _ eq_refl Hks).
Qed.

Lemma safe_if {A : Type} (P : St -> Prop) (Q : A -> St -> Prop) (b : bool)
    (c1 c2 : M St A) :
  safe P c1 Q -> safe P c2 Q -> safe P (if b then c1 else c2) Q.
Proof. destruct b; auto. Qed.

Lemma safe_for_count (Inv : St -> Prop) (body : Z -> M St unit) :
  forall (k : nat) (lo : Z),
    (forall i, lo <= i < lo + Z.of_nat k -> safe Inv (body i) (fun _ => Inv)) ->
    safe Inv (for_count k lo body) (fun _ => Inv).
Proof.
  induction k as [| k IH]; intros lo Hbody; cbn [for_count].
  - apply safe_ret.
  - apply safe_bind with (Q := fun _ => Inv); [apply Hbody; lia | intros _].
    apply IH. intros i Hi. apply Hbody. lia.
Qed.

Lemma safe_for_range (Inv : St -> Prop) (body : Z -> M St unit) (lo hi : Z) :
  (forall i, lo <= i < hi -> safe Inv (body i) (fun _ => Inv)) ->
  safe Inv (for_range lo hi body) (fun _ => Inv).
Proof.
  intros Hbody. unfold for_range. apply safe_for_count.
  intros i Hi. apply Hbody. lia.
Qed.

Lemma safe_for_fold {B : Type} (Inv : B -> St -> Prop) (body : Z -> B -> M St B) :
  forall (k : nat) (lo : Z) (acc : B),
    (forall i b, lo <= i < lo + Z.of_nat k ->
                 safe (Inv b) (body i b) Inv) ->
    safe (Inv acc) (for_fold k lo body acc) Inv.
Proof.
  induction k as [| k IH]; intros lo acc Hbody; cbn [for_fold].
  - intros s o s' t Hs Heq. inversion Heq; subst. exact Hs.
  - apply safe_bind with (Q := Inv); [apply Hbody; lia | intros acc'].
    apply IH. intros i b Hi. apply Hbody. lia.
Qed.

Lemma safe_bind_emit {B : Type} (P : St -> Prop) (R : B -> St -> Prop)
    (e : Event) (k : unit -> M St B) :
  safe P (k tt) R -> safe P (bind (emit e) k) R.
Proof.
  intros Hk. apply safe_bind with (Q := fun _ => P); [apply safe_emit |].
  intros []. exact Hk.
Qed.

Lemma safe_bind_host {A B : Type} (P : St -> Prop) (R : B -> St -> Prop)
    (r : Exn + A) (k : A -> M St B) :
  (forall a, r = inr a -> safe P (k a) R) -> safe P (bind (host r) k) R.
Proof.
  intros Hk. eapply safe_bind; [apply safe_host |].
  intros a s o s' t (Hs & Hr). apply (Hk a Hr). exact Hs.
Qed.

Lemma safe_bind_defined {A B : Type} (P : St -> Prop) (R : B -> St -> Prop)
    (o : option A) (k : A -> M St B) :
  (forall s, P s -> o <> None) ->
  (forall a, o = Some a -> safe P (k a) R) ->
  safe P (bind (defined o) k) R.
Proof.
  intros Ho Hk. eapply safe_bind; [apply safe_defined; exact Ho |].
  intros a s o' s' t (Hs & Hr). apply (Hk a Hr). exact Hs.
Qed.

(** What holds of the one state a computation starts from can be assumed. *)
Lemma safe_at {A : Type} (P : St -> Prop) (Q : A -> St -> Prop) (c : M St A)
    (s0 : St) :
  P s0 -> safe P c Q -> safe (fun s => s = s0) c Q.
Proof. intros Hs0 Hc. eapply safe_conseq; [| | exact Hc]; [intros s -> | ]; auto. Qed.

End Safe.

Section MemorySafety.

Context {Opaque : Type}.
Variable hdr : WorhpHeader.
Variable fs : FileSystem Opaque.
Variable H : Host.

Local Abbreviation St := (Records Opaque).

Lemma safe_store_opt (P : St -> Prop) (arr : OptVar Opaque -> list double)
    (upd : OptVar Opaque -> list double -> OptVar Opaque) (i : Z) (x : double) :
  (forall s, P s ->
     0 <= i < Z.of_nat (List.length (arr (opt s)))
     /\ P (set_opt s (upd (opt s) (set_nth (arr (opt s)) (Z.to_nat i) x)))) ->
  safe P (store_opt arr upd i x) (fun _ => P).
Proof.
  intros Hs s o s' t HP. destruct (Hs s HP) as (Hi & HP').
  rewrite store_opt_in_range by exact Hi. intros Heq. inversion Heq; subst.
  exact HP'.
Qed.

Lemma safe_call (P Q : St -> Prop) (ev : Event) (f : solver_routine Opaque) :
  (forall s, P s -> Q (f s)) -> safe P (call ev f) (fun _ => Q).
Proof.
  intros Hf s o s' t HP. rewrite call_run. intros Heq. inversion Heq; subst.
  apply Hf. exact HP.
Qed.

Lemma safe_assign_opt (P Q : St -> Prop) (f : OptVar Opaque -> OptVar Opaque) :
  (forall s, P s -> Q (set_opt s (f (opt s)))) -> safe P (assign_opt f) (fun _ => Q).
Proof.
  intros Hf s o s' t HP Heq. inversion Heq; subst. apply Hf. exact HP.
Qed.

Lemma read_array_in_range (a : list double) (k : Z) :
  0 <= k <= Z.of_nat (List.length a) -> read_array a k <> None.
Proof.
  intros Hk. unfold read_array.
  destruct (Z.leb_spec 0 k); [| lia].
  destruct (Z.leb_spec k (Z.of_nat (List.length a))); [| lia].
  discriminate.
Qed.

Lemma at_index_defined {A : Type} (l : list A) (i : Z) :
  0 <= i < Z.of_nat (List.length l) -> at_index l i <> None.
Proof.
  intros Hi. destruct (at_index_in_range l i Hi) as (x & ->). discriminate.
Qed.

Lemma store_defined {A : Type} (l : list A) (i : Z) (x : A) :
  0 <= i < Z.of_nat (List.length l) -> store l i x <> None.
Proof.
  intros Hi. unfold store.
  destruct (Z.leb_spec 0 i); [| lia].
  destruct (Z.ltb_spec i (Z.of_nat (List.length l))); [| lia].
  discriminate.
Qed.

(** *** The loader and the preamble never touch an array *)

Local Abbreviation anything := (fun _ : St => True).

Lemma check_problem_safe (pop : population H) :
  safe anything (check_problem H pop) (fun _ => anything).
Proof.
  intros s o s' t _ Hrun.
  destruct o; try exact I. revert Hrun.
  unfold check_problem, bind, pagmo_throw, throw, ret.
  destruct (negb (get_nobj (get_problem H pop) =? 1)); [discriminate |].
  destruct (is_stochastic (get_problem H pop)); [discriminate |].
  destruct (size H pop =? 0); discriminate.
Qed.

Lemma import_safe {T : Type} (find : string -> Exn + T) (symbol : string) :
  safe anything (import (Opaque := Opaque) find symbol) (fun _ => anything).
Proof.
  unfold import. apply safe_bind_emit.
  eapply safe_conseq; [| | apply safe_host]; [intros s Hs; exact Hs | auto].
Qed.

Lemma load_library_safe (w : worhp H) :
  safe anything (load_library fs H w) (fun _ => anything).
Proof.
  assert (Hsym : safe anything (load_symbols fs H w) (fun _ => anything)).
  { unfold load_symbols, lock_guard. intros s o s' t _.
    match goal with |- context [?c s] =>
      assert (Hc : safe anything c (fun _ => anything));
      [| destruct (c s) as [[o1 s1] t1] eqn:Hbody;
         intros Heq; inversion Heq; subst; exact (Hc _ _ _ _ I Hbody)]
    end.
    unfold pagmo_throw.
    repeat first
      [ apply safe_bind_emit
      | apply safe_bind_host; intros ? _
      | apply safe_ret
      | apply safe_bind with (Q := fun _ => anything);
          [ first [ apply import_safe
                  | apply safe_if; [apply safe_throw | apply safe_ret] ]
          | intros ? ] ]. }
  unfold load_library, try_catch. intros s o s' t _.
  destruct (load_symbols fs H w s) as [[[c | e | |] s1] t1] eqn:Hload.
  - intros Heq. inversion Heq; subst. exact I.
  - unfold pagmo_throw, throw. intros Heq. inversion Heq; subst. exact I.
  - contradiction (Hsym _ _ _ _ I Hload).
  - intros Heq. inversion Heq; subst. exact I.
Qed.

(** *** The solver phase, on records allocated_for for the problem *)

Variable w : worhp H.
Variable pop : population H.
Variable cap : Capability Opaque.

Local Abbreviation prob := (get_problem H pop).
Local Abbreviation Inv := (allocated_for (Opaque := Opaque) prob).

(** A write into one of the six arrays keeps the records allocated_for. *)
Lemma allocated_write (s : St) (k : nat) (x : double) :
  Inv s ->
  Inv (set_opt s (set_X (opt s) (set_nth (X (opt s)) k x)))
  /\ Inv (set_opt s (set_G (opt s) (set_nth (G (opt s)) k x)))
  /\ Inv (set_opt s (set_XL (opt s) (set_nth (XL (opt s)) k x)))
  /\ Inv (set_opt s (set_XU (opt s) (set_nth (XU (opt s)) k x)))
  /\ Inv (set_opt s (set_GL (opt s) (set_nth (GL (opt s)) k x)))
  /\ Inv (set_opt s (set_GU (opt s) (set_nth (GU (opt s)) k x))).
Proof.
  unfold allocated_for. cbn. rewrite !length_set_nth. tauto.
Qed.

Lemma allocated_set_F (s : St) (v : double) :
  Inv s -> Inv (set_opt s (set_F (opt s) v)).
Proof. unfold allocated_for. cbn. tauto. Qed.

Lemma allocated_set_cnt (s : St) (c : Control Opaque) :
  Inv s -> Inv (set_cnt s c).
Proof. unfold allocated_for. cbn. tauto. Qed.

Lemma allocated_set_par (s : St) (p : Params Opaque) :
  Inv s -> Inv (set_par s p).
Proof. unfold allocated_for. cbn. tauto. Qed.

Hypothesis Hsized : well_sized H w pop.
Hypothesis Hsolver : solver_contract cap prob.

(** A write at an index below the dimension the array is allocated_for for. *)
Ltac write_in_range :=
  apply safe_store_opt;
  let s := fresh "s" in
  let Hs := fresh "Hs" in
  intros s Hs; split;
  [ destruct Hs as (? & ? & ? & ? & ? & ? & ? & ?); lia
  | apply allocated_write; exact Hs ].

(** The copy of the components [1 .. k] of a vector into [opt.G]. *)
Lemma copy_to_G_safe (f : vector_double) (k : Z) :
  k <= get_nc prob -> k + 1 <= Z.of_nat (List.length f) ->
  safe Inv
    (for_range 0 k (fun i =>
       f_i <- defined (at_index f (i + 1)) ;; store_opt G set_G i f_i))
    (fun _ => Inv).
Proof.
  intros Hk Hf. apply safe_for_range. intros i Hi.
  apply safe_bind_defined; [intros _ _; apply at_index_defined; lia |].
  intros v _. write_in_range.
Qed.

Lemma UserF_safe : safe Inv (UserF H pop) (fun _ => Inv).
Proof.
  destruct Hsized as (Hnx & Hnc & _ & _ & _ & _ & Hfit).
  intros s o s' t Hs. rewrite UserF_run.
  destruct (read_array (X (opt s)) (get_nx prob)) as [x |] eqn:Hx.
  2: { exfalso. revert Hx. apply read_array_in_range.
       destruct Hs as (_ & _ & HX & _). lia. }
  destruct (fitness prob x) as [e | f] eqn:Hf;
    [intros Heq; inversion Heq; subst; exact I |].
  destruct (at_index f 0) as [f_0 |] eqn:H0.
  2: { exfalso. revert H0. apply at_index_defined.
       specialize (Hfit x f Hf). lia. }
  intros Heq. inversion Heq; subst. apply allocated_set_F. exact Hs.
Qed.

Lemma UserG_safe : safe Inv (UserG H pop) (fun _ => Inv).
Proof.
  destruct Hsized as (Hnx & Hnc & _ & _ & _ & _ & Hfit).
  unfold UserG. apply safe_bind_emit. apply safe_bind_get. intros s0 Hs0.
  apply (safe_at Inv _ _ s0 Hs0).
  apply safe_bind_defined.
  { intros _ _. apply read_array_in_range.
    destruct Hs0 as (_ & _ & HX & _). lia. }
  intros x _. apply safe_bind_emit. apply safe_bind_host. intros f Hf.
  apply copy_to_G_safe; [lia |]. exact (Hfit x f Hf).
Qed.

Lemma call_DoneUserAction_safe (a : UserAction) :
  safe Inv (call_DoneUserAction cap a) (fun _ => Inv).
Proof.
  intros s o s' t Hs. rewrite call_DoneUserAction_run.
  intros Heq. inversion Heq; subst. apply allocated_set_cnt. exact Hs.
Qed.

Lemma call_GetUserAction_safe (a : UserAction) :
  safe Inv (call_GetUserAction cap a) (fun _ => Inv).
Proof.
  intros s o s' t Hs. rewrite call_GetUserAction_run.
  intros Heq. inversion Heq; subst. exact Hs.
Qed.

Lemma rc_turn_safe : safe Inv (rc_turn H cap pop) (fun _ => Inv).
Proof.
  destruct Hsolver as [_ Hworhp Hiter Hfidif].
  unfold rc_turn.
  repeat first
    [ apply call_GetUserAction_safe
    | apply call_DoneUserAction_safe
    | apply UserF_safe
    | apply UserG_safe
    | apply safe_call; assumption
    | apply safe_ret
    | apply safe_if
    | apply safe_bind with (Q := fun _ => Inv); [| intros ?] ].
Qed.

Lemma rc_loop_safe (fuel : nat) :
  safe Inv (rc_loop hdr H cap pop fuel) (fun _ => Inv).
Proof.
  induction fuel as [| fuel IH]; cbn [rc_loop];
    (apply safe_bind_get; intros s0 Hs0; apply (safe_at Inv _ _ s0 Hs0);
     apply safe_bind_emit; apply safe_if; [| apply safe_ret]).
  - apply safe_out_of_fuel.
  - apply safe_bind with (Q := fun _ => Inv); [apply rc_turn_safe | intros _].
    exact IH.
Qed.

Lemma set_initial_values_safe (x0 f0 : vector_double) :
  get_nx prob <= Z.of_nat (List.length x0) ->
  get_nc prob + 1 <= Z.of_nat (List.length f0) ->
  safe Inv (set_initial_values x0 f0) (fun _ => Inv).
Proof.
  destruct Hsized as (Hnx & Hnc & _).
  intros Hx0 Hf0. unfold set_initial_values.
  apply safe_bind_get. intros s0 Hs0. apply (safe_at Inv _ _ s0 Hs0).
  destruct Hs0 as (Hn & Hm & _). rewrite Hn.
  apply safe_bind with (Q := fun _ => Inv); [| intros _].
  { apply safe_for_range. intros i Hi.
    apply safe_bind_defined; [intros _ _; apply at_index_defined; lia |].
    intros v _. write_in_range. }
  apply safe_bind_defined; [intros _ _; apply at_index_defined; lia |].
  intros f0_0 _. apply safe_bind_get. intros s1 Hs1.
  apply (safe_at Inv _ _ s1 Hs1).
  apply safe_bind with (Q := fun _ => Inv); [| intros _].
  { apply safe_assign_opt. intros s Hs. apply allocated_set_F. exact Hs. }
  destruct Hs1 as (_ & -> & _). apply copy_to_G_safe; lia.
Qed.

Lemma set_bounds_safe (lb ub : vector_double) :
  get_nx prob <= Z.of_nat (List.length lb) ->
  get_nx prob <= Z.of_nat (List.length ub) ->
  safe Inv (set_bounds lb ub (get_nec prob)) (fun _ => Inv).
Proof.
  destruct Hsized as (Hnx & Hnc & Hint & _).
  intros Hlb Hub. unfold set_bounds.
  apply safe_bind_get. intros s0 Hs0. apply (safe_at Inv _ _ s0 Hs0).
  destruct Hs0 as (Hn & Hm & _). rewrite Hn, Hm.
  rewrite (to_int_small (get_nec prob)) by lia.
  apply safe_bind with (Q := fun _ => Inv); [| intros _].
  { apply safe_for_range. intros i Hi.
    apply safe_bind_defined; [intros _ _; apply at_index_defined; lia |].
    intros v _.
    apply safe_bind with (Q := fun _ => Inv); [write_in_range | intros _].
    apply safe_bind_defined; [intros _ _; apply at_index_defined; lia |].
    intros u _. write_in_range. }
  apply safe_bind with (Q := fun _ => Inv); [| intros _].
  { apply safe_for_range. intros i Hi.
    apply safe_bind with (Q := fun _ => Inv); [write_in_range | intros _].
    write_in_range. }
  apply safe_for_range. intros i Hi.
  apply safe_bind_get. intros s1 Hs1. apply (safe_at Inv _ _ s1 Hs1).
  apply safe_bind with (Q := fun _ => Inv); [write_in_range | intros _].
  write_in_range.
Qed.

Lemma setup_safe : safe anything (setup hdr H w cap pop) (fun _ => Inv).
Proof.
  pose proof Hsized as (Hnx & Hnc & Hint & Hlb & Hub & Hsel & _).
  unfold setup.
  apply safe_bind with (Q := fun _ => Inv); [| intros _].
  { intros s o s' t _. rewrite init_records_run. intros Heq.
    inversion Heq; subst. apply allocated_set_par.
    apply (WorhpInit_allocates _ _ Hsolver); cbn.
    - apply to_int_small. lia.
    - apply to_int_small. lia. }
  apply safe_bind_emit. apply safe_bind_host. intros [x0 f0] Hxf.
  destruct (Hsel x0 f0 Hxf) as (Hx0 & Hf0). cbn [fst snd].
  apply safe_bind with (Q := fun _ => Inv);
    [apply set_initial_values_safe; assumption | intros _].
  apply safe_bind with (Q := fun _ => Inv);
    [apply set_bounds_safe; assumption | intros _].
  apply safe_ret.
Qed.

Lemma reinsert_safe (f0 : vector_double) :
  safe Inv (reinsert H w pop f0) (fun _ => Inv).
Proof.
  destruct Hsized as (Hnx & _).
  unfold reinsert. apply safe_bind_get. intros s0 Hs0.
  apply (safe_at Inv _ _ s0 Hs0).
  apply safe_bind
    with (Q := fun x_final s =>
                 Inv s /\ List.length x_final = Z.to_nat (get_nx prob)).
  { unfold for_fold_range.
    eapply safe_conseq;
      [| | apply (safe_for_fold
                    (fun x_final s =>
                       Inv s /\ List.length x_final = Z.to_nat (get_nx prob)))].
    - intros s Hs. split; [exact Hs | apply repeat_length].
    - auto.
    - intros i acc Hi.
      apply safe_bind_defined.
      { intros _ _. apply at_index_defined.
        destruct Hs0 as (Hn & _ & HX & _). lia. }
      intros v _. eapply safe_conseq; [| | apply safe_defined].
      + intros s Hs. exact Hs.
      + cbn. intros a s ((Hs & Hlen) & Hst).
        apply store_Some_inv in Hst as (_ & ->).
        rewrite length_set_nth. auto.
      + intros s (_ & Hlen). apply store_defined.
        destruct Hs0 as (Hn & _). lia. }
  intros x_final.
  eapply safe_conseq with (P := Inv) (Q := fun _ => Inv);
    [intros s (Hs & _); exact Hs | auto |].
  apply safe_bind_emit. apply safe_bind_host. intros f_final _.
  apply safe_bind_emit. apply safe_bind_host. intros better _.
  apply safe_if; [| apply safe_ret].
  apply safe_bind_emit.
  eapply safe_conseq; [| | apply safe_host]; [intros s Hs; exact Hs |].
  intros a s (Hs & _). exact Hs.
Qed.

Lemma run_solver_safe (fuel : nat) :
  safe anything (run_solver hdr H w cap pop fuel) (fun _ => anything).
Proof.
  unfold run_solver.
  apply safe_bind with (Q := fun _ => Inv); [apply setup_safe | intros f0].
  apply safe_bind with (Q := fun _ => Inv); [apply rc_loop_safe | intros _].
  apply safe_bind with (Q := fun _ => Inv); [apply reinsert_safe | intros pop'].
  apply safe_bind with (Q := fun _ => anything); [| intros _].
  - intros s o s' t _. rewrite teardown_run. intros Heq. inversion Heq. exact I.
  - intros s o s' t _ Heq. inversion Heq. exact I.
Qed.

End MemorySafety.

Section MemorySafetyOfEvolve.

Context {Opaque : Type}.
Variable hdr : WorhpHeader.
Variable fs : FileSystem Opaque.
Variable H : Host.

Lemma evolve_no_undefined (w : worhp H) (pop : population H) (fuel : nat)
    (s s' : Records Opaque) (o : Outcome (population H)) (t : Trace) :
  well_sized H w pop ->
  (forall cap t_load,
      load_library fs H w s = (Ret cap, s, t_load) ->
      solver_contract cap (get_problem H pop)) ->
  evolve hdr fs H w pop fuel s = (o, s', t) ->
  o <> Undefined.
Proof.
  intros Hsized Hsolver. unfold evolve, bind.
  destruct (check_problem H pop s) as [[o1 s1] t1] eqn:Hcheck.
  pose proof (check_problem_safe H pop _ _ _ _ I Hcheck) as Hc.
  destruct (check_problem_silent H pop _ _ _ _ Hcheck) as (-> & ->).
  destruct o1 as [[] | e | |]; try contradiction;
    try (intros Heq; inversion Heq; discriminate).
  destruct (load_library fs H w s) as [[o2 s2] t2] eqn:Hload.
  pose proof (load_library_safe fs H w _ _ _ _ I Hload) as Hl.
  destruct o2 as [cap | e | |]; try contradiction;
    try (intros Heq; inversion Heq; discriminate).
  destruct (load_library_Ret_inv _ _ _ _ _ _ _ Hload) as (_ & -> & _).
  destruct (run_solver hdr H w cap pop fuel s) as [[o3 s3] t3] eqn:Hrun.
  pose proof (run_solver_safe hdr H w pop cap Hsized (Hsolver cap t2 eq_refl) fuel
                _ _ _ _ I Hrun) as Hr.
  intros Heq. inversion Heq; subst. destruct o; try discriminate. contradiction.
Qed.


(** X10: [evolve] has no undefined behaviour, whatever the fuel and
    whatever storage its locals start from.  Suppose the host keeps to its sizes: the
    dimensions fit an [int], the bounds have a cell for every variable, the
    selected individual has a component for every variable and a fitness
    value for the objective and every constraint, and so has every fitness
    vector.  Suppose the solver the library provides keeps its side:
    [WorhpInit] allocates the arrays for the dimensions stored in [opt],
    and [Worhp], [IterationOutput] and [WorhpFidif] leave the dimensions and
    the allocation alone.  Then every index at which [evolve], [UserF] and
    [UserG] read or write an array or a vector is inside it: the outcome is a
    return, an exception, or a loop that is still running. *)
Theorem evolve_memory_safe (w : worhp H) (pop : population H) (fuel : nat)
    (s s' : Records Opaque) (o : Outcome (population H)) (t : Trace) :
  well_sized H w pop ->
  (forall cap t_load,
      load_library fs H w s = (Ret cap, s, t_load) ->
      solver_contract cap (get_problem H pop)) ->
  evolve hdr fs H w pop fuel s = (o, s', t) ->
  o <> Undefined.
Proof. apply evolve_no_undefined. Qed.

End MemorySafetyOfEvolve.

(** The scripted solver keeps the contract, and the test host its sizes. *)
Lemma mock_solver_contract (final : Z) :
  solver_contract (Mock.capability final) Mock.prob_2d.
Proof.
  split.
  - intros s Hn Hm. unfold allocated_for. cbn.
    unfold Mock.zeros. rewrite !repeat_length, Hn, Hm. cbn. lia.
  - intros s Hs. unfold allocated_for in *. cbn [Worhp Mock.capability].
    unfold Mock.step. destruct (Mock.stage (wsp s)) as [| [| k]]; cbn;
      rewrite ?length_map; exact Hs.
  - intros s Hs. exact Hs.
  - intros s Hs. exact Hs.
Qed.

Lemma mock_well_sized (lib : string) :
  well_sized (Mock.host_of Mock.prob_2d) (Mock.algorithm Mock.prob_2d false lib)
    Mock.pop_2d.
Proof.
  unfold well_sized. cbn.
  split; [unfold INT_MAX; lia |]. split; [lia |].
  split; [unfold INT_MAX; lia |]. split; [lia |]. split; [lia |].
  split.
  - intros x0 f0 Hsel. inversion Hsel; subst. cbn. lia.
  - intros x f. unfold Mock.fitness_2d.
    destruct x as [| a [| b [| c l]]]; intros Hf; inversion Hf; subst. cbn. lia.
Qed.

(** X10 on the test doubles. *)
Lemma evolve_memory_safe_witness :
  let H := Mock.host_of Mock.prob_2d in
  let w := Mock.algorithm Mock.prob_2d false default_worhp_library in
  well_sized H w Mock.pop_2d
  /\ (forall cap t_load,
         load_library (Mock.file_system 1000) H w Mock.garbage
         = (Ret cap, Mock.garbage, t_load) ->
         solver_contract cap Mock.prob_2d)
  /\ fst (fst (evolve Mock.header (Mock.file_system 1000) H w Mock.pop_2d 10
                  Mock.garbage))
     <> Undefined.
Proof.
  intros H w.
  assert (Hsized : well_sized H w Mock.pop_2d) by apply mock_well_sized.
  assert (Hsolver : forall cap t_load,
             load_library (Mock.file_system 1000) H w Mock.garbage
             = (Ret cap, Mock.garbage, t_load) ->
             solver_contract cap Mock.prob_2d).
  { intros cap t_load Hload.
    eassert (Hl : load_library (Mock.file_system 1000) H w Mock.garbage
                  = (Ret (Mock.capability 1000), Mock.garbage, _))
      by (vm_compute; reflexivity).
    rewrite Hl in Hload. inversion Hload; subst. apply mock_solver_contract. }
  split; [exact Hsized |]. split; [exact Hsolver |].
  eassert (Hrun : evolve Mock.header (Mock.file_system 1000) H w Mock.pop_2d 10
                    Mock.garbage
                  = (Ret _, _, _)) by (vm_compute; reflexivity).
  rewrite Hrun.
  exact (evolve_memory_safe Mock.header (Mock.file_system 1000) H w Mock.pop_2d
           10%nat Mock.garbage _ _ _ Hsized Hsolver Hrun).
Defined.

(** ** Progress *)

Section Progress.

Context {Opaque : Type}.
Variable hdr : WorhpHeader.
Variable fs : FileSystem Opaque.
Variable H : Host.

Local Abbreviation St := (Records Opaque).

(** X19: with a suitable problem, a library that loads, a solver that
    keeps its contract and a host that keeps to its sizes and throws at none of
    the calls [evolve] makes, [evolve] can only return a population or be still
    in its loop: it neither throws nor runs into undefined behaviour. *)
Theorem evolve_returns_or_runs (w : worhp H) (pop : population H)
    (cap : Capability Opaque) (fuel : nat) (s s' : St)
    (o : Outcome (population H)) (t t_load : Trace) :
  suitable H pop ->
  well_sized H w pop ->
  load_library fs H w s = (Ret cap, s, t_load) ->
  solver_contract cap (get_problem H pop) ->
  (forall e, ~ raised_by_host H w pop e) ->
  evolve hdr fs H w pop fuel s = (o, s', t) ->
  (exists pop', o = Ret pop') \/ o = OutOfFuel.
Proof.
  intros Hok Hsized Hload Hsolver Hhost Hrun.
  destruct o as [pop' | e | |].
  - left. exists pop'. reflexivity.
  - exfalso.
    apply evolve_Throw_inv in Hrun
      as [(Hcheck & _)
         | [(_ & e0 & Hsym & _)
           | (_ & cap' & t_load' & t_run & _ & Hrun & _)]].
    + rewrite (check_problem_passes H pop s Hok) in Hcheck. discriminate.
    + revert Hload. unfold load_library, try_catch. rewrite Hsym.
      unfold pagmo_throw, throw. discriminate.
    + apply run_solver_throws in Hrun. exact (Hhost e Hrun).
  - exfalso. revert Hrun.
    intros Hrun. eapply (evolve_no_undefined hdr fs H w pop fuel s s' Undefined t).
    + exact Hsized.
    + intros cap' t_load' Hload'. rewrite Hload in Hload'.
      inversion Hload'; subst. exact Hsolver.
    + exact Hrun.
    + reflexivity.
  - right. reflexivity.
Qed.

End Progress.

(** The test host throws at none of the calls of [evolve]. *)
Lemma mock_host_never_throws (lib : string) (e : Exn) :
  ~ raised_by_host (Mock.host_of Mock.prob_2d)
      (Mock.algorithm Mock.prob_2d false lib) Mock.pop_2d e.
Proof.
  intros [Hsel | x Hlen Hf | x f x0 f0 Hf Hsel Hc | x f Hlen Hf Hr].
  - discriminate Hsel.
  - destruct x as [| a [| b [| c l]]]; cbn in Hlen; try discriminate Hlen.
    discriminate Hf.
  - cbn in Hsel. inversion Hsel; subst. cbn in Hf. unfold Mock.fitness_2d in Hf.
    destruct x as [| a [| b [| c l]]]; inversion Hf; subst. discriminate Hc.
  - discriminate Hr.
Qed.

(** X19 on the test doubles: with ten turns allowed the run returns, with
    one it is still in the loop. *)
Lemma evolve_returns_or_runs_witness :
  let H := Mock.host_of Mock.prob_2d in
  let w := Mock.algorithm Mock.prob_2d false default_worhp_library in
  let outcome (fuel : nat) :=
    fst (fst (evolve Mock.header (Mock.file_system 1000) H w Mock.pop_2d fuel
                Mock.garbage)) in
  ((exists pop', outcome 10%nat = Ret pop') \/ outcome 10%nat = OutOfFuel)
  /\ outcome 1%nat = OutOfFuel.
Proof.
  intros H w outcome. split; [| vm_compute; reflexivity].
  unfold outcome.
  eassert (Hload : load_library (Mock.file_system 1000) H w Mock.garbage
                   = (Ret (Mock.capability 1000), Mock.garbage, _))
    by (vm_compute; reflexivity).
  eassert (Hrun : evolve Mock.header (Mock.file_system 1000) H w Mock.pop_2d 10
                    Mock.garbage
                  = (Ret _, _, _)) by (vm_compute; reflexivity).
  rewrite Hrun.
  refine (evolve_returns_or_runs Mock.header (Mock.file_system 1000) H w
            Mock.pop_2d (Mock.capability 1000) 10%nat Mock.garbage _ _ _ _
            _ _ Hload _ _ Hrun).
  - repeat split; discriminate.
  - apply mock_well_sized.
  - apply mock_solver_contract.
  - apply mock_host_never_throws.
Defined.

(** ** The turns of the loop and the evaluations they cost *)

Section Turns.

Context {Opaque : Type}.
Variable hdr : WorhpHeader.
Variable fs : FileSystem Opaque.
Variable H : Host.
Variable cap : Capability Opaque.
Variable pop : population H.

Local Abbreviation St := (Records Opaque).

Lemma UserF_Ret_inv (s s' : St) (t : Trace) :
  UserF H pop s = (Ret tt, s', t) ->
  exists x,
    read_array (X (opt s)) (get_nx (get_problem H pop)) = Some x
    /\ t = [EvUserF; EvFitness x]
    /\ X (opt s') = X (opt s).
Proof.
  rewrite UserF_run.
  destruct (read_array (X (opt s)) (get_nx (get_problem H pop))) as [x |];
    [| discriminate].
  destruct (fitness (get_problem H pop) x) as [e | f]; [discriminate |].
  destruct (at_index f 0); [| discriminate].
  intros Heq. inversion Heq. exists x. auto.
Qed.

Lemma UserG_Ret_inv (s s' : St) (t : Trace) :
  UserG H pop s = (Ret tt, s', t) ->
  exists x,
    read_array (X (opt s)) (get_nx (get_problem H pop)) = Some x
    /\ t = [EvUserG; EvFitness x].
Proof.
  unfold UserG. intros Hrun.
  apply bind_Ret_inv in Hrun as ([] & s1 & t1 & t1' & H1 & Hrun & ->).
  inversion H1; subst. clear H1.
  apply bind_Ret_inv in Hrun as (s0 & s2 & t2 & t2' & H2 & Hrun & ->).
  inversion H2; subst. clear H2.
  apply bind_Ret_inv in Hrun as (x & s3 & t3 & t3' & H3 & Hrun & ->).
  apply defined_Ret_inv in H3 as (Hx & -> & ->).
  apply bind_Ret_inv in Hrun as ([] & s4 & t4 & t4' & H4 & Hrun & ->).
  inversion H4; subst. clear H4.
  apply bind_Ret_inv in Hrun as (f & s5 & t5 & t5' & H5 & Hrun & ->).
  assert (t5 = []) as -> by (apply silent_nil; eapply emits_only_host; exact H5).
  assert (t5' = []) as -> by (apply silent_nil; eapply copy_to_G_silent; exact Hrun).
  exists x. auto.
Qed.

(** X11: in one turn of the loop the objective and the constraints are
    computed at one and the same point.  A turn that comes to its end has the
    trace of the protocol with a single vector [x] in the two evaluations:
    [UserF] changes nothing but [opt.F] and the acknowledgement nothing but
    [cnt], so [UserG] reads from [opt.X] what [UserF] has read.  When both
    evaluations are requested in a turn, the fitness of the problem is computed
    twice at [x]. *)
Theorem rc_turn_same_point (s s' : St) (t : Trace) :
  rc_turn H cap pop s = (Ret tt, s', t) ->
  exists b1 b2 b3 b4 b5 x, t = turn_trace b1 b2 b3 b4 b5 x x.
Proof.
  unfold rc_turn. intros Hrun.
  apply bind_Ret_inv in Hrun as (b1 & s1 & p1 & r1 & Hp & Hrun & ->).
  apply poll_inv in Hp as (-> & _ & _).
  apply bind_Ret_inv in Hrun as ([] & s1' & a1 & q1 & Ha & Hrun & ->).
  apply served_callWorhp in Ha as ->.
  apply bind_Ret_inv in Hrun as (b2 & s2 & p2 & r2 & Hp & Hrun & ->).
  apply poll_inv in Hp as (-> & _ & _).
  apply bind_Ret_inv in Hrun as ([] & s2' & a2 & q2 & Ha & Hrun & ->).
  apply served_iterOutput in Ha as ->.
  apply bind_Ret_inv in Hrun as (b3 & s3 & p3 & r3 & Hp & Hrun & ->).
  apply poll_inv in Hp as (-> & -> & _).
  apply bind_Ret_inv in Hrun as ([] & s3' & a3 & q3 & HF & Hrun & ->).
  apply bind_Ret_inv in Hrun as (b4 & s4 & p4 & r4 & Hp & Hrun & ->).
  apply poll_inv in Hp as (-> & -> & _).
  apply bind_Ret_inv in Hrun as ([] & s4' & a4 & q4 & HG & Hrun & ->).
  apply bind_Ret_inv in Hrun as (b5 & s5 & p5 & r5 & Hp & Hrun & ->).
  apply poll_inv in Hp as (-> & _ & _).
  apply served_fidif in Hrun as ->.
  exists b1, b2, b3, b4, b5.
  assert (Hpoint : exists x,
             a3 = (if b3 then served evalF x else [])
             /\ a4 = (if b4 then served evalG x else [])).
  { destruct b3.
    - apply bind_Ret_inv in HF as ([] & s6 & t6 & t6' & HF & Hdone & ->).
      apply UserF_Ret_inv in HF as (x & Hx & -> & HX).
      rewrite call_DoneUserAction_run in Hdone. inversion Hdone; subst.
      exists x. split; [reflexivity |].
      destruct b4.
      + apply bind_Ret_inv in HG as ([] & s7 & t7 & t7' & HG & Hdone' & ->).
        apply UserG_Ret_inv in HG as (x' & Hx' & ->).
        cbn in Hx'. rewrite HX, Hx in Hx'. inversion Hx'; subst.
        inversion Hdone'; subst. reflexivity.
      + inversion HG. reflexivity.
    - inversion HF; subst. apply served_evalG in HG as (x & ->).
      exists x. split; reflexivity. }
  destruct Hpoint as (x & -> & ->). exists x.
  unfold turn_trace, polled. cbn [app]. reflexivity.
Qed.

(** *** A solver that asks for nothing *)

Lemma rc_turn_idle (s : St) :
  (forall a, In a priority_order -> GetUserAction cap (cnt s) a = false) ->
  rc_turn H cap pop s = (Ret tt, s, idle_turn).
Proof.
  intros Hidle.
  unfold rc_turn, bind, call_GetUserAction, get, emit, ret. cbn.
  rewrite !Hidle by (cbn; tauto). reflexivity.
Qed.

(** X12: the loop ends only through a change of the status, and only the
    routines of the solver change it.  On records whose status is inside the
    open interval and whose control block raises none of the five flags the
    driver checks, every turn polls the five flags and does nothing else, the
    records stay as they are, and the loop is still running after any number
    of turns. *)
Theorem rc_loop_idle_never_ends (s : St) (fuel : nat) :
  in_progress hdr (status (cnt s)) = true ->
  (forall a, In a priority_order -> GetUserAction cap (cnt s) a = false) ->
  rc_loop hdr H cap pop fuel s
  = (OutOfFuel, s,
     List.concat (repeat (EvStatus (status (cnt s)) :: idle_turn) fuel)
     ++ [EvStatus (status (cnt s))]).
Proof.
  intros Hst Hidle. induction fuel as [| fuel IH].
  - apply rc_loop_out_of_fuel. exact Hst.
  - rewrite rc_loop_turn by exact Hst.
    rewrite (bind_Ret _ _ _ _ _ _ (eq_refl : emit _ s = (Ret tt, s, [_]))).
    rewrite (bind_Ret _ _ _ _ _ _ (rc_turn_idle s Hidle)).
    rewrite IH. cbn [repeat List.concat app]. rewrite <- !app_assoc. reflexivity.
Qed.

(** *** The number of fitness evaluations *)

Lemma turn_trace_fitness (b1 b2 b3 b4 b5 : bool) (xF xG : vector_double) :
  count is_Fitness (turn_trace b1 b2 b3 b4 b5 xF xG)
  = (count (requests evalF) (turn_trace b1 b2 b3 b4 b5 xF xG)
     + count (requests evalG) (turn_trace b1 b2 b3 b4 b5 xF xG))%nat.
Proof. destruct b1, b2, b3, b4, b5; reflexivity. Qed.

Lemma loop_trace_fitness (t : Trace) :
  loop_trace hdr t ->
  count is_Fitness t
  = (count (requests evalF) t + count (requests evalG) t)%nat.
Proof.
  induction 1 as [st Hst | st b1 b2 b3 b4 b5 xF xG t Hst Ht IH].
  - reflexivity.
  - change (EvStatus st :: turn_trace b1 b2 b3 b4 b5 xF xG ++ t)
      with ([EvStatus st] ++ turn_trace b1 b2 b3 b4 b5 xF xG ++ t).
    rewrite !count_app, IH, turn_trace_fitness. cbn. lia.
Qed.

(** X13: a run of [evolve] that returns has computed the fitness of the
    problem once for every objective evaluation the solver requested, once
    for every constraint evaluation it requested, and once more, after the
    loop, at the final point. *)
Theorem evolve_fitness_evaluations (w : worhp H) (pop' : population H)
    (fuel : nat) (s s_end : St) (t : Trace) :
  evolve hdr fs H w pop fuel s = (Ret pop', s_end, t) ->
  count is_Fitness t
  = (count (requests evalF) t + count (requests evalG) t + 1)%nat.
Proof.
  intros Hrun.
  apply evolve_Ret_inv in Hrun
    as (cap' & f0 & s_setup & s_loop & t_load & t_setup & t_loop & t_re
        & Hload & Hsetup & Hloop & Hre & -> & ->).
  assert (Hl : Forall (fun e => is_loader_event e = true) t_load)
    by apply (load_library_Ret_inv _ _ _ _ _ _ _ Hload).
  assert (Hs : Forall (fun e => is_setup_event e = true) t_setup)
    by (eapply setup_events; exact Hsetup).
  destruct (rc_loop_trace hdr H cap' pop fuel _ _ _ Hloop) as (Htr & _).
  destruct (reinsert_inv _ _ _ _ _ _ _ _ Hre)
    as (_ & x_final & f_final & better & _ & _ & _ & _ & _ & _ & _ & ->).
  rewrite !count_app.
  rewrite !(count_disjoint is_loader_event _ t_load Hl)
    by (intros ev Hev; destruct ev as [| | | | | | | | | ? [|] | | | | | | | | | | | |];
        try discriminate; reflexivity).
  rewrite !(count_disjoint is_setup_event _ t_setup Hs)
    by (intros ev Hev; destruct ev as [| | | | | | | | | ? [|] | | | | | | | | | | | |];
        try discriminate; reflexivity).
  rewrite (loop_trace_fitness t_loop Htr).
  destruct better; cbn; lia.
Qed.

End Turns.

(** X11 at the first turn of the test run, in which the scripted solver asks
    for both evaluations. *)
Lemma rc_turn_same_point_witness :
  exists s' t,
    rc_turn (Mock.host_of Mock.prob_2d) (Mock.capability 1000) Mock.pop_2d
      Mock.started
    = (Ret tt, s', t)
    /\ count is_Fitness t = 2%nat
    /\ exists b1 b2 b3 b4 b5 x, t = turn_trace b1 b2 b3 b4 b5 x x.
Proof.
  eassert (Hrun : rc_turn (Mock.host_of Mock.prob_2d) (Mock.capability 1000)
                    Mock.pop_2d Mock.started
                  = (Ret tt, _, _)) by (vm_compute; reflexivity).
  eexists. eexists. split; [exact Hrun |]. split; [reflexivity |].
  exact (rc_turn_same_point (Mock.host_of Mock.prob_2d) (Mock.capability 1000)
           Mock.pop_2d _ _ _ Hrun).
Defined.

(** X12 at the records of the test run with no request pending. *)
Lemma rc_loop_idle_never_ends_witness :
  let cap := Mock.capability 1000 in
  let s := set_cnt Mock.started {| status := 1; cnt_rest := Mock.Pending [] |} in
  rc_loop Mock.header (Mock.host_of Mock.prob_2d) cap Mock.pop_2d 3 s
  = (OutOfFuel, s,
     List.concat (repeat (EvStatus (status (cnt s)) :: idle_turn) 3)
     ++ [EvStatus (status (cnt s))]).
Proof.
  intros cap s.
  apply (rc_loop_idle_never_ends Mock.header (Mock.host_of Mock.prob_2d) cap
           Mock.pop_2d s 3).
  - reflexivity.
  - intros a Ha. destruct a; reflexivity.
Defined.

(** X13 on the test run: two objective evaluations and one constraint
    evaluation were requested, and the fitness was computed four times. *)
Lemma evolve_fitness_evaluations_witness :
  exists pop' s_end t,
    Mock.run Mock.prob_2d 1000 default_worhp_library Mock.pop_2d 10
    = (Ret pop', s_end, t)
    /\ count (requests evalF) t = 2%nat
    /\ count (requests evalG) t = 1%nat
    /\ count is_Fitness t
       = (count (requests evalF) t + count (requests evalG) t + 1)%nat.
Proof.
  eassert (Hrun : evolve Mock.header (Mock.file_system 1000)
                    (Mock.host_of Mock.prob_2d)
                    (Mock.algorithm Mock.prob_2d false default_worhp_library)
                    Mock.pop_2d 10 Mock.garbage
                  = (Ret _, _, _)) by (vm_compute; reflexivity).
  eexists. eexists. eexists. split; [exact Hrun |].
  split; [reflexivity |]. split; [reflexivity |].
  exact (evolve_fitness_evaluations Mock.header (Mock.file_system 1000)
           (Mock.host_of Mock.prob_2d) Mock.pop_2d _ _ 10%nat Mock.garbage _ _ Hrun).
Defined.

(** ** Requests and calls *)

Section Balanced.

Context {St : Type} (p q : Event -> bool).

Lemma balanced_ret {A : Type} (a : A) : balanced p q (ret (St := St) a).
Proof. intros s o s' t Heq. inversion Heq. reflexivity. Qed.

Lemma balanced_bind {A B : Type} (c : M St A) (k : A -> M St B) :
  balanced p q c -> (forall a, balanced p q (k a)) -> balanced p q (bind c k).
Proof.
  intros Hc Hk s o s' t. unfold bind.
  destruct (c s) as [[[a | e | |] s1] t1] eqn:Hcs;
    try (intros Heq; inversion Heq; subst; eapply Hc; eassumption).
  destruct (k a s1) as [[o2 s2] t2] eqn:Hks. intros Heq. inversion Heq; subst.
  rewrite !count_app, (Hc _ _ _ _ Hcs), (Hk _ _ _ _ _ Hks). reflexivity.
Qed.

End Balanced.

Section Requests.

Context {Opaque : Type}.
Variable hdr : WorhpHeader.
Variable H : Host.
Variable cap : Capability Opaque.
Variable pop : population H.

Local Abbreviation St := (Records Opaque).

(** The trace of [UserG], whatever its outcome. *)
Lemma UserG_trace_any (s s' : St) (o : Outcome unit) (t : Trace) :
  UserG H pop s = (o, s', t) ->
  t = [EvUserG] \/ exists x, t = [EvUserG; EvFitness x].
Proof.
  unfold UserG.
  rewrite (bind_Ret (emit EvUserG) _ s s tt [EvUserG] eq_refl).
  rewrite (bind_silent get _ s s s eq_refl).
  destruct (read_array (X (opt s)) (get_nx (get_problem H pop))) as [x |].
  2: { cbn. intros Heq. inversion Heq. left. reflexivity. }
  rewrite (bind_silent (defined (Some x)) _ s s x eq_refl).
  rewrite (bind_Ret (emit (EvFitness x)) _ s s tt [EvFitness x] eq_refl).
  destruct (fitness (get_problem H pop) x) as [e | f].
  { cbn. intros Heq. inversion Heq. right. exists x. reflexivity. }
  rewrite (bind_silent (host (inr f)) _ s s f eq_refl).
  match goal with |- context [for_range ?lo ?hi ?body s] =>
    destruct (for_range lo hi body s) as [[o1 s1] t1] eqn:Hloop
  end.
  assert (t1 = []) as ->
    by (apply silent_nil; eapply copy_to_G_silent; exact Hloop).
  cbn. intros Heq. inversion Heq. right. exists x. reflexivity.
Qed.

(** The trace of [UserF], whatever its outcome. *)
Lemma UserF_trace_any (s s' : St) (o : Outcome unit) (t : Trace) :
  UserF H pop s = (o, s', t) ->
  t = [EvUserF] \/ exists x, t = [EvUserF; EvFitness x].
Proof.
  rewrite UserF_run.
  destruct (read_array (X (opt s)) (get_nx (get_problem H pop))) as [x |].
  2: { intros Heq. inversion Heq. left. reflexivity. }
  destruct (fitness (get_problem H pop) x) as [e | f].
  { intros Heq. inversion Heq. right. exists x. reflexivity. }
  destruct (at_index f 0); intros Heq; inversion Heq; right; exists x; reflexivity.
Qed.

(** One check of a flag of the fixed order, and what follows it: the call
    that serves [a] is made once when the flag is found set, and not at all
    otherwise. *)
Lemma dispatch_balanced (a a' : UserAction) :
  In a priority_order ->
  balanced (performs a') (requests a') (dispatch H cap pop a).
Proof.
  intros Ha s o s' t. unfold dispatch.
  rewrite (bind_Ret _ _ _ _ _ _ (call_GetUserAction_run cap a s)).
  destruct (GetUserAction cap (cnt s) a).
  2: { cbn. intros Heq. inversion Heq. destruct a'; reflexivity. }
  destruct Ha as [<- | [<- | [<- | [<- | [<- | []]]]]]; cbn [action acknowledged].
  - rewrite (bind_Ret _ _ _ _ _ _ (call_run EvWorhp (Worhp cap) s)).
    cbn. intros Heq. inversion Heq. destruct a'; reflexivity.
  - rewrite (bind_Ret _ _ _ _ _ _ (call_run EvIterationOutput (IterationOutput cap) s)).
    cbn. intros Heq. inversion Heq. destruct a'; reflexivity.
  - unfold bind at 1.
    destruct (UserF H pop s) as [[o1 s1] t1] eqn:HF.
    apply UserF_trace_any in HF as [-> | (x & ->)];
      destruct o1 as [[] | e | |]; cbn;
      intros Heq; inversion Heq; destruct a'; reflexivity.
  - unfold bind at 1.
    destruct (UserG H pop s) as [[o1 s1] t1] eqn:HG.
    apply UserG_trace_any in HG as [-> | (x & ->)];
      destruct o1 as [[] | e | |]; cbn;
      intros Heq; inversion Heq; destruct a'; reflexivity.
  - rewrite (bind_Ret _ _ _ _ _ _ (call_run EvWorhpFidif (WorhpFidif cap) s)).
    cbn. intros Heq. inversion Heq. destruct a'; reflexivity.
Qed.

Lemma rc_turn_balanced (a' : UserAction) :
  balanced (performs a') (requests a') (rc_turn H cap pop).
Proof.
  assert (Hspec : balanced (performs a') (requests a') (spec_turn H cap pop)).
  { unfold spec_turn, priority_order. cbn [fold_right].
    repeat (apply balanced_bind;
            [apply dispatch_balanced; cbn; tauto | intros _]).
    apply balanced_ret. }
  intros s o s' t Hrun. rewrite rc_turn_refines_spec_turn in Hrun.
  exact (Hspec s o s' t Hrun).
Qed.

(** X2: the driver acts on request, and on every request.  Whatever the
    outcome of the loop (it has ended, an exception of the host has left it,
    or it is still running), and for each action [a] of the protocol, the
    routine that serves [a] was called exactly as many times as the flag of
    [a] was found set: [Worhp] for [callWorhp], [IterationOutput] for
    [iterOutput], [UserF] for [evalF], [UserG] for [evalG], [WorhpFidif] for
    [fidif].  No routine is called without its flag, and no flag found set is
    passed over. *)
Theorem rc_loop_serves_requests (fuel : nat) (s s' : St) (o : Outcome unit)
    (t : Trace) (a : UserAction) :
  rc_loop hdr H cap pop fuel s = (o, s', t) ->
  count (performs a) t = count (requests a) t.
Proof.
  intros Hrun.
  enough (Hloop : balanced (performs a) (requests a) (rc_loop hdr H cap pop fuel))
    by exact (Hloop s o s' t Hrun).
  clear Hrun s s' o t.
  assert (Hstatus : forall st, balanced (St := St) (performs a) (requests a)
                                 (emit (EvStatus st))).
  { intros st s o s' t Heq. inversion Heq. destruct a; reflexivity. }
  assert (Hget : balanced (St := St) (performs a) (requests a) get).
  { intros s o s' t Heq. inversion Heq. reflexivity. }
  induction fuel as [| fuel IH]; cbn [rc_loop];
    (apply balanced_bind; [exact Hget | intros s];
     apply balanced_bind; [apply Hstatus | intros _];
     destruct (in_progress hdr (status (cnt s))); [| apply balanced_ret]).
  - intros s0 o s1 t Heq. inversion Heq. reflexivity.
  - apply balanced_bind; [apply rc_turn_balanced | intros _; exact IH].
Qed.

End Requests.

(** X2 on a run that an exception cuts short: the fitness fails in the first
    objective evaluation; the step of the solver and the objective evaluation
    were each requested once and each made once. *)
Lemma rc_loop_serves_requests_witness :
  exists s' t,
    rc_loop Mock.header (Mock.host_of Mock.prob_failing) (Mock.capability 1000)
      Mock.pop_2d 5 Mock.started
    = (Throw Mock.host_failure, s', t)
    /\ count (requests callWorhp) t = 1%nat
    /\ count (requests evalF) t = 1%nat
    /\ count (performs callWorhp) t = count (requests callWorhp) t
    /\ count (performs evalF) t = count (requests evalF) t
    /\ count (performs evalG) t = count (requests evalG) t.
Proof.
  eassert (Hrun : rc_loop Mock.header (Mock.host_of Mock.prob_failing)
                    (Mock.capability 1000) Mock.pop_2d 5 Mock.started
                  = (Throw Mock.host_failure, _, _)) by (vm_compute; reflexivity).
  eexists. eexists. split; [exact Hrun |].
  split; [reflexivity |]. split; [reflexivity |].
  split; [| split].
  - exact (rc_loop_serves_requests Mock.header (Mock.host_of Mock.prob_failing)
             (Mock.capability 1000) Mock.pop_2d _ _ _ _ _ callWorhp Hrun).
  - exact (rc_loop_serves_requests Mock.header (Mock.host_of Mock.prob_failing)
             (Mock.capability 1000) Mock.pop_2d _ _ _ _ _ evalF Hrun).
  - exact (rc_loop_serves_requests Mock.header (Mock.host_of Mock.prob_failing)
             (Mock.capability 1000) Mock.pop_2d _ _ _ _ _ evalG Hrun).
Defined.

(** ** The algorithm object: what [evolve] reads of it, its description, its
    serialization *)

Section Object.

Context {Opaque : Type}.
Variable hdr : WorhpHeader.
Variable fs : FileSystem Opaque.
Variable H : Host.

Local Abbreviation St := (Records Opaque).

(** X14: [evolve] reads two things of the algorithm object, the state of
    the base class and the path of the library.  Two objects that agree on
    these give the same outcome, the same records and the same trace: neither
    the choice of the screen output nor the verbosity, whatever
    [set_verbosity] has stored, changes anything [evolve] does. *)
Theorem evolve_ignores_output_settings (w w' : worhp H) (pop : population H)
    (fuel : nat) (s : St) :
  base w' = base w ->
  m_worhp_library w' = m_worhp_library w ->
  evolve hdr fs H w' pop fuel s = evolve hdr fs H w pop fuel s.
Proof.
  destruct w as [b l so v], w' as [b' l' so' v']. cbn. intros -> ->.
  reflexivity.
Qed.

(** X16: the three checks of the preamble are made in a fixed order, and
    the first that fails decides the exception.  Several objectives are
    reported whatever else is wrong; a stochastic problem is reported when the
    problem has one objective, whatever the population; the empty population
    is reported last.  Each exception is an [invalid_argument] with the text of
    the source, raised before anything else was done. *)
Theorem evolve_precondition_messages (w : worhp H) (pop : population H)
    (fuel : nat) (s : St) :
  let prob := get_problem H pop in
  let raises site descr :=
    evolve hdr fs H w pop fuel s
    = (Throw {| kind := invalid_argument;
                what := pagmo_throw_what H site descr |}, s, []) in
  (get_nobj prob <> 1 ->
   raises at_multiobjective
     ("Multiple objectives detected in " ++ problem_name prob
      ++ " instance. WORHP cannot deal with them")%string)
  /\ (get_nobj prob = 1 -> is_stochastic prob = true ->
      raises at_stochastic
        "The problem appears to be stochastic WORHP cannot deal with it"%string)
  /\ (get_nobj prob = 1 -> is_stochastic prob = false -> size H pop = 0 ->
      raises at_empty_population
        "WORHP does not work on an empty population"%string).
Proof.
  intros prob raises. unfold raises, evolve.
  split; [| split].
  - intros Hobj. apply bind_Throw.
    unfold check_problem, bind, pagmo_throw, throw. fold prob.
    destruct (Z.eqb_spec (get_nobj prob) 1) as [Hone | _]; [contradiction |].
    reflexivity.
  - intros Hobj Hsto. apply bind_Throw.
    unfold check_problem, bind, pagmo_throw, throw, ret. fold prob.
    rewrite Hobj, Hsto. reflexivity.
  - intros Hobj Hsto Hsize. apply bind_Throw.
    unfold check_problem, bind, pagmo_throw, throw, ret. fold prob.
    rewrite Hobj, Hsto, Hsize. reflexivity.
Qed.

End Object.

Section LoaderSteps.

Context {Opaque : Type}.
Variable fs : FileSystem Opaque.
Variable H : Host.

Local Abbreviation St := (Records Opaque).

Ltac stop_at k :=
  let Heq := fresh "Heq" in
  intros Heq; inversion Heq; subst; exists k;
  split; [lia | split; [reflexivity | first [exact I | reflexivity]]].

Lemma load_symbols_steps (w : worhp H) (s s' : St)
    (o : Outcome (Capability Opaque)) (t : Trace) :
  load_symbols fs H w s = (o, s', t) ->
  exists k : nat,
    (1 <= k <= 12)%nat
    /\ t = EvLock :: firstn k (loader_script (m_worhp_library w)) ++ [EvUnlock]
    /\ match o with
       | Ret _ => k = 12%nat
       | Throw _ => True
       | _ => False
       end.
Proof.
  unfold load_symbols, lock_guard, bind, emit, pagmo_throw, throw, ret, host, import.
  cbn.
  destruct (is_regular_file fs (m_worhp_library w)); cbn;
    [| intros Heq; inversion Heq; subst; exists 1%nat;
       split; [lia | split; [reflexivity | exact I]]].
  destruct (shared_library fs (m_worhp_library w)) as [e | l]; cbn;
    [intros Heq; inversion Heq; subst; exists 2%nat;
     split; [lia | split; [reflexivity | exact I]] |].
  unfold bind, emit, host, throw, ret.
  destruct (import_routine l "WorhpPreInit"); cbn; [stop_at 3%nat |].
  destruct (import_routine l "WorhpInit"); cbn; [stop_at 4%nat |].
  destruct (import_ReadParams l "ReadParams"); cbn; [stop_at 5%nat |].
  destruct (import_GetUserAction l "GetUserAction"); cbn; [stop_at 6%nat |].
  destruct (import_DoneUserAction l "DoneUserAction"); cbn; [stop_at 7%nat |].
  destruct (import_routine l "IterationOutput"); cbn; [stop_at 8%nat |].
  destruct (import_routine l "Worhp"); cbn; [stop_at 9%nat |].
  destruct (import_routine l "StatusMsg"); cbn; [stop_at 10%nat |].
  destruct (import_routine l "WorhpFree"); cbn; [stop_at 11%nat |].
  destruct (import_routine l "WorhpFidif"); cbn; stop_at 12%nat.
Qed.

(** X15: whatever its outcome, the loading step goes through a prefix of
    one fixed sequence, inside the lock: the check of the path, the loading of
    the library, and the binding of the ten symbols in the order of their
    declarations.  It stops at the first step that fails and attempts nothing
    after it; it returns only after all twelve steps; when it fails, the
    exception is an [invalid_argument]; the records are never touched. *)
Theorem load_library_steps (w : worhp H) (s s' : St)
    (o : Outcome (Capability Opaque)) (t : Trace) :
  load_library fs H w s = (o, s', t) ->
  exists k : nat,
    (1 <= k <= 12)%nat
    /\ t = EvLock :: firstn k (loader_script (m_worhp_library w)) ++ [EvUnlock]
    /\ s' = s
    /\ match o with
       | Ret _ => k = 12%nat
       | Throw e => kind e = invalid_argument
       | _ => False
       end.
Proof.
  unfold load_library, try_catch.
  destruct (load_symbols fs H w s) as [[o1 s1] t1] eqn:Hload.
  assert (s1 = s) as -> by (eapply load_symbols_keeps_records; exact Hload).
  apply load_symbols_steps in Hload as (k & Hk & -> & Ho).
  destruct o1 as [cap | e | |]; try contradiction.
  - intros Heq. exists k. inversion Heq; subst. auto.
  - unfold pagmo_throw, throw. intros Heq. exists k. inversion Heq; subst.
    rewrite app_nil_r. auto.
Qed.

End LoaderSteps.

(** ** The description *)

Lemma to_uint_nonnil (v : N) : N.to_uint v <> Decimal.Nil.
Proof.
  destruct v as [| p]; [discriminate |].
  apply DecimalPos.Unsigned.to_uint_nonnil.
Qed.

Lemma to_string_inj (v v' : N) : to_string v = to_string v' -> v = v'.
Proof.
  unfold to_string. intros Heq.
  apply (f_equal DecimalString.NilZero.uint_of_string) in Heq.
  rewrite !DecimalString.NilZero.usu in Heq by apply to_uint_nonnil.
  inversion Heq as [Hu].
  apply (f_equal N.of_uint) in Hu. rewrite !DecimalN.Unsigned.of_to in Hu.
  exact Hu.
Qed.

Lemma append_inv_head (a b c : string) :
  (a ++ b)%string = (a ++ c)%string -> b = c.
Proof.
  induction a as [| ch a IH]; cbn; [auto |].
  intros Heq. inversion Heq. auto.
Qed.

Lemma string_length_append (a b : string) :
  String.length (a ++ b) = (String.length a + String.length b)%nat.
Proof. induction a as [| ch a IH]; cbn; [reflexivity | rewrite IH; reflexivity]. Qed.

Lemma append_inv_tail (a b c : string) :
  (a ++ c)%string = (b ++ c)%string -> a = b.
Proof.
  revert b. induction a as [| ch a IH]; intros [| ch' b] Heq.
  - reflexivity.
  - exfalso. apply (f_equal String.length) in Heq.
    cbn in Heq. rewrite string_length_append in Heq. lia.
  - exfalso. apply (f_equal String.length) in Heq.
    cbn in Heq. rewrite string_length_append in Heq. lia.
  - cbn in Heq. inversion Heq. f_equal. auto.
Qed.

Lemma append_assoc (a b c : string) :
  ((a ++ b) ++ c)%string = (a ++ (b ++ c))%string.
Proof. induction a as [| ch a IH]; cbn; [reflexivity | rewrite IH; reflexivity]. Qed.

Section DescriptionFacts.

Variable H : Host.
Variable m_select m_replace : not_population_based H -> any.

Lemma inr_inj {A B : Type} (x y : B) : @inr A B x = inr y -> x = y.
Proof. intros Heq. inversion Heq. reflexivity. Qed.

Lemma stream_one (ss a : string) : stream ss [a] = (ss ++ a)%string.
Proof. reflexivity. Qed.

Lemma stream_two (ss a b : string) :
  stream ss [a; b] = ((ss ++ a) ++ b)%string.
Proof. unfold stream. cbn. symmetry. apply append_assoc. Qed.

(** X17: with the screen output of the solver chosen at construction, the
    description does not read the verbosity: it is the same text for every
    value of [m_verbosity], also the one the constructor left there.  With
    pagmo's logging chosen, the description carries the verbosity in decimal
    digits, and two objects that differ in nothing but the verbosity have
    different descriptions.  The description fails, with the exception of the
    cast, exactly when one of the two policies holds neither an index nor a
    name. *)
Theorem get_extra_info_verbosity (w : worhp H) (v : N) :
  (m_screen_output w = true ->
   get_extra_info H m_select m_replace (with_verbosity w v)
   = get_extra_info H m_select m_replace w)
  /\ (m_screen_output w = false ->
      forall text,
        get_extra_info H m_select m_replace w = inr text ->
        get_extra_info H m_select m_replace (with_verbosity w v) = inr text ->
        v = m_verbosity w)
  /\ (forall e,
         get_extra_info H m_select m_replace w = inl e <->
         e = bad_any_cast
         /\ (m_select (base w) = any_other \/ m_replace (base w) = any_other)).
Proof.
  split; [| split].
  - intros Hs. unfold get_extra_info. cbn [with_verbosity m_screen_output base
      m_worhp_library]. rewrite Hs. reflexivity.
  - intros Hs text. unfold get_extra_info.
    cbn [with_verbosity m_screen_output base m_worhp_library m_verbosity].
    rewrite Hs. cbn [negb].
    destruct (m_select (base w)) as [i | name |];
      destruct (m_replace (base w)) as [j | name' |];
      cbn [stream_policy]; try discriminate;
      intros Hw Hv; rewrite <- Hw in Hv; clear Hw; apply inr_inj in Hv;
      rename Hv into Heq;
      rewrite !stream_one, !stream_two in Heq;
      repeat (apply append_inv_tail in Heq);
      apply append_inv_head in Heq;
      apply to_string_inj; exact Heq.
  - intros e. unfold get_extra_info.
    destruct (m_select (base w)) as [i | name |];
      destruct (m_replace (base w)) as [j | name' |];
      cbn [stream_policy]; split;
      first
        [ discriminate
        | intros (_ & [Hno | Hno]); discriminate
        | intros (-> & _); reflexivity
        | intros Heq; inversion Heq; split;
          [reflexivity | first [left; reflexivity | right; reflexivity]] ].
Qed.

End DescriptionFacts.


(** ** Serialization *)

(** X18: [serialize] hands the archive the base-class subobject and the
    path of the library, and nothing else.  So, whatever the archive,
    [m_screen_output] and [m_verbosity] are after the call what they were
    before; and an object [w] saved to an archive and loaded from it into an
    object [w0] comes back with the base class and the path of [w] and with
    the screen-output flag and the verbosity of [w0]. *)
Theorem serialize_round_trip (H : Host) (w w0 : worhp H) :
  (forall (Ar : Archive H) (ar ar' : archive_state Ar) (w1 w1' : worhp H),
      serialize Ar ar w1 = inr (ar', w1') ->
      m_screen_output w1' = m_screen_output w1
      /\ m_verbosity w1' = m_verbosity w1)
  /\ exists saved : list (Item H),
      serialize (output_archive H) [] w = inr (saved, w)
      /\ saved = [item_base (base w); item_string (m_worhp_library w)]
      /\ serialize (input_archive H) saved w0
         = inr ([], {| base := base w;
                       m_worhp_library := m_worhp_library w;
                       m_screen_output := m_screen_output w0;
                       m_verbosity := m_verbosity w0 |}).
Proof.
  split.
  - intros Ar ar ar' w1 w1'. unfold serialize.
    destruct (process_base Ar ar (base w1)) as [e | [ar1 b]]; [discriminate |].
    destruct (process_string Ar ar1 (m_worhp_library w1)) as [e | [ar2 l]];
      [discriminate |].
    intros Heq. inversion Heq; subst. split; reflexivity.
  - eexists. split; [| split; [reflexivity |]].
    + destruct w. reflexivity.
    + reflexivity.
Qed.

(** X14 on the test doubles: the object built with pagmo's logging and
    verbosity 7, and the object built with the screen output of the solver and
    verbosity 0. *)
Lemma evolve_ignores_output_settings_witness :
  let H := Mock.host_of Mock.prob_2d in
  evolve Mock.header (Mock.file_system 1000) H
    (worhp_ctor (H := H) tt 0%N true default_worhp_library) Mock.pop_2d 10
    Mock.garbage
  = evolve Mock.header (Mock.file_system 1000) H
      (Mock.algorithm Mock.prob_2d false default_worhp_library) Mock.pop_2d 10
      Mock.garbage.
Proof.
  intros H.
  apply (evolve_ignores_output_settings Mock.header (Mock.file_system 1000) H);
    reflexivity.
Defined.

(** X15 on the test doubles: a file that is not a library stops the loading
    at its second step, and a library without its last symbol at the twelfth. *)
Lemma load_library_steps_witness :
  let H := Mock.host_of Mock.prob_2d in
  let steps (path : string) (k : nat) :=
    exists e t,
      load_library (Mock.file_system 1000) H
        (Mock.algorithm Mock.prob_2d false path) Mock.garbage
      = (Throw e, Mock.garbage, t)
      /\ t = EvLock :: firstn k (loader_script path) ++ [EvUnlock]
      /\ kind e = invalid_argument in
  steps "/etc/hostname"%string 2%nat
  /\ steps "/opt/worhp/libworhp_old.so"%string 12%nat.
Proof.
  intros H steps. unfold steps. split.
  - eassert (Hrun : load_library (Mock.file_system 1000) H
                      (Mock.algorithm Mock.prob_2d false "/etc/hostname")
                      Mock.garbage
                    = (Throw _, _, _)) by (vm_compute; reflexivity).
    destruct (load_library_steps (Mock.file_system 1000) H _ _ _ _ _ Hrun)
      as (k & _ & _ & _ & Hkind).
    eexists. eexists. split; [exact Hrun |]. split; [reflexivity | exact Hkind].
  - eassert (Hrun : load_library (Mock.file_system 1000) H
                      (Mock.algorithm Mock.prob_2d false "/opt/worhp/libworhp_old.so")
                      Mock.garbage
                    = (Throw _, _, _)) by (vm_compute; reflexivity).
    destruct (load_library_steps (Mock.file_system 1000) H _ _ _ _ _ Hrun)
      as (k & _ & _ & _ & Hkind).
    eexists. eexists. split; [exact Hrun |]. split; [reflexivity | exact Hkind].
Defined.

(** ** The whole sequence of calls *)

Section Sequence.

Context {Opaque : Type}.
Variable hdr : WorhpHeader.
Variable fs : FileSystem Opaque.
Variable H : Host.

Local Abbreviation St := (Records Opaque).

(** X20: the calls of a run of [evolve] that returns, from the first to
    the last.  Inside the lock: the check of the path, the loading of the
    library, the binding of the ten symbols.  Then [WorhpPreInit],
    [ReadParams] on param.xml, [WorhpInit] and the selection of the individual.
    Then the loop, whose trace is that of the protocol.  Then one fitness
    evaluation at the final point, the comparison with the fitness of the
    selected individual and, when it says so, the replacement.  Then
    [StatusMsg] and [WorhpFree].  Nothing else crosses the boundary of the
    driver. *)
Theorem evolve_call_sequence (w : worhp H) (pop pop' : population H)
    (fuel : nat) (s s_end : St) (t : Trace) :
  evolve hdr fs H w pop fuel s = (Ret pop', s_end, t) ->
  exists (t_loop : Trace) (x_final f_final f0 : vector_double) (better : bool),
    loop_trace hdr t_loop
    /\ t = (EvLock :: loader_script (m_worhp_library w) ++ [EvUnlock])
           ++ [EvWorhpPreInit; EvReadParams "param.xml"; EvWorhpInit; EvSelect]
           ++ t_loop
           ++ [EvFitness x_final; EvCompare f_final f0]
           ++ (if better then [EvReplace x_final f_final] else [])
           ++ [EvStatusMsg; EvWorhpFree].
Proof.
  intros Hrun.
  apply evolve_Ret_inv in Hrun
    as (cap & f0 & s_setup & s_loop & t_load & t_setup & t_loop & t_re
        & Hload & Hsetup & Hloop & Hre & -> & ->).
  destruct (load_library_Ret_inv _ _ _ _ _ _ _ Hload) as (Hsym & _ & _).
  apply load_symbols_steps in Hsym as (k & _ & -> & ->).
  apply setup_trace_exact in Hsetup as ->.
  destruct (rc_loop_trace hdr H cap pop fuel _ _ _ Hloop) as (Htr & _).
  destruct (reinsert_inv _ _ _ _ _ _ _ _ Hre)
    as (_ & x_final & f_final & better & _ & _ & _ & _ & _ & _ & _ & ->).
  exists t_loop, x_final, f_final, f0, better.
  split; [exact Htr |].
  cbn [app firstn loader_script]. rewrite <- !app_assoc. reflexivity.
Qed.

End Sequence.

(** X20 on the test run. *)
Lemma evolve_call_sequence_witness :
  exists pop' s_end t,
    Mock.run Mock.prob_2d 1000 default_worhp_library Mock.pop_2d 10
    = (Ret pop', s_end, t)
    /\ List.length t = 57%nat
    /\ exists (t_loop : Trace) (x_final f_final f0 : vector_double) (better : bool),
        loop_trace Mock.header t_loop
        /\ t = (EvLock :: loader_script default_worhp_library ++ [EvUnlock])
               ++ [EvWorhpPreInit; EvReadParams "param.xml"; EvWorhpInit; EvSelect]
               ++ t_loop
               ++ [EvFitness x_final; EvCompare f_final f0]
               ++ (if better then [EvReplace x_final f_final] else [])
               ++ [EvStatusMsg; EvWorhpFree].
Proof.
  eassert (Hrun : evolve Mock.header (Mock.file_system 1000)
                    (Mock.host_of Mock.prob_2d)
                    (Mock.algorithm Mock.prob_2d false default_worhp_library)
                    Mock.pop_2d 10 Mock.garbage
                  = (Ret _, _, _)) by (vm_compute; reflexivity).
  eexists. eexists. eexists. split; [exact Hrun |].
  split; [reflexivity |].
  exact (evolve_call_sequence Mock.header (Mock.file_system 1000)
           (Mock.host_of Mock.prob_2d)
           (Mock.algorithm Mock.prob_2d false default_worhp_library)
           Mock.pop_2d _ 10%nat Mock.garbage _ _ Hrun).
Defined.

(** ** The records with which the loop starts *)

(** The rule of a counted loop that carries a value and leaves the state
    alone. *)
Lemma for_fold_rule {St B : Type} (Inv : Z -> B -> Prop)
    (body : Z -> B -> M St B) (s : St) :
  forall (k : nat) (lo : Z) (acc : B),
    (forall i b, lo <= i < lo + Z.of_nat k -> Inv i b ->
                 exists b', body i b s = (Ret b', s, []) /\ Inv (i + 1) b') ->
    Inv lo acc ->
    exists b',
      for_fold k lo body acc s = (Ret b', s, [])
      /\ Inv (lo + Z.of_nat k) b'.
Proof.
  induction k as [| c IH]; intros lo acc Hbody Hinv.
  - exists acc. cbn. rewrite Z.add_0_r. split; [reflexivity | exact Hinv].
  - destruct (Hbody lo acc ltac:(lia) Hinv) as (b1 & Hstep & Hinv1).
    destruct (IH (lo + 1) b1) as (b' & Hrest & Hinv').
    + intros i b Hi. apply Hbody. lia.
    + exact Hinv1.
    + exists b'. split.
      * cbn [for_fold]. rewrite (bind_silent _ _ _ _ _ Hstep). exact Hrest.
      * replace (lo + Z.of_nat (S c)) with (lo + 1 + Z.of_nat c) by lia.
        exact Hinv'.
Qed.

Section StartingRecords.

Context {Opaque : Type}.

Local Abbreviation St := (Records Opaque).

(** The copy of the selected individual into the records, run. *)
Lemma set_initial_values_run (x0 f0 : vector_double) (s : St) :
  Z.of_nat (List.length x0) = n (opt s) ->
  Z.of_nat (List.length (X (opt s))) = n (opt s) ->
  Z.of_nat (List.length f0) = m (opt s) + 1 ->
  Z.of_nat (List.length (G (opt s))) = m (opt s) ->
  exists s' f0_0,
    set_initial_values x0 f0 s = (Ret tt, s', [])
    /\ at_index f0 0 = Some f0_0
    /\ X (opt s') = x0
    /\ F (opt s') = PrimFloat.mul (ScaleObj (wsp s)) f0_0
    /\ G (opt s') = tl f0
    /\ same_but_point s s'.
Proof.
  intros Hx0 HX Hf0 HG.
  destruct (at_index_in_range f0 0 ltac:(lia)) as (f0_0 & H0).
  unfold set_initial_values.
  rewrite (bind_silent get _ s s s eq_refl).
  destruct (copy_loop X set_X (at_index x0) (n (opt s)) s)
    as (a & Hrun1 & Hla & Hina & _).
  { reflexivity. } { reflexivity. } { intros []; reflexivity. } { lia. }
  { intros i Hi. destruct (at_index_in_range x0 i ltac:(lia)) as (v & ->).
    discriminate. }
  rewrite (bind_silent _ _ _ _ _ Hrun1).
  assert (a = x0) as ->.
  { apply at_index_ext; [lia |]. intros i Hi. apply Hina. lia. }
  rewrite H0.
  erewrite bind_silent by reflexivity.
  erewrite bind_silent by reflexivity.
  erewrite bind_silent by reflexivity.
  match goal with |- context [for_range 0 _ _ ?s2] =>
    destruct (copy_loop G set_G (fun i => at_index f0 (i + 1)) (m (opt s)) s2)
      as (g & Hrun2 & Hlg & Hing & _)
  end.
  { reflexivity. } { reflexivity. } { intros []; reflexivity. } { cbn. lia. }
  { intros i Hi. destruct (at_index_in_range f0 (i + 1) ltac:(lia)) as (v & ->).
    discriminate. }
  cbn in Hlg.
  assert (g = tl f0) as ->.
  { apply at_index_ext.
    - rewrite Hlg. destruct f0; cbn in *; lia.
    - intros i Hi. rewrite at_index_tl by lia. apply Hing. lia. }
  eexists. exists f0_0. split; [exact Hrun2 |].
  split; [reflexivity |]. cbn. repeat split.
Qed.

(** The three loops of the bounds, run. *)
Lemma set_bounds_run (lb ub : vector_double) (n_eq : Z) (s : St) :
  0 <= n_eq <= m (opt s) ->
  m (opt s) <= INT_MAX ->
  Z.of_nat (List.length lb) = n (opt s) ->
  Z.of_nat (List.length ub) = n (opt s) ->
  Z.of_nat (List.length (XL (opt s))) = n (opt s) ->
  Z.of_nat (List.length (XU (opt s))) = n (opt s) ->
  Z.of_nat (List.length (GL (opt s))) = m (opt s) ->
  Z.of_nat (List.length (GU (opt s))) = m (opt s) ->
  exists s',
    set_bounds lb ub n_eq s = (Ret tt, s', [])
    /\ XL (opt s') = lb /\ XU (opt s') = ub
    /\ (forall i, 0 <= i < n_eq ->
                  at_index (GL (opt s')) i = Some 0%float
                  /\ at_index (GU (opt s')) i = Some 0%float)
    /\ (forall i, n_eq <= i < m (opt s) ->
                  at_index (GL (opt s')) i = Some (PrimFloat.opp (Infty (par s)))
                  /\ at_index (GU (opt s')) i = Some 0%float)
    /\ Z.of_nat (List.length (GL (opt s'))) = m (opt s)
    /\ Z.of_nat (List.length (GU (opt s'))) = m (opt s)
    /\ same_but_bounds s s'.
Proof.
  intros Hneq Hint Hlb Hub HXL HXU HGL HGU.
  unfold set_bounds.
  rewrite (bind_silent get _ s s s eq_refl).
  rewrite (bind_silent _ _ _ _ _ (box_bounds_loop lb ub s Hlb Hub HXL HXU)).
  destruct (constraint_bounds_loop (fun _ => 0%float)
              (fun i => store_opt GL set_GL i 0%float ;;
                        store_opt GU set_GU i 0%float)
              0 n_eq (set_opt s (set_XU (set_XL (opt s) lb) ub)))
    as (l2 & u2 & Hrun2 & Hll2 & Hlu2 & Hin2 & Hout2).
  { reflexivity. }
  { intros i s2 Hi1 Hi2.
    erewrite bind_silent by (apply store_opt_in_range; lia).
    rewrite store_opt_in_range by (cbn; lia). reflexivity. }
  { lia. }
  { cbn. lia. }
  { cbn. lia. }
  rewrite (bind_silent _ _ _ _ _ Hrun2). cbn in Hll2, Hlu2, Hout2.
  rewrite (to_int_small n_eq) by lia.
  match goal with |- context [for_range n_eq _ _ ?s2] =>
    destruct (constraint_bounds_loop (fun s3 => PrimFloat.opp (Infty (par s3)))
                (fun i => s3 <- get ;;
                          store_opt GL set_GL i (PrimFloat.opp (Infty (par s3))) ;;
                          store_opt GU set_GU i 0%float)
                n_eq (m (opt s)) s2)
      as (l3 & u3 & Hrun3 & Hll3 & Hlu3 & Hin3 & Hout3)
  end.
  { reflexivity. }
  { intros i s3 Hi1 Hi2.
    erewrite bind_silent by reflexivity.
    erewrite bind_silent by (apply store_opt_in_range; lia).
    rewrite store_opt_in_range by (cbn; lia). reflexivity. }
  { lia. }
  { cbn. lia. }
  { cbn. lia. }
  cbn in Hll3, Hlu3, Hin3, Hout3.
  eexists. split; [exact Hrun3 |]. cbn.
  split; [reflexivity |]. split; [reflexivity |].
  split; [| split; [| split; [| split]]].
  - intros i Hi.
    destruct (Hout3 i ltac:(lia)) as (-> & ->). apply Hin2. lia.
  - intros i Hi. apply (Hin3 i). lia.
  - lia.
  - lia.
  - repeat split.
Qed.

Variable hdr : WorhpHeader.
Variable H : Host.

(** The set-up, run. *)
Lemma setup_run (w : worhp H) (cap : Capability Opaque)
    (pop : population H) (s : St) (x0 f0 : vector_double) :
  let prob := get_problem H pop in
  let s_init := WorhpInit cap (before_WorhpInit hdr cap prob s) in
  let lb := fst (get_bounds prob) in
  let ub := snd (get_bounds prob) in
  select_individual H (base w) pop = inr (x0, f0) ->
  0 <= get_nec prob <= m (opt s_init) ->
  m (opt s_init) <= INT_MAX ->
  Z.of_nat (List.length x0) = n (opt s_init) ->
  Z.of_nat (List.length f0) = m (opt s_init) + 1 ->
  Z.of_nat (List.length lb) = n (opt s_init) ->
  Z.of_nat (List.length ub) = n (opt s_init) ->
  Z.of_nat (List.length (X (opt s_init))) = n (opt s_init) ->
  Z.of_nat (List.length (XL (opt s_init))) = n (opt s_init) ->
  Z.of_nat (List.length (XU (opt s_init))) = n (opt s_init) ->
  Z.of_nat (List.length (G (opt s_init))) = m (opt s_init) ->
  Z.of_nat (List.length (GL (opt s_init))) = m (opt s_init) ->
  Z.of_nat (List.length (GU (opt s_init))) = m (opt s_init) ->
  exists s' f0_0,
    setup hdr H w cap pop s
    = (Ret f0, s',
       [EvWorhpPreInit; EvReadParams "param.xml"; EvWorhpInit; EvSelect])
    /\ at_index f0 0 = Some f0_0
    /\ X (opt s') = x0
    /\ F (opt s') = PrimFloat.mul (ScaleObj (wsp s_init)) f0_0
    /\ G (opt s') = tl f0
    /\ XL (opt s') = lb /\ XU (opt s') = ub
    /\ (forall i, 0 <= i < get_nec prob ->
                  at_index (GL (opt s')) i = Some 0%float
                  /\ at_index (GU (opt s')) i = Some 0%float)
    /\ (forall i, get_nec prob <= i < m (opt s_init) ->
                  at_index (GL (opt s')) i
                  = Some (PrimFloat.opp (Infty (par s_init)))
                  /\ at_index (GU (opt s')) i = Some 0%float)
    /\ n (opt s') = n (opt s_init) /\ m (opt s') = m (opt s_init)
    /\ opt_rest (opt s') = opt_rest (opt s_init)
    /\ wsp s' = wsp s_init /\ cnt s' = cnt s_init
    /\ par s' = set_derivative_free (par s_init).
Proof.
  intros prob s_init lb ub Hsel Hnec Hint Hx0 Hf0 Hlb Hub HX HXL HXU HG HGL HGU.
  unfold setup. fold prob.
  rewrite (bind_Ret _ _ _ _ _ _ (init_records_run hdr cap prob s)).
  fold s_init.
  set (s1 := set_par s_init (set_derivative_free (par s_init))).
  rewrite (bind_Ret (emit EvSelect) _ s1 s1 tt [EvSelect] eq_refl).
  rewrite Hsel.
  rewrite (bind_Ret (host (inr (x0, f0))) _ s1 s1 (x0, f0) [] eq_refl).
  cbn [fst snd].
  destruct (set_initial_values_run x0 f0 s1)
    as (s2 & f0_0 & Hrun2 & H0 & HX2 & HF2 & HG2 & Hsame2); try assumption.
  destruct Hsame2 as (Hw2 & Hp2 & Hc2 & Hn2 & Hm2 & HXL2 & HXU2 & HGL2 & HGU2 & Hr2).
  rewrite (bind_Ret _ _ _ _ _ _ Hrun2).
  destruct (set_bounds_run lb ub (get_nec prob) s2)
    as (s3 & Hrun3 & HXL3 & HXU3 & Heq3 & Hineq3 & _ & _ & Hsame3).
  { rewrite Hm2. exact Hnec. }
  { rewrite Hm2. exact Hint. }
  { rewrite Hn2. exact Hlb. }
  { rewrite Hn2. exact Hub. }
  { rewrite HXL2, Hn2. exact HXL. }
  { rewrite HXU2, Hn2. exact HXU. }
  { rewrite HGL2, Hm2. exact HGL. }
  { rewrite HGU2, Hm2. exact HGU. }
  destruct Hsame3 as (Hw3 & Hp3 & Hc3 & Hn3 & Hm3 & HX3 & HF3 & HG3 & Hr3).
  rewrite (bind_Ret _ _ _ _ _ _ Hrun3).
  exists s3, f0_0. split; [reflexivity |].
  split; [exact H0 |].
  split; [rewrite HX3; exact HX2 |].
  split; [rewrite HF3; exact HF2 |].
  split; [rewrite HG3; exact HG2 |].
  split; [exact HXL3 |]. split; [exact HXU3 |].
  split; [exact Heq3 |].
  split.
  { intros i Hi. rewrite Hm2 in Hineq3. rewrite Hp2 in Hineq3.
    apply Hineq3. exact Hi. }
  split; [rewrite Hn3; exact Hn2 |]. split; [rewrite Hm3; exact Hm2 |].
  split; [rewrite Hr3; exact Hr2 |].
  split; [rewrite Hw3; exact Hw2 |]. split; [rewrite Hc3; exact Hc2 |].
  rewrite Hp3. exact Hp2.
Qed.

(** X21: the set-up as a whole.  Let [s_init] be the records as
    [WorhpInit] leaves them, with arrays of the lengths [opt.n] and [opt.m]
    that it holds, and let the selected individual and the bounds of the
    problem have these sizes.  Then the set-up returns the fitness of the
    selected individual, and the records with which the loop starts are
    [s_init] but for this: [opt.X] is the selected decision vector, [opt.F]
    its objective scaled by [wsp.ScaleObj], [opt.G] its constraint values;
    [XL] and [XU] are the bounds of the problem; the constraint bounds are
    [0, 0] for the equalities and [-par.Infty, 0] for the inequalities; and
    the five flags of the derivative-free mode are set in [par]. *)
Theorem setup_starting_records (w : worhp H) (cap : Capability Opaque)
    (pop : population H) (s : St) (x0 f0 : vector_double) :
  let prob := get_problem H pop in
  let s_init := WorhpInit cap (before_WorhpInit hdr cap prob s) in
  let lb := fst (get_bounds prob) in
  let ub := snd (get_bounds prob) in
  select_individual H (base w) pop = inr (x0, f0) ->
  0 <= get_nec prob <= m (opt s_init) ->
  m (opt s_init) <= INT_MAX ->
  Z.of_nat (List.length x0) = n (opt s_init) ->
  Z.of_nat (List.length f0) = m (opt s_init) + 1 ->
  Z.of_nat (List.length lb) = n (opt s_init) ->
  Z.of_nat (List.length ub) = n (opt s_init) ->
  Z.of_nat (List.length (X (opt s_init))) = n (opt s_init) ->
  Z.of_nat (List.length (XL (opt s_init))) = n (opt s_init) ->
  Z.of_nat (List.length (XU (opt s_init))) = n (opt s_init) ->
  Z.of_nat (List.length (G (opt s_init))) = m (opt s_init) ->
  Z.of_nat (List.length (GL (opt s_init))) = m (opt s_init) ->
  Z.of_nat (List.length (GU (opt s_init))) = m (opt s_init) ->
  exists s' f0_0,
    setup hdr H w cap pop s
    = (Ret f0, s',
       [EvWorhpPreInit; EvReadParams "param.xml"; EvWorhpInit; EvSelect])
    /\ at_index f0 0 = Some f0_0
    /\ X (opt s') = x0
    /\ F (opt s') = PrimFloat.mul (ScaleObj (wsp s_init)) f0_0
    /\ G (opt s') = tl f0
    /\ XL (opt s') = lb /\ XU (opt s') = ub
    /\ (forall i, 0 <= i < get_nec prob ->
                  at_index (GL (opt s')) i = Some 0%float
                  /\ at_index (GU (opt s')) i = Some 0%float)
    /\ (forall i, get_nec prob <= i < m (opt s_init) ->
                  at_index (GL (opt s')) i
                  = Some (PrimFloat.opp (Infty (par s_init)))
                  /\ at_index (GU (opt s')) i = Some 0%float)
    /\ n (opt s') = n (opt s_init) /\ m (opt s') = m (opt s_init)
    /\ opt_rest (opt s') = opt_rest (opt s_init)
    /\ wsp s' = wsp s_init /\ cnt s' = cnt s_init
    /\ par s' = set_derivative_free (par s_init).
Proof. apply setup_run. Qed.


(** The loop that reads the final point back, on an array that holds
    exactly the cells of the point. *)
Lemma read_back_run (Xs : list double) (s : St) :
  for_fold_range 0 (Z.of_nat (List.length Xs))
    (fun i x_final =>
       X_i <- defined (at_index Xs i) ;; defined (store x_final i X_i))
    (repeat 0%float (List.length Xs)) s
  = (Ret Xs, s, []).
Proof.
  unfold for_fold_range.
  destruct (for_fold_rule
              (fun i (acc : vector_double) =>
                 List.length acc = List.length Xs
                 /\ forall j, 0 <= j < i -> at_index acc j = at_index Xs j)
              (fun i x_final =>
                 X_i <- defined (at_index Xs i) ;; defined (store x_final i X_i))
              s (Z.to_nat (Z.of_nat (List.length Xs) - 0)) 0
              (repeat 0%float (List.length Xs)))
    as (xf & Hrun & Hlen & Hat).
  - intros i b Hi (Hlen & Hat).
    destruct (at_index_in_range Xs i ltac:(lia)) as (v & Hv).
    exists (set_nth b (Z.to_nat i) v). split.
    + rewrite Hv. erewrite bind_silent by reflexivity.
      unfold store.
      destruct (Z.leb_spec 0 i); [| lia].
      destruct (Z.ltb_spec i (Z.of_nat (List.length b))); [| lia].
      reflexivity.
    + rewrite length_set_nth. split; [exact Hlen |].
      intros j Hj. destruct (Z.eq_dec i j) as [<- | Hne].
      * rewrite at_index_set_nth_same by lia. symmetry. exact Hv.
      * rewrite at_index_set_nth_other by lia. apply Hat. lia.
  - split; [apply repeat_length | intros j Hj; lia].
  - refine (eq_trans Hrun _). f_equal. f_equal. f_equal.
    apply at_index_ext; [exact Hlen |].
    intros i Hi. apply Hat. lia.
Qed.


Variable fs : FileSystem Opaque.

(** The reinsertion on records whose [opt.X] holds exactly the point [x],
    when the comparison says that the point is no better. *)
Lemma reinsert_run_no_better (w : worhp H) (pop : population H)
    (x f f0 : vector_double) (s : St) :
  X (opt s) = x ->
  n (opt s) = Z.of_nat (List.length x) ->
  get_nx (get_problem H pop) = Z.of_nat (List.length x) ->
  fitness (get_problem H pop) x = inr f ->
  compare_fc H f f0 (get_nec (get_problem H pop)) (get_c_tol (get_problem H pop))
  = inr false ->
  reinsert H w pop f0 s = (Ret pop, s, [EvFitness x; EvCompare f f0]).
Proof.
  intros HX Hn Hnx Hf Hc. unfold reinsert.
  rewrite (bind_silent get _ s s s eq_refl).
  rewrite Hn, Hnx, HX, Nat2Z.id.
  rewrite (bind_silent _ _ _ _ _ (read_back_run x s)).
  unfold bind, emit, host, ret. rewrite Hf, Hc. reflexivity.
Qed.

(** X22: a solver that does not start.  Let the problem be suitable and
    the library load; let [WorhpInit] leave arrays of the lengths [opt.n] and
    [opt.m], with [opt.n] the dimension of the problem, and let the selected
    individual and the bounds have these sizes.  When the status [WorhpInit]
    leaves is already outside the open interval, the loop does no turn: no
    step of the solver is made and nothing is asked of it.  [evolve] computes
    the fitness once, at the selected individual itself, compares it with the
    fitness the population holds for that individual and, when it is no
    better, returns the population as it was, after the calls of [StatusMsg]
    and [WorhpFree]. *)
Theorem evolve_without_turns (w : worhp H) (cap : Capability Opaque)
    (pop : population H) (fuel : nat) (s : St) (x0 f0 f : vector_double)
    (t_load : Trace) :
  let prob := get_problem H pop in
  let s_init := WorhpInit cap (before_WorhpInit hdr cap prob s) in
  let lb := fst (get_bounds prob) in
  let ub := snd (get_bounds prob) in
  suitable H pop ->
  load_library fs H w s = (Ret cap, s, t_load) ->
  select_individual H (base w) pop = inr (x0, f0) ->
  0 <= get_nec prob <= m (opt s_init) ->
  m (opt s_init) <= INT_MAX ->
  n (opt s_init) = get_nx prob ->
  Z.of_nat (List.length x0) = n (opt s_init) ->
  Z.of_nat (List.length f0) = m (opt s_init) + 1 ->
  Z.of_nat (List.length lb) = n (opt s_init) ->
  Z.of_nat (List.length ub) = n (opt s_init) ->
  Z.of_nat (List.length (X (opt s_init))) = n (opt s_init) ->
  Z.of_nat (List.length (XL (opt s_init))) = n (opt s_init) ->
  Z.of_nat (List.length (XU (opt s_init))) = n (opt s_init) ->
  Z.of_nat (List.length (G (opt s_init))) = m (opt s_init) ->
  Z.of_nat (List.length (GL (opt s_init))) = m (opt s_init) ->
  Z.of_nat (List.length (GU (opt s_init))) = m (opt s_init) ->
  in_progress hdr (status (cnt s_init)) = false ->
  fitness prob x0 = inr f ->
  compare_fc H f f0 (get_nec prob) (get_c_tol prob) = inr false ->
  exists s_end,
    evolve hdr fs H w pop fuel s
    = (Ret pop, s_end,
       t_load
       ++ [EvWorhpPreInit; EvReadParams "param.xml"; EvWorhpInit; EvSelect]
       ++ [EvStatus (status (cnt s_init)); EvFitness x0; EvCompare f f0;
           EvStatusMsg; EvWorhpFree]).
Proof.
  intros prob s_init lb ub Hok Hload Hsel Hnec Hint Hn Hx0 Hf0 Hlb Hub
    HX HXL HXU HG HGL HGU Hst Hf Hc.
  destruct (setup_run w cap pop s x0 f0 Hsel Hnec Hint Hx0 Hf0 Hlb Hub
              HX HXL HXU HG HGL HGU)
    as (s1 & f0_0 & Hsetup & _ & HX1 & _ & _ & _ & _ & _ & _ & Hn1 & _ & _ & _
        & Hc1 & _).
  fold prob s_init in Hsetup, Hn1, Hc1.
  assert (Hloop : rc_loop hdr H cap pop fuel s1
                  = (Ret tt, s1, [EvStatus (status (cnt s_init))])).
  { rewrite <- Hc1. apply rc_loop_exit. rewrite Hc1. exact Hst. }
  assert (Hre : reinsert H w pop f0 s1
                = (Ret pop, s1, [EvFitness x0; EvCompare f f0])).
  { apply reinsert_run_no_better; try assumption.
    - rewrite Hn1. symmetry. exact Hx0.
    - fold prob. rewrite <- Hn. symmetry. exact Hx0. }
  exists (WorhpFree cap (StatusMsg cap s1)).
  unfold evolve.
  rewrite (bind_Ret _ _ _ _ _ _ (check_problem_passes H pop s Hok)).
  rewrite (bind_Ret _ _ _ _ _ _ Hload).
  unfold run_solver.
  rewrite (bind_Ret _ _ _ _ _ _ Hsetup).
  rewrite (bind_Ret _ _ _ _ _ _ Hloop).
  rewrite (bind_Ret _ _ _ _ _ _ Hre).
  rewrite (bind_Ret _ _ _ _ _ _ (teardown_run cap s1)).
  cbn. reflexivity.
Qed.

End StartingRecords.

(** X21 on the test doubles: from storage that holds anything to the
    records with which the loop of the test run starts. *)
Lemma setup_starting_records_witness :
  let H := Mock.host_of Mock.prob_2d in
  let w := Mock.algorithm Mock.prob_2d false default_worhp_library in
  exists s',
    setup Mock.header H w (Mock.capability 1000) Mock.pop_2d Mock.garbage
    = (Ret [7%float; (-1)%float; 4%float], s',
       [EvWorhpPreInit; EvReadParams "param.xml"; EvWorhpInit; EvSelect])
    /\ X (opt s') = [3%float; 4%float]
    /\ G (opt s') = [(-1)%float; 4%float]
    /\ XL (opt s') = [(-5)%float; (-5)%float]
    /\ XU (opt s') = [5%float; 5%float].
Proof.
  intros H w.
  destruct (setup_starting_records Mock.header H w (Mock.capability 1000)
              Mock.pop_2d Mock.garbage [3%float; 4%float]
              [7%float; (-1)%float; 4%float])
    as (s' & f0_0 & Hrun & _ & HX & _ & HG & HXL & HXU & _);
    try reflexivity.
  - vm_compute. split; discriminate.
  - vm_compute. discriminate.
  - exists s'. auto.
Defined.

(** X22 on a solver whose [WorhpInit] reports an error: the run on the test
    population makes no turn, computes the fitness at (3, 4) and returns the
    population as it was. *)
Lemma evolve_without_turns_witness :
  let H := Mock.host_of Mock.prob_2d in
  let w := Mock.algorithm Mock.prob_2d false default_worhp_library in
  exists s_end t_load,
    evolve Mock.header Stalled.file_system H w Mock.pop_2d 10 Mock.garbage
    = (Ret Mock.pop_2d, s_end,
       t_load
       ++ [EvWorhpPreInit; EvReadParams "param.xml"; EvWorhpInit; EvSelect]
       ++ [EvStatus (-1000); EvFitness [3%float; 4%float];
           EvCompare [7%float; (-1)%float; 4%float] [7%float; (-1)%float; 4%float];
           EvStatusMsg; EvWorhpFree]).
Proof.
  intros H w.
  eassert (Hload : load_library Stalled.file_system H w Mock.garbage
                   = (Ret Stalled.capability, Mock.garbage, _))
    by (vm_compute; reflexivity).
  assert (Hok : suitable H Mock.pop_2d) by (repeat split; discriminate).
  destruct (evolve_without_turns Mock.header H Stalled.file_system w
              Stalled.capability Mock.pop_2d 10%nat Mock.garbage
              [3%float; 4%float] [7%float; (-1)%float; 4%float]
              [7%float; (-1)%float; 4%float] _ Hok Hload)
    as (s_end & Hrun); try reflexivity.
  - vm_compute. split; discriminate.
  - vm_compute. discriminate.
  - exists s_end. eexists. exact Hrun.
Defined.
